(** * Robot Framework's Process library: a shallow embedding

    The development follows [src/robot/libraries/Process.py]: the
    [Process] keyword class, [ExecutionResult] and [ProcessConfiguration].
    Python objects with identity (file objects, [Popen] objects, result
    objects) live in an explicit store and are referred to by index, so
    that aliasing is visible.  Code that can raise returns an [outcome];
    the two polling loops take fuel.  Times are integers counting
    milliseconds (Robot rounds time strings to three decimals).  Calls to
    [logger] have no counterpart here. *)

From Stdlib Require Import ZArith Lia Ascii String List Bool.
From stdpp Require Import base gmap strings list option.

Open Scope string_scope.
Open Scope Z_scope.

(* ================================================================== *)
(** * Characters and strings *)
(* ================================================================== *)

(** Byte strings are strings of 8-bit characters. *)
Abbreviation bytes := string.

Definition CR : ascii := "013"%char.
Definition LF : ascii := "010"%char.
Definition TAB : ascii := "009"%char.
Definition SPACE : ascii := "032"%char.
Definition DQUOTE : ascii := "034"%char.
Definition SQUOTE : ascii := "039"%char.
Definition BACKSLASH : ascii := "092"%char.

(** [c * n] for a one-character string. *)
Fixpoint repeat_char (c : ascii) (n : nat) : string :=
  match n with
  | O => EmptyString
  | S n' => String c (repeat_char c n')
  end.

(** [sep.join(pieces)]. *)
Fixpoint join (sep : string) (pieces : list string) : string :=
  match pieces with
  | [] => EmptyString
  | [p] => p
  | p :: rest => p ++ sep ++ join sep rest
  end.

Definition upper_char (c : ascii) : ascii :=
  let n := nat_of_ascii c in
  if ((97 <=? n)%nat && (n <=? 122)%nat)%bool then ascii_of_nat (n - 32) else c.

Definition lower_char (c : ascii) : ascii :=
  let n := nat_of_ascii c in
  if ((65 <=? n)%nat && (n <=? 90)%nat)%bool then ascii_of_nat (n + 32) else c.

Fixpoint map_string (f : ascii -> ascii) (s : string) : string :=
  match s with
  | EmptyString => EmptyString
  | String c rest => String (f c) (map_string f rest)
  end.

(** [str.upper] and [str.lower] on 8-bit text. *)
Definition upper : string -> string := map_string upper_char.
Definition lower : string -> string := map_string lower_char.

(** [s.startswith(p)]. *)
Fixpoint startswith (p s : string) : bool :=
  match p, s with
  | EmptyString, _ => true
  | String a p', String b s' => Ascii.eqb a b && startswith p' s'
  | String _ _, EmptyString => false
  end.

(** [s[n:]]. *)
Fixpoint drop_chars (n : nat) (s : string) : string :=
  match n, s with
  | O, _ => s
  | S n', String _ s' => drop_chars n' s'
  | S _, EmptyString => EmptyString
  end.

(** [c in s] for a character. *)
Fixpoint contains_char (c : ascii) (s : string) : bool :=
  match s with
  | EmptyString => false
  | String d rest => Ascii.eqb c d || contains_char c rest
  end.

(** Truth value of an optional string: [None] and the empty string are
    false. *)
Definition truthy (s : option string) : bool :=
  match s with
  | Some (String _ _) => true
  | _ => false
  end.

(* ================================================================== *)
(** * Exceptions and outcomes *)
(* ================================================================== *)

Inductive exn : Type :=
  | TimeoutExpired                 (* subprocess.TimeoutExpired *)
  | TimeoutExceeded                (* robot.errors.TimeoutExceeded *)
  | OSError
  | RuntimeError (msg : string)
  | ValueError (msg : string)
  | KeyError.

(** What running a piece of code on a state gives: a value, a raised
    exception, or no answer within the fuel. *)
Inductive outcome (S A : Type) : Type :=
  | Ret (a : A) (s : S)
  | Raise (e : exn) (s : S)
  | Diverge.
Arguments Ret {S A} a s.
Arguments Raise {S A} e s.
Arguments Diverge {S A}.

Definition M (S A : Type) : Type := S -> outcome S A.

Definition ret {S A} (a : A) : M S A := fun s => Ret a s.
Definition raise {S A} (e : exn) : M S A := fun s => Raise e s.
Definition diverge {S A} : M S A := fun _ => Diverge.

Definition bind {S A B} (m : M S A) (k : A -> M S B) : M S B :=
  fun s =>
    match m s with
    | Ret a s' => k a s'
    | Raise e s' => Raise e s'
    | Diverge => Diverge
    end.

(** [try: m  except <e handled by h>: h e]; an exception for which [h]
    answers [None] propagates. *)
Definition try_except {S A} (m : M S A) (h : exn -> option (M S A)) : M S A :=
  fun s =>
    match m s with
    | Raise e s' =>
        match h e with
        | Some handler => handler s'
        | None => Raise e s'
        end
    | other => other
    end.

Definition get {S} : M S S := fun s => Ret s s.
Definition gets {S A} (f : S -> A) : M S A := fun s => Ret (f s) s.
Definition modify {S} (f : S -> S) : M S unit := fun s => Ret tt (f s).

(** A result computed without state. *)
Definition lift {S A} (r : exn + A) : M S A :=
  match r with
  | inl e => raise e
  | inr a => ret a
  end.

Declare Scope proc_scope.
Delimit Scope proc_scope with proc.
Notation "x <- m ;; k" := (bind m (fun x => k))
  (at level 100, m at next level, right associativity) : proc_scope.
Notation "m ;;; k" := (bind m (fun _ => k))
  (at level 100, right associativity) : proc_scope.
Open Scope proc_scope.

(* ================================================================== *)
(** * Functions the library imports *)
(* ================================================================== *)

(** A timeout argument as a keyword receives it: Python [None], a string
    or a number (milliseconds here). *)
Inductive timeout_arg : Type :=
  | TNone
  | TStr (s : string)
  | TNum (ms : Z).

(** Helpers of [robot.utils] and [os.path] that [Process.py] calls.  Their
    code is outside the library, so they are parameters of the
    development. *)
Class Host : Type := {
  (** [console_decode(output, encoding)] *)
  console_decode : bytes -> string -> string;
  (** [console_encode(text, encoding, force=True)] *)
  console_encode : string -> string -> bytes;
  (** [system_encode(text)] *)
  system_encode : string -> string;
  (** [timestr_to_secs(timeout)], in milliseconds; invalid input raises *)
  timestr_to_secs : timeout_arg -> exn + Z;
  (** [os.path.normpath(os.path.join(cwd, name))] *)
  normjoin : string -> string -> string;
  (** [os.path.normpath(cwd) if cwd else os.path.abspath(".")] *)
  resolve_cwd : option string -> string;
  (** [os.devnull] *)
  devnull : string;
  (** [robot.utils.WINDOWS] *)
  WINDOWS : bool;
  (** [hasattr(os, "killpg")] *)
  has_killpg : bool;
  (** [hasattr(signal, "CTRL_BREAK_EVENT")] *)
  has_ctrl_break : bool;
  (** [hasattr(process, "terminate")] *)
  has_terminate : bool
}.

(* ================================================================== *)
(** * Output text normalisation ([ExecutionResult._format_output]) *)
(* ================================================================== *)

(** [output.replace(CR LF, LF)]: one left-to-right pass, matches do not
    overlap and replaced text is not scanned again. *)
Fixpoint replace_crlf (s : string) : string :=
  match s with
  | EmptyString => EmptyString
  | String c rest =>
      match rest with
      | String d rest' =>
          if (Ascii.eqb c CR && Ascii.eqb d LF)%bool
          then String LF (replace_crlf rest')
          else String c (replace_crlf rest)
      | EmptyString => String c EmptyString
      end
  end.

(** [output.endswith(LF)]. *)
Fixpoint endswith_lf (s : string) : bool :=
  match s with
  | EmptyString => false
  | String c EmptyString => Ascii.eqb c LF
  | String _ rest => endswith_lf rest
  end.

(** [output[:-1]]. *)
Fixpoint drop_last (s : string) : string :=
  match s with
  | EmptyString => EmptyString
  | String _ EmptyString => EmptyString
  | String c rest => String c (drop_last rest)
  end.

(** The part of [_format_output] after decoding. *)
Definition format_text (output : string) : string :=
  let output := replace_crlf output in
  if endswith_lf output then drop_last output else output.

Definition _format_output `{Host} (encoding : string) (output : option bytes)
  : option string :=
  match output with
  | None => None
  | Some raw => Some (format_text (console_decode raw encoding))
  end.

(* ================================================================== *)
(** * Command lines ([join_command_line], [split_command_line]) *)
(* ================================================================== *)

(** The character loop of [subprocess.list2cmdline] (Python standard
    library) over one argument.  [bs_buf] counts the backslashes seen and
    not yet written; the function gives the text written and the
    backslashes still pending at the end of the argument. *)
Fixpoint list2cmdline_chars (arg : string) (bs_buf : nat) : string * nat :=
  match arg with
  | EmptyString => (EmptyString, bs_buf)
  | String c rest =>
      if Ascii.eqb c BACKSLASH then
        (* Don't know if we need to double yet. *)
        list2cmdline_chars rest (S bs_buf)
      else if Ascii.eqb c DQUOTE then
        (* Double backslashes. *)
        let (out, bs) := list2cmdline_chars rest O in
        (repeat_char BACKSLASH (bs_buf * 2) ++ String BACKSLASH (String DQUOTE out), bs)
      else
        (* Normal char *)
        let (out, bs) := list2cmdline_chars rest O in
        (repeat_char BACKSLASH bs_buf ++ String c out, bs)
  end.

(** [needquote = (" " in arg) or ("\t" in arg) or not arg]. *)
Definition needquote (arg : string) : bool :=
  contains_char SPACE arg || contains_char TAB arg
  || match arg with EmptyString => true | _ => false end.

(** What [list2cmdline] writes for one argument, the separating space
    apart. *)
Definition list2cmdline_arg (arg : string) : string :=
  let (out, bs) := list2cmdline_chars arg O in
  if needquote arg then
    String DQUOTE (out ++ repeat_char BACKSLASH bs
                       ++ repeat_char BACKSLASH bs ++ String DQUOTE EmptyString)
  else out ++ repeat_char BACKSLASH bs.

(** [subprocess.list2cmdline(seq)]; [result] is the text written so far,
    a space goes before every argument but the first. *)
Fixpoint list2cmdline_from (result : string) (seq : list string) : string :=
  match seq with
  | [] => result
  | arg :: rest =>
      let result := match result with
                    | EmptyString => result
                    | _ => result ++ String SPACE EmptyString
                    end in
      list2cmdline_from (result ++ list2cmdline_arg arg) rest
  end.

Definition list2cmdline (seq : list string) : string :=
  list2cmdline_from EmptyString seq.

(** [Process.join_command_line] with its positional arguments; the arguments are strings here,
    so [str(a)] is the identity and a single list argument is that list. *)
Definition join_command_line (args : list string) : string :=
  list2cmdline args.

(** States of the lexer behind [cmdline2list]. *)
Inductive lex_state : Type :=
  | LexSpace                      (* between tokens *)
  | LexWord                       (* inside a token *)
  | LexQuote (q : ascii)          (* inside quotes opened by [q] *)
  | LexEscape (e : ascii).        (* right after the escape character *)

Definition is_whitespace (c : ascii) : bool :=
  Ascii.eqb c SPACE || Ascii.eqb c TAB || Ascii.eqb c CR || Ascii.eqb c LF.

Definition is_quote (c : ascii) : bool :=
  Ascii.eqb c SQUOTE || Ascii.eqb c DQUOTE.

Definition is_escape (escaping : bool) (c : ascii) : bool :=
  escaping && Ascii.eqb c BACKSLASH.

Definition is_quote_state (st : lex_state) : bool :=
  match st with LexQuote _ => true | _ => false end.

Definition state_char (st : lex_state) : option ascii :=
  match st with
  | LexQuote q => Some q
  | LexEscape e => Some e
  | _ => None
  end.

Definition emits (token : string) (quoted : bool) : bool :=
  quoted || match token with EmptyString => false | _ => true end.

Definition append_char (token : string) (c : ascii) : string :=
  token ++ String c EmptyString.

(** Modelled from the spec: the code of [cmdline2list] ([robot.utils]),
    which [split_command_line] calls, is missing.  The spec asks that split honours quoting, and the keyword's documentation
    says that the string is split at spaces, that an argument surrounded
    in quotes may contain spaces, and that a backslash is an escape
    character only when [escaping] is true.  The model is the POSIX shell
    lexer of Python's [shlex] in whitespace-splitting mode without
    comments: whitespace is space, tab, CR and LF, both quote characters
    open a quoted part, and the escape character is the backslash when
    [escaping] is set and absent otherwise.  [st], [token], [quoted] and
    [escapedstate] are the lexer's variables; a finished token resets the
    last three.  [inl] is the ValueError message. *)
Fixpoint lex_from (escaping : bool) (input : string) (st : lex_state)
    (token : string) (quoted : bool) (escapedstate : lex_state)
  : string + list string :=
  match input with
  | EmptyString =>
      match st with
      | LexQuote _ => inl "No closing quotation"
      | LexEscape _ => inl "No escaped character"
      | _ => inr (if emits token quoted then [token] else [])
      end
  | String c rest =>
      match st with
      | LexSpace =>
          if is_whitespace c then
            if emits token quoted then
              match lex_from escaping rest LexSpace EmptyString false LexSpace with
              | inr tokens => inr (token :: tokens)
              | inl err => inl err
              end
            else lex_from escaping rest LexSpace token quoted escapedstate
          else if is_escape escaping c then
            lex_from escaping rest (LexEscape c) token quoted LexWord
          else if is_quote c then
            lex_from escaping rest (LexQuote c) token quoted escapedstate
          else
            lex_from escaping rest LexWord (String c EmptyString) quoted escapedstate
      | LexQuote q =>
          if Ascii.eqb c q then
            lex_from escaping rest LexWord token true escapedstate
          else if is_escape escaping c then
            lex_from escaping rest (LexEscape c) token true (LexQuote q)
          else
            lex_from escaping rest (LexQuote q) (append_char token c) true escapedstate
      | LexEscape e =>
          let token :=
            if is_quote_state escapedstate
               && negb (Ascii.eqb c e)
               && negb (match state_char escapedstate with
                        | Some q => Ascii.eqb c q
                        | None => false
                        end)
            then append_char token e else token in
          lex_from escaping rest escapedstate (append_char token c) quoted escapedstate
      | LexWord =>
          if is_whitespace c then
            if emits token quoted then
              match lex_from escaping rest LexSpace EmptyString false LexSpace with
              | inr tokens => inr (token :: tokens)
              | inl err => inl err
              end
            else lex_from escaping rest LexSpace token quoted escapedstate
          else if is_quote c then
            lex_from escaping rest (LexQuote c) token quoted escapedstate
          else if is_escape escaping c then
            lex_from escaping rest (LexEscape c) token quoted LexWord
          else
            lex_from escaping rest LexWord (append_char token c) quoted escapedstate
      end
  end.

Definition cmdline2list (args : string) (escaping : bool) : exn + list string :=
  match lex_from escaping args LexSpace EmptyString false LexSpace with
  | inr tokens => inr tokens
  | inl err => inl (ValueError ("Parsing '" ++ args ++ "' failed: " ++ err))
  end.

(** [Process.split_command_line(args, escaping=False)]. *)
Definition split_command_line (args : string) (escaping : bool)
  : exn + list string :=
  cmdline2list args escaping.

(* ================================================================== *)
(** * The world outside the library *)
(* ================================================================== *)

(** A Python [dict] from strings to strings: keys are unique and keep the
    order in which they were first set. *)
Definition pydict : Type := list (string * string).

Fixpoint dict_set (d : pydict) (k v : string) : pydict :=
  match d with
  | [] => [(k, v)]
  | (k', v') :: rest =>
      if String.eqb k k' then (k', v) :: rest else (k', v') :: dict_set rest k v
  end.

Fixpoint dict_get (d : pydict) (k : string) : option string :=
  match d with
  | [] => None
  | (k', v') :: rest => if String.eqb k k' then Some v' else dict_get rest k
  end.

Inductive signal : Type :=
  | SIGTERM
  | SIGKILL
  | CTRL_BREAK_EVENT.

(** What is given to [Popen] for one standard stream, when it is not
    [None]: [subprocess.PIPE], [subprocess.STDOUT] or a file object. *)
Inductive stream : Type :=
  | PIPE
  | STDOUT
  | FileObject (id : nat).

(** [s == subprocess.PIPE] *)
Definition is_PIPE (s : stream) : bool :=
  match s with
  | PIPE => true
  | _ => false
  end.

Inductive command : Type :=
  | CommandList (argv : list string)
  | CommandLine (line : string).

(** An open or closed Python file object; [is_pipe] tells a pipe end of a
    child process from a file on disk. *)
Module FileObj.
Record t : Type := mk { name : string; closed : bool; is_pipe : bool }.
Definition close (f : t) : t := mk (name f) true (is_pipe f).
End FileObj.

(** The state of a [subprocess.Popen] object; the standard streams are
    file objects of the store. *)
Module Popen.
Record t : Type := mk {
  pid : nat;
  stdin : option nat;
  stdout : option nat;
  stderr : option nat;
  returncode : option Z
}.
Definition set_returncode (rc : option Z) (p : t) : t :=
  mk (pid p) (stdin p) (stdout p) (stderr p) rc.
Definition set_stdin (s : option nat) (p : t) : t :=
  mk (pid p) s (stdout p) (stderr p) (returncode p).
End Popen.

(** [popens] is indexed by the model's process identity, [objects] by
    file-object identity; [siglog] lists the signals delivered, latest
    first, with the flag telling a process-group delivery. *)
Record World : Type := mkWorld {
  clock : Z;
  files : gmap string bytes;
  objects : list FileObj.t;
  popens : list Popen.t;
  siglog : list (nat * signal * bool);
  environ : pydict
}.

Definition set_clock (t : Z) (w : World) : World :=
  mkWorld t (files w) (objects w) (popens w) (siglog w) (environ w).
Definition set_files (f : gmap string bytes) (w : World) : World :=
  mkWorld (clock w) f (objects w) (popens w) (siglog w) (environ w).
Definition set_objects (o : list FileObj.t) (w : World) : World :=
  mkWorld (clock w) (files w) o (popens w) (siglog w) (environ w).
Definition set_popens (p : list Popen.t) (w : World) : World :=
  mkWorld (clock w) (files w) (objects w) p (siglog w) (environ w).
Definition set_siglog (l : list (nat * signal * bool)) (w : World) : World :=
  mkWorld (clock w) (files w) (objects w) (popens w) l (environ w).

(** What the operating system answers.  Every answer is a function of the
    current world (time, signals delivered so far, ...), and nothing else
    is assumed about it. *)
Class OS : Type := {
  (** exit status of a child that has ended, [None] while it runs *)
  os_exit_status : World -> nat -> option Z;
  (** delivering this signal raises [OSError] *)
  os_signal_fails : World -> nat -> signal -> bool;
  (** what reading a pipe to its end gives, [None] for an [IOError] *)
  os_pipe_read : World -> nat -> option bytes;
  (** opening this path for writing raises [OSError] *)
  os_open_fails : World -> string -> bool;
  (** spawning this command raises [OSError] *)
  os_spawn_fails : World -> command -> bool;
  (** Robot's own test or keyword timeout fires during this call *)
  os_cancelled : World -> bool
}.

Section Primitives.
Context `{OS}.

(** [time.time()] *)
Definition time : M World Z := gets clock.

(** [time.sleep(d)] *)
Definition sleep (d : Z) : M World unit :=
  if d <? 0 then raise (ValueError "sleep length must be non-negative")
  else modify (fun w => set_clock (clock w + d) w).

Definition get_popen (p : nat) : M World Popen.t :=
  fun w => match popens w !! p with
           | Some po => Ret po w
           | None => Raise KeyError w
           end.

Definition update_popen (p : nat) (f : Popen.t -> Popen.t) : M World unit :=
  modify (fun w => set_popens (alter f p (popens w)) w).

(** [process.poll()]: the return code once known is kept in the object. *)
Definition poll (p : nat) : M World (option Z) :=
  po <- get_popen p ;;
  match Popen.returncode po with
  | Some rc => ret (Some rc)
  | None =>
      w <- get ;;
      match os_exit_status w p with
      | Some rc => update_popen p (Popen.set_returncode (Some rc)) ;;; ret (Some rc)
      | None => ret None
      end
  end.

Definition deliver (p : nat) (sig : signal) (group : bool) : M World unit :=
  w <- get ;;
  if os_signal_fails w p sig then raise OSError
  else modify (fun w => set_siglog ((p, sig, group) :: siglog w) w).

(** [os.killpg(process.pid, sig)] *)
Definition killpg (p : nat) (sig : signal) : M World unit :=
  deliver p sig true.

(** [process.send_signal(sig)], which [process.kill()] and
    [process.terminate()] call: a process known to have ended is not
    signalled. *)
Definition send_signal (p : nat) (sig : signal) : M World unit :=
  rc <- poll p ;;
  match rc with
  | Some _ => ret tt
  | None => deliver p sig false
  end.

Definition is_closed (id : nat) : M World bool :=
  fun w => match objects w !! id with
           | Some f => Ret (FileObj.closed f) w
           | None => Raise KeyError w
           end.

(** [stream.close()] *)
Definition close (id : nat) : M World unit :=
  modify (fun w => set_objects (alter FileObj.close id (objects w)) w).

Definition new_object (f : FileObj.t) : M World nat :=
  fun w => Ret (length (objects w)) (set_objects (objects w ++ [f]) w).

(** [open(path, "w")]: the file is created or emptied. *)
Definition open_w (path : string) : M World nat :=
  w <- get ;;
  if os_open_fails w path then raise OSError
  else
    modify (fun w => set_files (<[path := EmptyString]> (files w)) w) ;;;
    new_object (FileObj.mk path false false).

(** [open(path, "rb")] and [open(path)]: the file must exist. *)
Definition open_r (path : string) : M World nat :=
  w <- get ;;
  match files w !! path with
  | None => raise OSError
  | Some _ => new_object (FileObj.mk path false false)
  end.

(** [stream.read()] *)
Definition read (id : nat) : M World bytes :=
  fun w =>
    match objects w !! id with
    | None => Raise KeyError w
    | Some f =>
        if FileObj.closed f then Raise (ValueError "I/O operation on closed file") w
        else if FileObj.is_pipe f then
          match os_pipe_read w id with
          | Some data => Ret data w
          | None => Raise OSError w
          end
        else Ret (default EmptyString (files w !! FileObj.name f)) w
    end.

(** [TemporaryFile()] filled with [content] and rewound; only the child
    reads it, and the world keeps no content for it. *)
Definition temporary_file (content : bytes) : M World nat :=
  new_object (FileObj.mk EmptyString false false).

Definition close_if_some (s : option nat) : M World unit :=
  match s with
  | Some id => close id
  | None => ret tt
  end.

Definition read_if_some (s : option nat) : M World (option bytes) :=
  match s with
  | Some id =>
      w <- get ;;
      ret (Some (default EmptyString (os_pipe_read w id)))
  | None => ret None
  end.

(** [process.communicate(timeout=0.1)].  Robot's timeout, when it fires
    during the call, surfaces as [TimeoutExceeded].  A child that is still
    running after the 100 ms gives [TimeoutExpired].  Otherwise the pipes
    are read to their end and closed, the return code is set, and the
    output of each piped stream ([None] for the others) is returned. *)
Definition communicate (p : nat) : M World (option bytes * option bytes) :=
  w <- get ;;
  if os_cancelled w then raise TimeoutExceeded
  else
    rc <- poll p ;;
    match rc with
    | None => sleep 100 ;;; raise TimeoutExpired
    | Some _ =>
        po <- get_popen p ;;
        out <- read_if_some (Popen.stdout po) ;;
        err <- read_if_some (Popen.stderr po) ;;
        close_if_some (Popen.stdin po) ;;;
        close_if_some (Popen.stdout po) ;;;
        close_if_some (Popen.stderr po) ;;;
        ret (out, err)
    end.

Definition new_pipe (s : option stream) : M World (option nat) :=
  match s with
  | Some PIPE => id <- new_object (FileObj.mk EmptyString false true) ;; ret (Some id)
  | _ => ret None
  end.

(** [subprocess.Popen(command, stdin=..., stdout=..., stderr=..., ...)]:
    a stream given as [PIPE] becomes a new pipe object of the process,
    every other stream leaves the attribute [None]. *)
Definition spawn (cmd : command) (stdin stdout stderr : option stream)
  : M World nat :=
  w <- get ;;
  if os_spawn_fails w cmd then raise OSError
  else
    i <- new_pipe stdin ;;
    o <- new_pipe stdout ;;
    e <- new_pipe stderr ;;
    fun w =>
      let p := length (popens w) in
      Ret p (set_popens (popens w ++ [Popen.mk p i o e None]) w).
End Primitives.

(** Running code on the second component of a pair of states. *)
Definition on_snd {S1 S2 A} (m : M S2 A) : M (S1 * S2) A :=
  fun s =>
    match m (snd s) with
    | Ret a w => Ret a (fst s, w)
    | Raise e w => Raise e (fst s, w)
    | Diverge => Diverge
    end.

(** [try: m  finally: fin]. *)
Definition try_finally {S A} (m : M S A) (fin : M S unit) : M S A :=
  fun s =>
    match m s with
    | Ret a s' => (fin ;;; ret a) s'
    | Raise e s' => (fin ;;; raise e) s'
    | Diverge => Diverge
    end.

(** The handler of [except IOError] ([IOError] is [OSError]). *)
Definition except_IOError {S A} (h : M S A) (e : exn) : option (M S A) :=
  match e with
  | OSError => Some h
  | _ => None
  end.

(* ================================================================== *)
(** * [class ExecutionResult] *)
(* ================================================================== *)

Module ExecutionResult.
Record t : Type := mk {
  _process : nat;
  stdout_path : option string;
  stderr_path : option string;
  rc : option Z;
  _output_encoding : string;
  _stdout : option string;
  _stderr : option string;
  _custom_streams : list nat
}.

Definition set_rc (v : option Z) (r : t) : t :=
  mk (_process r) (stdout_path r) (stderr_path r) v (_output_encoding r)
     (_stdout r) (_stderr r) (_custom_streams r).
Definition set__stdout (v : option string) (r : t) : t :=
  mk (_process r) (stdout_path r) (stderr_path r) (rc r) (_output_encoding r)
     v (_stderr r) (_custom_streams r).
Definition set__stderr (v : option string) (r : t) : t :=
  mk (_process r) (stdout_path r) (stderr_path r) (rc r) (_output_encoding r)
     (_stdout r) v (_custom_streams r).

(** The state a method of a result object runs on: the object and the
    world. *)
Definition self_world : Type := (t * World)%type.

Definition self : M self_world t := gets fst.
Definition update (f : t -> t) : M self_world unit :=
  modify (fun s => (f (fst s), snd s)).

Section Methods.
Context `{Host} `{OS}.

Definition _is_custom_stream (s : option stream) : bool :=
  match s with
  | Some (FileObject _) => true
  | _ => false
  end.

(** [stream.name] of a file object. *)
Definition stream_name (s : option stream) : M World (option string) :=
  match s with
  | Some (FileObject id) =>
      fun w => match objects w !! id with
               | Some f => Ret (Some (FileObj.name f)) w
               | None => Raise KeyError w
               end
  | _ => ret None
  end.

Definition _get_path (s : option stream) : M World (option string) :=
  if _is_custom_stream s then stream_name s else ret None.

(** The streams among the given ones for which [_is_custom_stream]
    holds. *)
Definition custom_streams (streams : list (option stream)) : list nat :=
  flat_map (fun s => if _is_custom_stream s
                     then match s with
                          | Some (FileObject id) => [id]
                          | _ => []
                          end
                     else []) streams.

(** [ExecutionResult(process, stdout, stderr, stdin, rc=None,
    output_encoding)] *)
Definition __init__ (process : nat) (stdout stderr stdin : option stream)
    (output_encoding : string) : M World t :=
  stdout_path <- _get_path stdout ;;
  stderr_path <- _get_path stderr ;;
  ret (mk process stdout_path stderr_path None output_encoding None None
          (custom_streams [stdout; stderr; stdin])).

Definition _is_open (s : option nat) : M World bool :=
  match s with
  | Some id => c <- is_closed id ;; ret (negb c)
  | None => ret false
  end.

Definition read_content (s : nat) : M World bytes :=
  try_except (read s) (except_IOError (ret EmptyString)).

Definition _read_stream (encoding : string) (stream_path : option string)
    (s : option nat) : M World (option string) :=
  if truthy stream_path then
    f <- open_r (default EmptyString stream_path) ;;
    content <- try_finally (read_content f) (close f) ;;
    ret (_format_output encoding (Some content))
  else
    opened <- _is_open s ;;
    match s with
    | Some p =>
        if negb opened then ret (Some EmptyString)
        else
          content <- read_content p ;;
          ret (_format_output encoding (Some content))
    | None => ret (Some EmptyString)
    end.

Definition _read_stdout : M self_world unit :=
  r <- self ;;
  po <- on_snd (get_popen (_process r)) ;;
  v <- on_snd (_read_stream (_output_encoding r) (stdout_path r) (Popen.stdout po)) ;;
  update (set__stdout v).

Definition _read_stderr : M self_world unit :=
  r <- self ;;
  po <- on_snd (get_popen (_process r)) ;;
  v <- on_snd (_read_stream (_output_encoding r) (stderr_path r) (Popen.stderr po)) ;;
  update (set__stderr v).

(** The [stdout] property. *)
Definition stdout : M self_world (option string) :=
  r <- self ;;
  match _stdout r with
  | None => _read_stdout ;;; gets (fun s => _stdout (fst s))
  | Some v => ret (Some v)
  end.

(** [result.stdout = value] *)
Definition set_stdout (value : option bytes) : M self_world unit :=
  r <- self ;;
  update (set__stdout (_format_output (_output_encoding r) value)).

(** The [stderr] property. *)
Definition stderr : M self_world (option string) :=
  r <- self ;;
  match _stderr r with
  | None => _read_stderr ;;; gets (fun s => _stderr (fst s))
  | Some v => ret (Some v)
  end.

(** [result.stderr = value] *)
Definition set_stderr (value : option bytes) : M self_world unit :=
  r <- self ;;
  update (set__stderr (_format_output (_output_encoding r) value)).

Definition _get_and_read_standard_streams (process : nat)
  : M self_world (list (option nat)) :=
  po <- on_snd (get_popen process) ;;
  out_open <- on_snd (_is_open (Popen.stdout po)) ;;
  (if out_open then _read_stdout else ret tt) ;;;
  err_open <- on_snd (_is_open (Popen.stderr po)) ;;
  (if err_open then _read_stderr else ret tt) ;;;
  ret [Popen.stdin po; Popen.stdout po; Popen.stderr po].

(** The loop of [close_streams]. *)
Fixpoint close_open (streams : list (option nat)) : M World unit :=
  match streams with
  | [] => ret tt
  | s :: rest =>
      opened <- _is_open s ;;
      (if opened then close_if_some s else ret tt) ;;;
      close_open rest
  end.

Definition close_streams : M self_world unit :=
  r <- self ;;
  standard_streams <- _get_and_read_standard_streams (_process r) ;;
  on_snd (close_open (standard_streams ++ map Some (_custom_streams r))).
End Methods.
End ExecutionResult.

(* ================================================================== *)
(** * [class ProcessConfiguration] *)
(* ================================================================== *)

(** The [stdin] argument: a [pathlib.Path], a string, or any other value,
    which is then what [Popen] gets for the stream ([None] included). *)
Inductive stdin_arg : Type :=
  | StdinPath (p : string)
  | StdinStr (s : string)
  | StdinOther (v : option stream).

(** Modelled from the spec: the code of [NormalizedDict] ([robot.utils])
    is missing.  The spec says that on case-insensitive
    platforms keys are normalised; setting a key that differs from an
    existing one by case only replaces the value of the existing key. *)
Fixpoint normalized_set (d : pydict) (k v : string) : pydict :=
  match d with
  | [] => [(k, v)]
  | (k', v') :: rest =>
      if String.eqb (lower k) (lower k') then (k', v) :: rest
      else (k', v') :: normalized_set rest k v
  end.

Definition NormalizedDict (d : pydict) : pydict :=
  fold_left (fun acc kv => normalized_set acc (fst kv) (snd kv)) d [].

Module ProcessConfiguration.
Record t : Type := mk {
  cwd : string;
  shell : bool;
  alias : option string;
  output_encoding : string;
  stdout_stream : stream;
  stderr_stream : stream;
  stdin_stream : option stream;
  env : option pydict
}.

(** The keyword arguments of [ProcessConfiguration(...)]; [env_extra]
    holds the remaining [name=value] arguments in the order given. *)
Record kwargs : Type := mk_kwargs {
  kw_cwd : option string;
  kw_shell : bool;
  kw_stdout : option string;
  kw_stderr : option string;
  kw_stdin : stdin_arg;
  kw_output_encoding : string;
  kw_alias : option string;
  kw_env : option pydict;
  kw_env_extra : pydict
}.

Section Methods.
Context `{Host} `{OS}.

Definition _new_stream (cwd : string) (name : option string) : M World stream :=
  if decide (name = Some "DEVNULL") then
    f <- open_w devnull ;; ret (FileObject f)
  else if truthy name then
    f <- open_w (normjoin cwd (default EmptyString name)) ;; ret (FileObject f)
  else ret PIPE.

(** [stderr in ["STDOUT", stdout]] *)
Definition stderr_in (stderr stdout : option string) : bool :=
  bool_decide (stderr = Some "STDOUT") || bool_decide (stderr = stdout).

Definition _get_stderr (cwd : string) (stderr stdout : option string)
    (stdout_stream : stream) : M World stream :=
  if truthy stderr && stderr_in stderr stdout then
    if negb (is_PIPE stdout_stream) then ret stdout_stream
    else ret STDOUT
  else _new_stream cwd stderr.

Definition stdin_from_text (cwd encoding : string) (stdin : string)
  : M World (option stream) :=
  let path := normjoin cwd stdin in
  w <- get ;;
  if bool_decide (is_Some (files w !! path)) then
    f <- open_r path ;; ret (Some (FileObject f))
  else
    f <- temporary_file (console_encode stdin encoding) ;;
    ret (Some (FileObject f)).

Definition _get_stdin (cwd encoding : string) (stdin : stdin_arg)
  : M World (option stream) :=
  match stdin with
  | StdinPath p => stdin_from_text cwd encoding p
  | StdinOther v => ret v
  | StdinStr s =>
      if String.eqb (upper s) "NONE" then ret None
      else if String.eqb s "PIPE" then ret (Some PIPE)
      else stdin_from_text cwd encoding s
  end.

Definition _get_initial_env (env : option pydict) (extra : pydict)
  : M World (option pydict) :=
  match env with
  | Some ((_ :: _) as e) =>
      ret (Some (fold_left
                   (fun acc kv => dict_set acc (system_encode (fst kv))
                                           (system_encode (snd kv)))
                   e []))
  | _ =>
      match extra with
      | _ :: _ => w <- get ;; ret (Some (environ w))
      | [] => ret None
      end
  end.

(** [env[key] = value] on a plain dictionary or, on Windows, on the
    normalised one. *)
Definition env_set (env : pydict) (k v : string) : pydict :=
  if WINDOWS then normalized_set env k v else dict_set env k v.

Fixpoint _add_to_env (env : pydict) (extra : pydict) : exn + pydict :=
  match extra with
  | [] => inr env
  | (name, value) :: rest =>
      if negb (startswith "env:" name) then
        inl (RuntimeError ("Keyword argument '" ++ name
                             ++ "' is not supported by this keyword."))
      else
        _add_to_env (env_set env (system_encode (drop_chars 4 name))
                             (system_encode value)) rest
  end.

Definition upper_keys (env : pydict) : pydict :=
  fold_left (fun acc kv => dict_set acc (upper (fst kv)) (snd kv)) env [].

Definition _construct_env (env : option pydict) (extra : pydict)
  : M World (option pydict) :=
  initial <- _get_initial_env env extra ;;
  match initial with
  | None => ret None
  | Some e =>
      let e := if WINDOWS then NormalizedDict e else e in
      e <- lift (_add_to_env e extra) ;;
      let e := if WINDOWS then upper_keys e else e in
      ret (Some e)
  end.

Definition __init__ (kw : kwargs) : M World t :=
  let cwd := resolve_cwd (kw_cwd kw) in
  stdout_stream <- _new_stream cwd (kw_stdout kw) ;;
  stderr_stream <- _get_stderr cwd (kw_stderr kw) (kw_stdout kw) stdout_stream ;;
  stdin_stream <- _get_stdin cwd (kw_output_encoding kw) (kw_stdin kw) ;;
  env <- _construct_env (kw_env kw) (kw_env_extra kw) ;;
  ret (mk cwd (kw_shell kw) (kw_alias kw) (kw_output_encoding kw)
          stdout_stream stderr_stream stdin_stream env).

Definition get_command (conf : t) (cmd : string) (arguments : list string)
  : command :=
  let encoded := map system_encode (cmd :: arguments) in
  if negb (shell conf) then CommandList encoded
  else
    match arguments with
    | _ :: _ => CommandLine (list2cmdline encoded)
    | [] => CommandLine (system_encode cmd)
    end.
End Methods.
End ProcessConfiguration.

(* ================================================================== *)
(** * The registry of started processes *)
(* ================================================================== *)

(** How a keyword names a process: nothing (the active process), a
    1-based index, an alias, or the process object itself. *)
Inductive handle : Type :=
  | HandleNone
  | HandleIndex (i : nat)
  | HandleAlias (a : string)
  | HandleObject (p : nat).

(** Modelled from the spec: the code of [ConnectionCache] ([robot.utils]),
    the class of [Process._processes], is missing.  The spec describes the registry as an ordered collection keyed by 1-based
    insertion index and, optionally, by alias, with one active pointer;
    aliases are unique at registration time and registering a duplicate
    alias is an error (a configuration error; the library raises these as
    [RuntimeError]); a lookup without handle gives the active process, a
    lookup by out-of-range index or unknown alias fails.  A failed
    registration leaves the registry as it was. *)
Module ConnectionCache.
Record t : Type := mk {
  connections : list nat;
  aliases : gmap string nat;
  current : option nat
}.

Definition empty : t := mk [] ∅ None.

Definition register (cache : t) (connection : nat) (alias : option string)
  : exn + t :=
  let index := S (length (connections cache)) in
  match alias with
  | None => inr (mk (connections cache ++ [connection]) (aliases cache)
                    (Some connection))
  | Some a =>
      match aliases cache !! a with
      | Some _ => inl (RuntimeError ("Alias '" ++ a ++ "' is already in use."))
      | None => inr (mk (connections cache ++ [connection])
                        (<[a := index]> (aliases cache)) (Some connection))
      end
  end.

Definition by_index (cache : t) (i : nat) : exn + nat :=
  match i with
  | O => inl (RuntimeError "Non-existing index or alias.")
  | S n =>
      match connections cache !! n with
      | Some c => inr c
      | None => inl (RuntimeError "Non-existing index or alias.")
      end
  end.

(** [cache[handle]] *)
Definition get_connection (cache : t) (h : handle) : exn + nat :=
  match h with
  | HandleNone =>
      match current cache with
      | Some c => inr c
      | None => inl (RuntimeError "No active process.")
      end
  | HandleIndex i => by_index cache i
  | HandleAlias a =>
      match aliases cache !! a with
      | Some i => by_index cache i
      | None => inl (RuntimeError "Non-existing index or alias.")
      end
  | HandleObject p =>
      if bool_decide (p ∈ connections cache) then inr p
      else inl (RuntimeError "Non-existing index or alias.")
  end.
End ConnectionCache.

(* ================================================================== *)
(** * [class Process] *)
(* ================================================================== *)

(** A value of a result attribute. *)
Inductive value : Type :=
  | VNone
  | VInt (z : Z)
  | VStr (s : string).

Definition value_of_int (v : option Z) : value :=
  match v with Some z => VInt z | None => VNone end.
Definition value_of_str (v : option string) : value :=
  match v with Some s => VStr s | None => VNone end.

(** What [get_process_result] returns: the result object, one attribute,
    or a tuple of attributes. *)
Inductive process_result : Type :=
  | WholeResult (r : ExecutionResult.t)
  | Attribute (v : value)
  | Attributes (vs : list value).

Module Process.
(** The library instance ([self._processes], [self._results]) together
    with the world it acts on.  Result objects are kept under the
    identity of their process. *)
Record t : Type := mk {
  _processes : ConnectionCache.t;
  _results : gmap nat ExecutionResult.t;
  world : World
}.

Definition TERMINATE_TIMEOUT : Z := 30000.
Definition KILL_TIMEOUT : Z := 10000.

(** [Process()] *)
Definition __init__ (w : World) : t := mk ConnectionCache.empty ∅ w.

Definition in_world {A} (m : M World A) : M t A :=
  fun s =>
    match m (world s) with
    | Ret a w => Ret a (mk (_processes s) (_results s) w)
    | Raise e w => Raise e (mk (_processes s) (_results s) w)
    | Diverge => Diverge
    end.

(** [self._processes[handle]] *)
Definition get_process (h : handle) : M t nat :=
  s <- get ;; lift (ConnectionCache.get_connection (_processes s) h).

(** [self._results[process]] *)
Definition get_result (process : nat) : M t ExecutionResult.t :=
  fun s => match _results s !! process with
           | Some r => Ret r s
           | None => Raise KeyError s
           end.

(** A method call on the result object of [process]. *)
Definition on_result {A} (process : nat) (m : M ExecutionResult.self_world A)
  : M t A :=
  fun s =>
    match _results s !! process with
    | None => Raise KeyError s
    | Some r =>
        match m (r, world s) with
        | Ret a rw =>
            Ret a (mk (_processes s) (<[process := fst rw]> (_results s)) (snd rw))
        | Raise e rw =>
            Raise e (mk (_processes s) (<[process := fst rw]> (_results s)) (snd rw))
        | Diverge => Diverge
        end
    end.

Section Methods.
Context `{Host} `{OS}.

(** [stopped = lambda: process.poll() is not None] *)
Definition stopped (process : nat) : M World bool :=
  rc <- poll process ;;
  ret (match rc with Some _ => true | None => false end).

(** The [while] loop of [_process_is_stopped]. *)
Fixpoint stopped_loop (fuel : nat) (process : nat) (timeout max_time : Z)
  : M World unit :=
  match fuel with
  | O => diverge
  | S fuel' =>
      now <- time ;;
      if now <=? max_time then
        s <- stopped process ;;
        if negb s then
          sleep (Z.min 100 timeout) ;;;
          stopped_loop fuel' process timeout max_time
        else ret tt
      else ret tt
  end.

Definition _process_is_stopped (fuel : nat) (process : nat) (timeout : Z)
  : M World bool :=
  now <- time ;;
  let max_time := now + timeout in
  stopped_loop fuel process timeout max_time ;;;
  stopped process.

Definition _kill (fuel : nat) (process : nat) : M World unit :=
  (if has_killpg then killpg process SIGKILL
   else send_signal process SIGKILL) ;;;
  s <- _process_is_stopped fuel process KILL_TIMEOUT ;;
  if negb s then raise (RuntimeError "Failed to kill process.")
  else ret tt.

Definition _terminate (fuel : nat) (process : nat) : M World unit :=
  (if has_killpg then killpg process SIGTERM
   else if has_ctrl_break then send_signal process CTRL_BREAK_EVENT
   else send_signal process SIGTERM) ;;;
  s <- _process_is_stopped fuel process TERMINATE_TIMEOUT ;;
  if negb s then _kill fuel process
  else ret tt.

(** [if process.stdin and process.stdin.closed: process.stdin = None] *)
Definition forget_closed_stdin (process : nat) : M World unit :=
  po <- get_popen process ;;
  match Popen.stdin po with
  | Some i =>
      c <- is_closed i ;;
      if c then update_popen process (Popen.set_stdin None) else ret tt
  | None => ret tt
  end.

(** The [while True] loop of [_wait]; [fuel] bounds its rounds and
    [kfuel] the polling of [_kill]. *)
Fixpoint wait_loop (kfuel fuel : nat) (process : nat) : M t unit :=
  match fuel with
  | O => diverge
  | S fuel' =>
      try_except
        (outs <- in_world (communicate process) ;;
         on_result process
           (ExecutionResult.set_stdout (fst outs) ;;;
            ExecutionResult.set_stderr (snd outs)))
        (fun e =>
           match e with
           | TimeoutExpired => Some (wait_loop kfuel fuel' process)
           | TimeoutExceeded =>
               Some (in_world (_kill kfuel process) ;;; raise TimeoutExceeded)
           | _ => None
           end)
  end.

Definition _wait (fuel : nat) (process : nat) : M t ExecutionResult.t :=
  get_result process ;;;
  in_world (forget_closed_stdin process) ;;;
  wait_loop fuel fuel process ;;;
  po <- in_world (get_popen process) ;;
  on_result process (ExecutionResult.update
                       (ExecutionResult.set_rc (Popen.returncode po))) ;;;
  on_result process ExecutionResult.close_streams ;;;
  get_result process.

Definition terminate_process (fuel : nat) (h : handle) (kill : bool)
  : M t ExecutionResult.t :=
  process <- get_process h ;;
  if negb has_terminate then
    raise (RuntimeError
             "Terminating processes is not supported by this Python version.")
  else
    let terminator := if kill then _kill else _terminate in
    try_except
      (in_world (terminator fuel process))
      (except_IOError
         (s <- in_world (_process_is_stopped fuel process KILL_TIMEOUT) ;;
          if negb s then raise OSError else ret tt)) ;;;
    _wait fuel process.

Definition _get_timeout (timeout : timeout_arg) : exn + Z :=
  let is_none := match timeout with
                 | TStr s => String.eqb (upper s) "NONE"
                 | _ => false
                 end in
  let falsy := match timeout with
               | TNone => true
               | TStr s => negb (truthy (Some s))
               | TNum n => n =? 0
               end in
  if is_none || falsy then inr (-1000) else timestr_to_secs timeout.

Definition _manage_process_timeout (fuel : nat) (h : handle)
    (on_timeout : string) : M t (option ExecutionResult.t) :=
  if String.eqb on_timeout "terminate" then
    r <- terminate_process fuel h false ;; ret (Some r)
  else if String.eqb on_timeout "kill" then
    r <- terminate_process fuel h true ;; ret (Some r)
  else ret None.

Definition wait_for_process (fuel : nat) (h : handle) (timeout : timeout_arg)
    (on_timeout : string) : M t (option ExecutionResult.t) :=
  process <- get_process h ;;
  timeout <- lift (_get_timeout timeout) ;;
  if 0 <? timeout then
    s <- in_world (_process_is_stopped fuel process timeout) ;;
    if negb s then _manage_process_timeout fuel h (lower on_timeout)
    else r <- _wait fuel process ;; ret (Some r)
  else r <- _wait fuel process ;; ret (Some r).

Definition start_process (cmd : string) (arguments : list string)
    (kw : ProcessConfiguration.kwargs) : M t nat :=
  conf <- in_world (ProcessConfiguration.__init__ kw) ;;
  let command := ProcessConfiguration.get_command conf cmd arguments in
  process <- in_world (spawn command
                         (ProcessConfiguration.stdin_stream conf)
                         (Some (ProcessConfiguration.stdout_stream conf))
                         (Some (ProcessConfiguration.stderr_stream conf))) ;;
  result <- in_world (ExecutionResult.__init__ process
                        (Some (ProcessConfiguration.stdout_stream conf))
                        (Some (ProcessConfiguration.stderr_stream conf))
                        (ProcessConfiguration.stdin_stream conf)
                        (ProcessConfiguration.output_encoding conf)) ;;
  modify (fun s => mk (_processes s) (<[process := result]> (_results s))
                      (world s)) ;;;
  s <- get ;;
  cache <- lift (ConnectionCache.register (_processes s) process
                   (ProcessConfiguration.alias conf)) ;;
  modify (fun s => mk cache (_results s) (world s)) ;;;
  match ConnectionCache.current cache with
  | Some current => ret current
  | None => raise (RuntimeError "No active process.")
  end.

Definition _get_result_attributes (includes : list bool)
  : M ExecutionResult.self_world (list value) :=
  r <- ExecutionResult.self ;;
  out <- ExecutionResult.stdout ;;
  err <- ExecutionResult.stderr ;;
  let attributes :=
    [ value_of_int (ExecutionResult.rc r);
      value_of_str out;
      value_of_str err;
      value_of_str (ExecutionResult.stdout_path r);
      value_of_str (ExecutionResult.stderr_path r) ] in
  ret (map fst (List.filter snd (zip attributes includes))).

Definition get_process_result (h : handle)
    (rc stdout stderr stdout_path stderr_path : bool) : M t process_result :=
  process <- get_process h ;;
  result <- get_result process ;;
  match ExecutionResult.rc result with
  | None =>
      raise (RuntimeError
               "Getting results of unfinished processes is not supported.")
  | Some _ =>
      attributes <- on_result process
                      (_get_result_attributes
                         [rc; stdout; stderr; stdout_path; stderr_path]) ;;
      match attributes with
      | [] => result <- get_result process ;; ret (WholeResult result)
      | [a] => ret (Attribute a)
      | _ => ret (Attributes attributes)
      end
  end.
End Methods.
End Process.

(* ================================================================== *)
(** * Concrete hosts and operating systems, for evaluation *)
(* ================================================================== *)

(** Seconds written as decimal digits, in milliseconds. *)
Fixpoint digits_value (s : string) (acc : Z) : option Z :=
  match s with
  | EmptyString => Some acc
  | String c rest =>
      let n := nat_of_ascii c in
      if ((48 <=? n)%nat && (n <=? 57)%nat)%bool
      then digits_value rest (10 * acc + Z.of_nat (n - 48))
      else None
  end.

Definition plain_timestr_to_secs (t : timeout_arg) : exn + Z :=
  match t with
  | TNum ms => inr ms
  | TStr s =>
      match digits_value s 0 with
      | Some secs => inr (1000 * secs)
      | None => inl (ValueError ("Invalid time string '" ++ s ++ "'."))
      end
  | TNone => inl (ValueError "Invalid time string 'None'.")
  end.

(** A POSIX host whose codecs are the identity. *)
Definition posix_host : Host := {|
  console_decode := fun raw _ => raw;
  console_encode := fun text _ => text;
  system_encode := fun text => text;
  timestr_to_secs := plain_timestr_to_secs;
  normjoin := fun cwd name => cwd ++ "/" ++ name;
  resolve_cwd := fun cwd => default "/work" cwd;
  devnull := "/dev/null";
  WINDOWS := false;
  has_killpg := true;
  has_ctrl_break := false;
  has_terminate := true
|}.

Definition signalled (w : World) (p : nat) (sig : signal) : bool :=
  existsb (fun entry =>
             match entry with
             | (q, s, _) =>
                 Nat.eqb p q && match s, sig with
                                | SIGTERM, SIGTERM
                                | SIGKILL, SIGKILL
                                | CTRL_BREAK_EVENT, CTRL_BREAK_EVENT => true
                                | _, _ => false
                                end
             end) (siglog w).

(** An operating system whose children all behave alike: they end by
    themselves at time [exit_at] (never for [None]), end at once on SIGKILL
    when [dies_on_kill] and on SIGTERM when [dies_on_term], and write
    [output] to each pipe.  Robot's timeout fires from time [cancel_at]
    on. *)
Definition scripted_os (exit_at : option Z) (dies_on_kill dies_on_term : bool)
    (cancel_at : option Z) (output : bytes) : OS := {|
  os_exit_status := fun w p =>
    if dies_on_kill && signalled w p SIGKILL then Some (-9)
    else if dies_on_term && signalled w p SIGTERM then Some (-15)
    else match exit_at with
         | Some t => if t <=? clock w then Some 0 else None
         | None => None
         end;
  os_signal_fails := fun _ _ _ => false;
  os_pipe_read := fun _ _ => Some output;
  os_open_fails := fun _ _ => false;
  os_spawn_fails := fun _ _ => false;
  os_cancelled := fun w =>
    match cancel_at with
    | Some t => t <=? clock w
    | None => false
    end
|}.

Definition empty_world : World :=
  mkWorld 0 ∅ [] [] [] [("PATH", "/bin")].

Definition default_kwargs : ProcessConfiguration.kwargs :=
  ProcessConfiguration.mk_kwargs None false None None (StdinOther None)
    "CONSOLE" None None [].

Definition with_alias (a : string) (kw : ProcessConfiguration.kwargs)
  : ProcessConfiguration.kwargs :=
  ProcessConfiguration.mk_kwargs
    (ProcessConfiguration.kw_cwd kw) (ProcessConfiguration.kw_shell kw)
    (ProcessConfiguration.kw_stdout kw) (ProcessConfiguration.kw_stderr kw)
    (ProcessConfiguration.kw_stdin kw)
    (ProcessConfiguration.kw_output_encoding kw)
    (Some a)
    (ProcessConfiguration.kw_env kw) (ProcessConfiguration.kw_env_extra kw).

Definition with_streams (out err : option string)
    (kw : ProcessConfiguration.kwargs) : ProcessConfiguration.kwargs :=
  ProcessConfiguration.mk_kwargs
    (ProcessConfiguration.kw_cwd kw) (ProcessConfiguration.kw_shell kw)
    out err
    (ProcessConfiguration.kw_stdin kw)
    (ProcessConfiguration.kw_output_encoding kw)
    (ProcessConfiguration.kw_alias kw)
    (ProcessConfiguration.kw_env kw) (ProcessConfiguration.kw_env_extra kw).

(** The state a method leaves, whatever its outcome; [None] without
    answer. *)
Definition final_state {S A} (o : outcome S A) : option S :=
  match o with
  | Ret _ s => Some s
  | Raise _ s => Some s
  | Diverge => None
  end.

(** The library after one [Start Process] with the given options on the
    empty world. *)
Definition started `{Host} `{OS} (kw : ProcessConfiguration.kwargs) : Process.t :=
  default (Process.__init__ empty_world)
          (final_state (Process.start_process "prog" [] kw
                          (Process.__init__ empty_world))).

(* ================================================================== *)
(** * Notions used in the statements *)
(* ================================================================== *)

Definition CRLF : string := String CR (String LF EmptyString).
Definition NEWLINE : string := String LF EmptyString.

(** No CR is directly followed by LF. *)
Fixpoint crlf_free (s : string) : bool :=
  match s with
  | EmptyString => true
  | String c rest =>
      match rest with
      | String d _ => negb (Ascii.eqb c CR && Ascii.eqb d LF) && crlf_free rest
      | EmptyString => true
      end
  end.

(** The pieces of a text between its CR LF sequences, found from left to
    right. *)
Fixpoint split_crlf (s : string) : list string :=
  match s with
  | EmptyString => [EmptyString]
  | String c rest =>
      match rest with
      | String d rest' =>
          if (Ascii.eqb c CR && Ascii.eqb d LF)%bool
          then EmptyString :: split_crlf rest'
          else match split_crlf rest with
               | p :: ps => String c p :: ps
               | [] => [String c EmptyString]
               end
      | EmptyString => [String c EmptyString]
      end
  end.

(** [t] is [s] without one trailing newline, or [s] itself when [s] has
    none. *)
Definition strips_one_newline (s t : string) : Prop :=
  s = t ++ NEWLINE \/ (t = s /\ forall u, s <> u ++ NEWLINE).

(** [P] holds of every character of [s]. *)
Fixpoint all_chars (P : ascii -> bool) (s : string) : bool :=
  match s with
  | EmptyString => true
  | String c rest => P c && all_chars P rest
  end.

Fixpoint endswith_backslash (s : string) : bool :=
  match s with
  | EmptyString => false
  | String c EmptyString => Ascii.eqb c BACKSLASH
  | String _ rest => endswith_backslash rest
  end.

(** Characters that the two command line functions treat differently:
    the quote characters and the line ends. *)
Definition roundtrip_special (c : ascii) : bool :=
  is_quote c || Ascii.eqb c CR || Ascii.eqb c LF.

(** An argument without quote characters and line ends which, if it has to
    be quoted (it is empty or contains a space or a tab), does not end in
    a backslash. *)
Definition roundtrip_safe (arg : string) : bool :=
  all_chars (fun c => negb (roundtrip_special c)) arg
  && negb (needquote arg && endswith_backslash arg).

(** The pieces, each one after a space. *)
Fixpoint spaced (pieces : list string) : string :=
  match pieces with
  | [] => EmptyString
  | p :: rest => String SPACE (p ++ spaced rest)
  end.

(** The value that a sequence of assignments [d[k] = v] leaves for a key:
    that of the last assignment to it. *)
Fixpoint lookup_last (assignments : list (string * string)) (k : string)
  : option string :=
  match assignments with
  | [] => None
  | (k', v) :: rest =>
      match lookup_last rest k with
      | Some later => Some later
      | None => if String.eqb k k' then Some v else None
      end
  end.

(** The assignments that the [env:<name>=<value>] arguments stand for. *)
Definition overrides `{Host} (extra : pydict) : list (string * string) :=
  map (fun kv => (system_encode (drop_chars 4 (fst kv)), system_encode (snd kv)))
      extra.

(** The entries of an explicit environment, encoded. *)
Definition encoded `{Host} (env : pydict) : list (string * string) :=
  map (fun kv => (system_encode (fst kv), system_encode (snd kv))) env.

(** The environment of a child started with [Popen(env=conf_env)]: the
    parent's when [conf_env] is [None]. *)
Definition process_environment (conf_env : option pydict) (w : World) : pydict :=
  default (environ w) conf_env.

(** The stream is absent or a closed file object of the world. *)
Definition object_closed (w : World) (s : option nat) : bool :=
  match s with
  | None => true
  | Some id =>
      match objects w !! id with
      | Some f => FileObj.closed f
      | None => false
      end
  end.

(** The streams [close_streams] goes through: the standard streams of the
    process and the custom streams of the result. *)
Definition owned_streams (r : ExecutionResult.t) (po : Popen.t)
  : list (option nat) :=
  [Popen.stdin po; Popen.stdout po; Popen.stderr po]
    ++ map Some (ExecutionResult._custom_streams r).

(** A result as [_wait] leaves it: the return code is set and every
    stream the result goes through is closed. *)
Definition finalized (r : ExecutionResult.t) (w : World) : bool :=
  match ExecutionResult.rc r, popens w !! ExecutionResult._process r with
  | Some _, Some po => forallb (object_closed w) (owned_streams r po)
  | _, _ => false
  end.

(** The redirect file of the path, if there is a path, exists. *)
Definition path_readable (w : World) (path : option string) : bool :=
  negb (truthy path)
  || bool_decide (is_Some (files w !! default EmptyString path)).

(** [w'] is [w] with more file objects. *)
Definition grows (w w' : World) : Prop :=
  exists more, w' = set_objects (objects w ++ more) w.

(** How [get_process_result] packs the selected attributes. *)
Definition pack_attributes (r : ExecutionResult.t) (selected : list value)
  : process_result :=
  match selected with
  | [] => WholeResult r
  | [a] => Attribute a
  | _ => Attributes selected
  end.

(** The attributes in their fixed order, each kept when its flag is set. *)
Definition select_attributes (code : Z) (out err : string)
    (stdout_path stderr_path : option string)
    (rc stdout stderr with_stdout_path with_stderr_path : bool) : list value :=
  (if rc then [VInt code] else [])
    ++ (if stdout then [VStr out] else [])
    ++ (if stderr then [VStr err] else [])
    ++ (if with_stdout_path then [value_of_str stdout_path] else [])
    ++ (if with_stderr_path then [value_of_str stderr_path] else []).

(** A child that ends by itself after 250 ms and has written two lines
    to each pipe. *)
Definition example_os : OS :=
  scripted_os (Some 250) true true None ("line1" ++ CRLF ++ "line2" ++ CRLF).

(** [Start Process  prog  stdout=out.txt  stderr=STDOUT] followed by
    [Wait For Process]. *)
Definition example_redirected : outcome Process.t (option ExecutionResult.t) :=
  @Process.wait_for_process posix_host example_os 10 HandleNone TNone "continue"
    (@started posix_host example_os
       (with_streams (Some "out.txt") (Some "STDOUT") default_kwargs)).

(** [Start Process  prog  alias=first] followed by [Wait For Process]. *)
Definition example_piped : outcome Process.t (option ExecutionResult.t) :=
  @Process.wait_for_process posix_host example_os 10 HandleNone TNone "continue"
    (@started posix_host example_os (with_alias "first" default_kwargs)).

(** [m] relates the state it ends in, by return or by exception, to the
    state it starts from. *)
Definition respects {S A} (P : S -> S -> Prop) (m : M S A) : Prop :=
  forall s,
    match m s with
    | Ret _ s' => P s s'
    | Raise _ s' => P s s'
    | Diverge => True
    end.

(** [m] never runs out of fuel. *)
Definition total {S A} (m : M S A) : Prop :=
  forall s, m s <> Diverge.

(** The process table is the same. *)
Definition same_popens (w w' : World) : Prop := popens w' = popens w.

(** No signal has been delivered in between. *)
Definition same_siglog (w w' : World) : Prop := siglog w' = siglog w.

(** The process has been seen to have ended. *)
Definition confirmed_stopped (w : World) (p : nat) : Prop :=
  exists po code, popens w !! p = Some po /\ Popen.returncode po = Some code.

(** Every process of the table has kept its state and its result. *)
Definition processes_unaffected (st st' : Process.t) : Prop :=
  forall q po,
    popens (Process.world st) !! q = Some po ->
    popens (Process.world st') !! q = Some po
    /\ Process._results st' !! q = Process._results st !! q.

(** [m] does not raise the exception [e0]. *)
Definition never_raises {S A} (e0 : exn) (m : M S A) : Prop :=
  forall s e s', m s = Raise e s' -> e <> e0.

(** The number of polling rounds that a timeout of [timeout] milliseconds
    cannot exceed. *)
Definition polling_rounds (timeout : Z) : nat := S (S (Z.to_nat timeout)).

(** Robot's timeout fires at once; the child would run for ever and ends
    on SIGKILL. *)
Definition cancelling_os : OS := scripted_os None true true (Some 0) EmptyString.

(** Robot's timeout fires at once; the child would run for ever and does
    not end even on SIGKILL. *)
Definition unkillable_os : OS := scripted_os None false false (Some 0) EmptyString.

(** The child runs for ever unless it is signalled. *)
Definition endless_os : OS := scripted_os None true true None EmptyString.

(** The process is tracked, has a result object, and is not known to have
    ended; its standard input, if it has one, is a file object of the
    world. *)
Definition running (st : Process.t) (p : nat) : Prop :=
  exists po r,
    popens (Process.world st) !! p = Some po
    /\ Popen.returncode po = None
    /\ Process._results st !! p = Some r
    /\ match Popen.stdin po with
       | Some i => is_Some (objects (Process.world st) !! i)
       | None => True
       end.

(** The timeout values that the documentation of [Wait For Process] says
    are ignored: [None], the string NONE in any case, zero, and values
    that [timestr_to_secs] makes zero or negative. *)
Definition ignored_timeout `{Host} (timeout : timeout_arg) : Prop :=
  timeout = TNone
  \/ (exists s, timeout = TStr s /\ upper s = "NONE")
  \/ timeout = TNum 0
  \/ (exists t, timestr_to_secs timeout = inr t /\ t <= 0).

(** [w'] has the processes of [w] and its file objects, of which the
    closed ones are still closed. *)
Definition evolves (w w' : World) : Prop :=
  popens w' = popens w
  /\ forall id f,
       objects w !! id = Some f ->
       exists f', objects w' !! id = Some f'
                  /\ (FileObj.closed f = true -> FileObj.closed f' = true).

(** A method of a result object has kept what [finalized] looks at, apart
    from closing streams. *)
Definition keeps_result (s s' : ExecutionResult.self_world) : Prop :=
  ExecutionResult._process (fst s') = ExecutionResult._process (fst s)
  /\ ExecutionResult.rc (fst s') = ExecutionResult.rc (fst s)
  /\ ExecutionResult._custom_streams (fst s')
     = ExecutionResult._custom_streams (fst s)
  /\ evolves (snd s) (snd s').

(** Every result object is filed under the process it belongs to. *)
Definition results_filed (st : Process.t) : Prop :=
  forall p r, Process._results st !! p = Some r -> ExecutionResult._process r = p.
(* ================================================================== *)
(** * More keywords of [class Process] *)
(* ================================================================== *)

(** The process is a [Popen] object of the world. *)
Definition known_process (w : World) (p : nat) : Prop :=
  is_Some (popens w !! p).

(** The child runs for ever, ignores SIGTERM and ends on SIGKILL. *)
Definition stubborn_os : OS := scripted_os None true false None EmptyString.

(** The processes of [w] are processes of [w'], and those known to have
    ended in [w] are known to have ended in [w']. *)
Definition advances (w w' : World) : Prop :=
  forall q po,
    popens w !! q = Some po ->
    exists po',
      popens w' !! q = Some po'
      /\ (is_Some (Popen.returncode po) -> is_Some (Popen.returncode po')).

(** A keyword has kept the registry, and the processes have advanced. *)
Definition proceeds (st st' : Process.t) : Prop :=
  Process._processes st' = Process._processes st
  /\ advances (Process.world st) (Process.world st').

(** What a verifying keyword ends with: it returns [None], or its last
    statement raises [AssertionError(error_message)]. *)
Inductive verdict : Type :=
  | Passed
  | AssertionError (error_message : string).

(** [self._processes.current = current] *)
Definition set_current (current : option nat) (cache : ConnectionCache.t)
  : ConnectionCache.t :=
  ConnectionCache.mk (ConnectionCache.connections cache)
                     (ConnectionCache.aliases cache) current.

Section Keywords.
Context `{Host} `{OS}.

(** [Process.is_process_running] *)
Definition is_process_running (h : handle) : M Process.t bool :=
  process <- Process.get_process h ;;
  rc <- Process.in_world (poll process) ;;
  ret (match rc with None => true | Some _ => false end).

(** [Process.process_should_be_running] *)
Definition process_should_be_running (h : handle) (error_message : string)
  : M Process.t verdict :=
  running <- is_process_running h ;;
  if negb running then ret (AssertionError error_message) else ret Passed.

(** [Process.process_should_be_stopped] *)
Definition process_should_be_stopped (h : handle) (error_message : string)
  : M Process.t verdict :=
  running <- is_process_running h ;;
  if running then ret (AssertionError error_message) else ret Passed.

(** The [for] loop of [terminate_all_processes] over the rest of its
    handles. *)
Fixpoint terminate_handles (fuel : nat) (kill : bool) (handles : list nat)
  : M Process.t unit :=
  match handles with
  | [] => ret tt
  | handle :: rest =>
      running <- is_process_running (HandleIndex handle) ;;
      (if running
       then Process.terminate_process fuel (HandleIndex handle) kill ;;; ret tt
       else ret tt) ;;;
      terminate_handles fuel kill rest
  end.

(** [Process.terminate_all_processes]; [len(self._processes)] is the
    number of registered processes, and [self.__init__()] starts the
    registry and the results anew. *)
Definition terminate_all_processes (fuel : nat) (kill : bool) : M Process.t unit :=
  s <- get ;;
  let count := length (ConnectionCache.connections (Process._processes s)) in
  terminate_handles fuel kill (seq 1 count) ;;;
  modify (fun s => Process.__init__ (Process.world s)).

(** [Process.run_process]; [start_process] returns the process object,
    which is the handle given to [wait_for_process]. *)
Definition run_process (fuel : nat) (cmd : string) (arguments : list string)
    (kw : ProcessConfiguration.kwargs) (timeout : timeout_arg)
    (on_timeout : string) : M Process.t (option ExecutionResult.t) :=
  s <- get ;;
  let current := ConnectionCache.current (Process._processes s) in
  try_finally
    (handle <- Process.start_process cmd arguments kw ;;
     Process.wait_for_process fuel (HandleObject handle) timeout on_timeout)
    (modify (fun s => Process.mk (set_current current (Process._processes s))
                                 (Process._results s) (Process.world s))).
End Keywords.

(** Like [example_os], except that a signal to a child that has ended is
    refused. *)
Definition reaping_os : OS := {|
  os_exit_status := @os_exit_status example_os;
  os_signal_fails := fun w p _ =>
    bool_decide (is_Some (@os_exit_status example_os w p));
  os_pipe_read := @os_pipe_read example_os;
  os_open_fails := @os_open_fails example_os;
  os_spawn_fails := @os_spawn_fails example_os;
  os_cancelled := @os_cancelled example_os
|}.

(** The library after [Start Process] with the given options and
    [Wait For Process] without timeout. *)
Definition finished `{Host} `{OS} (kw : ProcessConfiguration.kwargs) : Process.t :=
  default (started kw)
          (final_state (Process.wait_for_process 10 HandleNone TNone "continue"
                          (started kw))).

(** Between [w] and [w'] no file has been written, no signal has been
    delivered and the environment has not changed. *)
Definition same_outside (w w' : World) : Prop :=
  files w' = files w /\ siglog w' = siglog w /\ environ w' = environ w.

(** A method of a result object has left files, signals and environment
    alone. *)
Definition outside_kept (s s' : ExecutionResult.self_world) : Prop :=
  same_outside (snd s) (snd s').

(** [r] is the result object filed for process [p], finalized, and its
    return code is that of the process. *)
Definition finished_result (st : Process.t) (p : nat) (r : ExecutionResult.t)
  : Prop :=
  Process._results st !! p = Some r
  /\ finalized r (Process.world st) = true
  /\ exists po code,
       popens (Process.world st) !! p = Some po
       /\ Popen.returncode po = Some code
       /\ ExecutionResult.rc r = Some code.

(** The library after two [Start Process] keywords on the empty world. *)
Definition started_twice `{Host} `{OS} (kw1 kw2 : ProcessConfiguration.kwargs)
  : Process.t :=
  default (started kw1)
          (final_state (Process.start_process "other" [] kw2 (started kw1))).

(** The library after the files on disk have been removed. *)
Definition without_files (st : Process.t) : Process.t :=
  Process.mk (Process._processes st) (Process._results st)
             (set_files ∅ (Process.world st)).

(** The first name among the extra named arguments that does not start
    with [env:]. *)
Fixpoint first_unsupported (extra : pydict) : option string :=
  match extra with
  | [] => None
  | (name, _) :: rest =>
      if startswith "env:" name then first_unsupported rest else Some name
  end.

(** The error of [_add_to_env] for the argument [name]. *)
Definition unsupported_argument (name : string) : exn :=
  RuntimeError ("Keyword argument '" ++ name
                  ++ "' is not supported by this keyword.").



(** The text between double quotes. *)
Definition quoted (text : string) : string :=
  String DQUOTE (text ++ String DQUOTE EmptyString).

(** The text with a backslash before every double quote. *)
Fixpoint escape_quotes (s : string) : string :=
  match s with
  | EmptyString => EmptyString
  | String c rest =>
      if Ascii.eqb c DQUOTE
      then String BACKSLASH (String DQUOTE (escape_quotes rest))
      else String c (escape_quotes rest)
  end.

(** What the documentation of [Join Command Line] promises for one
    argument: quotes escaped with a backslash, and quotes around an
    argument that contains spaces. *)
Definition join_item (arg : string) : string :=
  if needquote arg then quoted (escape_quotes arg) else escape_quotes arg.

(** A backslash stands directly before a double quote. *)
Fixpoint backslash_before_quote (s : string) : bool :=
  match s with
  | EmptyString => false
  | String c rest =>
      match rest with
      | String d _ =>
          (Ascii.eqb c BACKSLASH && Ascii.eqb d DQUOTE)
          || backslash_before_quote rest
      | EmptyString => false
      end
  end.

(** The backslashes of the argument are ordinary characters for
    [list2cmdline]: none stands before a double quote, and none ends an
    argument that has to be quoted. *)
Definition literal_backslashes (arg : string) : bool :=
  negb (backslash_before_quote arg)
  && negb (needquote arg && endswith_backslash arg).

(** The [signal] argument of [Send Signal To Process]: an integer or a
    string. *)
Inductive signal_arg : Type :=
  | SignalNumber (number : Z)
  | SignalText (text : string).

(** What [_get_signal_number] uses of Python: [int(text)], with [None]
    for a [ValueError], and [getattr(signal_module, name)], with [None]
    for an [AttributeError]. *)
Class PythonSignals : Type := {
  python_int : string -> option Z;
  signal_module : string -> option Z
}.

Section SignalNumbers.
Context `{PythonSignals}.

Definition _convert_signal_name_to_number (name : string) : exn + Z :=
  match signal_module (if startswith "SIG" name then name else "SIG" ++ name) with
  | Some number => inr number
  | None => inl (RuntimeError ("Unsupported signal '" ++ name ++ "'."))
  end.

Definition _get_signal_number (int_or_name : signal_arg) : exn + Z :=
  match int_or_name with
  | SignalNumber number => inr number
  | SignalText text =>
      match python_int text with
      | Some number => inr number
      | None => _convert_signal_name_to_number text
      end
  end.
End SignalNumbers.

(** Decimal digits as [int] reads them, and three signals of a POSIX
    system. *)
Definition posix_signals : PythonSignals := {|
  python_int := fun text =>
    match text with
    | EmptyString => None
    | _ => digits_value text 0
    end;
  signal_module := fun name =>
    if String.eqb name "SIGINT" then Some 2
    else if String.eqb name "SIGKILL" then Some 9
    else if String.eqb name "SIGTERM" then Some 15
    else None
|}.

(* ================================================================== *)
(** * Output text normalisation *)
(* ================================================================== *)

Lemma append_cons (c : ascii) (a b : string) :
  String c a ++ b = String c (a ++ b).
Proof. reflexivity. Qed.

Lemma append_nil_l (b : string) : EmptyString ++ b = b.
Proof. reflexivity. Qed.

Lemma append_assoc (a b c : string) : (a ++ b) ++ c = a ++ (b ++ c).
Proof.
  induction a as [|x a IH]; [reflexivity|].
  now rewrite !append_cons, IH.
Qed.

Lemma append_nil_r (a : string) : a ++ EmptyString = a.
Proof.
  induction a as [|x a IH]; [reflexivity|].
  now rewrite append_cons, IH.
Qed.

Lemma replace_crlf_cons2 (c d : ascii) (rest : string) :
  replace_crlf (String c (String d rest))
  = if (Ascii.eqb c CR && Ascii.eqb d LF)%bool
    then String LF (replace_crlf rest)
    else String c (replace_crlf (String d rest)).
Proof. reflexivity. Qed.

Lemma crlf_free_cons2 (c d : ascii) (rest : string) :
  crlf_free (String c (String d rest)) = true ->
  (Ascii.eqb c CR && Ascii.eqb d LF)%bool = false
  /\ crlf_free (String d rest) = true.
Proof.
  intros Hfree.
  change (negb (Ascii.eqb c CR && Ascii.eqb d LF)
          && crlf_free (String d rest) = true) in Hfree.
  apply andb_true_iff in Hfree as [Hcd Hrest].
  now apply negb_true_iff in Hcd.
Qed.

Lemma replace_crlf_free (p : string) :
  crlf_free p = true -> replace_crlf p = p.
Proof.
  induction p as [|c p IH]; [reflexivity|].
  destruct p as [|d p']; [reflexivity|].
  intros Hfree. apply crlf_free_cons2 in Hfree as [Hcd Hrest].
  rewrite replace_crlf_cons2, Hcd. f_equal. apply IH, Hrest.
Qed.

Lemma replace_crlf_piece (p rest : string) :
  crlf_free p = true ->
  replace_crlf (p ++ CRLF ++ rest) = p ++ NEWLINE ++ replace_crlf rest.
Proof.
  induction p as [|c p IH]; intros Hfree.
  - reflexivity.
  - destruct p as [|d p'].
    + change (String c EmptyString ++ CRLF ++ rest)
        with (String c (String CR (String LF rest))).
      rewrite replace_crlf_cons2.
      change (Ascii.eqb CR LF) with false. rewrite andb_false_r.
      reflexivity.
    + apply crlf_free_cons2 in Hfree as [Hcd Hrest].
      rewrite !append_cons, replace_crlf_cons2, Hcd.
      rewrite <- append_cons, (IH Hrest). reflexivity.
Qed.

Lemma replace_crlf_join (pieces : list string) :
  Forall (fun p => crlf_free p = true) pieces ->
  replace_crlf (join CRLF pieces) = join NEWLINE pieces.
Proof.
  induction 1 as [|p rest Hp Hrest IH]; [reflexivity|].
  destruct rest as [|q rest'].
  - cbn [join]. apply replace_crlf_free, Hp.
  - change (join CRLF (p :: q :: rest')) with (p ++ CRLF ++ join CRLF (q :: rest')).
    rewrite (replace_crlf_piece _ _ Hp), IH. reflexivity.
Qed.

Lemma split_crlf_cons2 (c d : ascii) (rest : string) :
  split_crlf (String c (String d rest))
  = if (Ascii.eqb c CR && Ascii.eqb d LF)%bool
    then EmptyString :: split_crlf rest
    else match split_crlf (String d rest) with
         | p :: ps => String c p :: ps
         | [] => [String c EmptyString]
         end.
Proof. reflexivity. Qed.

(** Every text is the CR LF-join of its pieces, and no piece contains
    CR LF; the first piece is empty or starts like the text. *)
Lemma split_crlf_bounded (n : nat) :
  forall s,
    (String.length s <= n)%nat ->
    join CRLF (split_crlf s) = s
    /\ Forall (fun p => crlf_free p = true) (split_crlf s)
    /\ exists p ps,
         split_crlf s = p :: ps
         /\ match p, s with
            | String a _, String b _ => a = b
            | String _ _, EmptyString => False
            | EmptyString, _ => True
            end.
Proof.
  induction n as [|n IH]; intros s Hlen.
  - destruct s; [|cbn in Hlen; lia].
    split; [reflexivity|]. split; [repeat constructor|].
    exists EmptyString, []. split; [reflexivity|exact I].
  - destruct s as [|c [|d s']].
    + split; [reflexivity|]. split; [repeat constructor|].
      exists EmptyString, []. split; [reflexivity|exact I].
    + split; [reflexivity|]. split; [repeat constructor|].
      exists (String c EmptyString), []. split; reflexivity.
    + cbn [String.length] in Hlen. rewrite split_crlf_cons2.
      destruct (Ascii.eqb c CR && Ascii.eqb d LF)%bool eqn:Hcd.
      * apply andb_true_iff in Hcd as [Hc Hd].
        apply Ascii.eqb_eq in Hc, Hd. subst c d.
        destruct (IH s' ltac:(lia)) as (Hjoin & Hfree & p & ps & Hsplit & _).
        split; [|split].
        -- rewrite Hsplit in *.
           change (join CRLF (EmptyString :: p :: ps))
             with (String CR (String LF (join CRLF (p :: ps)))).
           now rewrite Hjoin.
        -- constructor; [reflexivity|exact Hfree].
        -- exists EmptyString, (split_crlf s'). split; [reflexivity|exact I].
      * destruct (IH (String d s') ltac:(cbn; lia))
          as (Hjoin & Hfree & p & ps & Hsplit & Hhead).
        rewrite Hsplit in *. split; [|split].
        -- destruct ps as [|q ps'].
           ++ cbn [join] in *. now rewrite Hjoin.
           ++ change (join CRLF (String c p :: q :: ps'))
                with (String c (p ++ CRLF ++ join CRLF (q :: ps'))).
              change (join CRLF (p :: q :: ps'))
                with (p ++ CRLF ++ join CRLF (q :: ps')) in Hjoin.
              now rewrite Hjoin.
        -- inversion Hfree as [|? ? Hp Hps]; subst. constructor; [|exact Hps].
           destruct p as [|a p']; [reflexivity|]. subst a.
           change (negb (Ascii.eqb c CR && Ascii.eqb d LF)
                   && crlf_free (String d p') = true).
           now rewrite Hcd, Hp.
        -- exists (String c p), ps. split; reflexivity.
Qed.

Lemma split_crlf_spec (s : string) :
  join CRLF (split_crlf s) = s
  /\ Forall (fun p => crlf_free p = true) (split_crlf s).
Proof.
  destruct (split_crlf_bounded (String.length s) s (le_n _)) as (Hjoin & Hfree & _).
  auto.
Qed.

Lemma endswith_lf_append (t : string) : endswith_lf (t ++ NEWLINE) = true.
Proof.
  induction t as [|c t IH]; [reflexivity|].
  rewrite append_cons. cbn [endswith_lf].
  destruct (t ++ NEWLINE) eqn:E; [|exact IH].
  destruct t; discriminate.
Qed.

Lemma drop_last_append (t : string) : drop_last (t ++ NEWLINE) = t.
Proof.
  induction t as [|c t IH]; [reflexivity|].
  rewrite append_cons. cbn [drop_last].
  destruct (t ++ NEWLINE) eqn:E.
  - destruct t; discriminate.
  - now rewrite IH.
Qed.

Lemma endswith_lf_split (s : string) :
  endswith_lf s = true -> s = drop_last s ++ NEWLINE.
Proof.
  induction s as [|c s IH]; [discriminate|].
  destruct s as [|d s'].
  - cbn. intros E. apply Ascii.eqb_eq in E. now subst.
  - intros E. change (endswith_lf (String d s') = true) in E.
    change (drop_last (String c (String d s')))
      with (String c (drop_last (String d s'))).
    rewrite append_cons. f_equal. apply IH, E.
Qed.

Lemma strip_newline_spec (s : string) :
  strips_one_newline s (if endswith_lf s then drop_last s else s).
Proof.
  destruct (endswith_lf s) eqn:E.
  - left. apply endswith_lf_split, E.
  - right. split; [reflexivity|]. intros u ->.
    rewrite endswith_lf_append in E. discriminate.
Qed.

Lemma format_text_join (pieces : list string) :
  Forall (fun p => crlf_free p = true) pieces ->
  strips_one_newline (join NEWLINE pieces) (format_text (join CRLF pieces)).
Proof.
  intros Hfree. unfold format_text. rewrite (replace_crlf_join _ Hfree).
  apply strip_newline_spec.
Qed.

Lemma lookup_new_object {A} (l : list A) (x : A) :
  (l ++ [x])%list !! length l = Some x.
Proof. rewrite lookup_app_r by lia. now rewrite Nat.sub_diag. Qed.

Lemma alter_new_object {A} (f : A -> A) (l : list A) (x : A) :
  alter f (length l) (l ++ [x])%list = (l ++ [f x])%list.
Proof.
  induction l as [|y l IH]; [reflexivity|].
  cbn. f_equal. exact IH.
Qed.

Lemma read_stream_file `{Host} `{OS} (encoding path : string) (raw : bytes)
    (s : option nat) (w : World) :
  path <> EmptyString ->
  files w !! path = Some raw ->
  ExecutionResult._read_stream encoding (Some path) s w
  = Ret (_format_output encoding (Some raw))
        (set_objects (objects w ++ [FileObj.mk path true false]) w).
Proof.
  intros Hpath Hfile.
  destruct path as [|c path]; [congruence|].
  unfold ExecutionResult._read_stream, truthy, default, open_r, bind, get.
  cbn [id]. rewrite Hfile.
  unfold new_object, try_finally, ExecutionResult.read_content, try_except, read.
  cbn [objects set_objects]. rewrite lookup_new_object.
  cbn [FileObj.closed FileObj.is_pipe FileObj.name files set_objects].
  rewrite Hfile. cbn [default id].
  unfold bind, close, modify, ret. cbn [objects set_objects].
  rewrite alter_new_object. reflexivity.
Qed.

(** C4: the text of a result is the decoded output in which every CR LF
    has become LF and from which one trailing newline, if there is one,
    has been removed, once; this holds for output captured from a pipe
    (the setters) and for output read back from a redirect file.  The
    decoded output is taken as the pieces between its CR LF sequences,
    and every text has such pieces.  The example of the spec evaluates as
    stated. *)
Theorem format_output_normalises :
  (forall (host : Host) (os : OS) (encoding : string) (raw : bytes)
          (pieces : list string),
      Forall (fun p => crlf_free p = true) pieces ->
      console_decode raw encoding = join CRLF pieces ->
      exists text,
        _format_output encoding (Some raw) = Some text
        /\ strips_one_newline (join NEWLINE pieces) text
        /\ (forall r w,
              ExecutionResult._output_encoding r = encoding ->
              ExecutionResult.set_stdout (Some raw) (r, w)
              = Ret tt (ExecutionResult.set__stdout (Some text) r, w)
              /\ ExecutionResult.set_stderr (Some raw) (r, w)
                 = Ret tt (ExecutionResult.set__stderr (Some text) r, w))
        /\ (forall path s w,
              path <> EmptyString ->
              files w !! path = Some raw ->
              exists w',
                ExecutionResult._read_stream encoding (Some path) s w
                = Ret (Some text) w'))
  /\ (forall text : string,
        exists pieces,
          Forall (fun p => crlf_free p = true) pieces
          /\ text = join CRLF pieces)
  /\ format_text ("line1" ++ CRLF ++ "line2" ++ CRLF) = "line1" ++ NEWLINE ++ "line2".
Proof.
  split; [|split; [|reflexivity]].
  2:{ intros text. exists (split_crlf text).
      destruct (split_crlf_spec text) as [Hjoin Hfree]. auto. }
  intros host os encoding raw pieces Hfree Hdecode.
  exists (format_text (join CRLF pieces)).
  split; [|split; [|split]].
  - cbn. now rewrite Hdecode.
  - apply format_text_join, Hfree.
  - intros r w <-. unfold ExecutionResult.set_stdout, ExecutionResult.set_stderr,
      ExecutionResult.self, ExecutionResult.update, bind, gets, modify.
    cbn. rewrite Hdecode. split; reflexivity.
  - intros path s w Hpath Hfile. eexists.
    rewrite (read_stream_file _ _ raw) by assumption.
    cbn. rewrite Hdecode. reflexivity.
Qed.

Lemma format_output_normalises_witness :
  Forall (fun p => crlf_free p = true) ["line1"; "line2"; ""]
  /\ @console_decode posix_host ("line1" ++ CRLF ++ "line2" ++ CRLF) "CONSOLE"
     = join CRLF ["line1"; "line2"; ""]
  /\ exists text,
       @_format_output posix_host "CONSOLE" (Some ("line1" ++ CRLF ++ "line2" ++ CRLF))
       = Some text
       /\ strips_one_newline (join NEWLINE ["line1"; "line2"; ""]) text.
Proof.
  assert (Hfree : Forall (fun p => crlf_free p = true) ["line1"; "line2"; ""])
    by (repeat constructor).
  assert (Hdecode : @console_decode posix_host ("line1" ++ CRLF ++ "line2" ++ CRLF)
                      "CONSOLE" = join CRLF ["line1"; "line2"; ""])
    by reflexivity.
  split; [exact Hfree|]. split; [exact Hdecode|].
  destruct (proj1 format_output_normalises posix_host
              (scripted_os None true true None EmptyString)
              "CONSOLE" _ _ Hfree Hdecode) as (text & Htext & Hstrip & _).
  exists text. split; assumption.
Defined.

(* ================================================================== *)
(** * Joining and splitting command lines *)
(* ================================================================== *)

Lemma repeat_char_shift (c : ascii) (n : nat) (s : string) :
  repeat_char c n ++ String c s = String c (repeat_char c n ++ s).
Proof.
  induction n as [|n IH]; [reflexivity|].
  cbn [repeat_char]. now rewrite !append_cons, IH.
Qed.

Lemma list2cmdline_chars_cons (c : ascii) (rest : string) (n : nat) :
  list2cmdline_chars (String c rest) n
  = if Ascii.eqb c BACKSLASH then list2cmdline_chars rest (S n)
    else if Ascii.eqb c DQUOTE then
      let (out, bs) := list2cmdline_chars rest O in
      (repeat_char BACKSLASH (n * 2) ++ String BACKSLASH (String DQUOTE out), bs)
    else
      let (out, bs) := list2cmdline_chars rest O in
      (repeat_char BACKSLASH n ++ String c out, bs).
Proof. reflexivity. Qed.

(** Without double quotes in the argument, the character loop copies it:
    what is written and what is still pending make up the pending
    backslashes followed by the argument. *)
Lemma list2cmdline_chars_copy (arg : string) :
  all_chars (fun c => negb (Ascii.eqb c DQUOTE)) arg = true ->
  forall n,
    fst (list2cmdline_chars arg n)
      ++ repeat_char BACKSLASH (snd (list2cmdline_chars arg n))
    = repeat_char BACKSLASH n ++ arg.
Proof.
  induction arg as [|c arg IH]; intros Hq n.
  - cbn. now rewrite append_nil_r.
  - cbn [all_chars] in Hq. apply andb_true_iff in Hq as [Hc Hrest].
    apply negb_true_iff in Hc.
    rewrite list2cmdline_chars_cons, Hc.
    destruct (Ascii.eqb c BACKSLASH) eqn:Hb.
    + apply Ascii.eqb_eq in Hb as ->.
      rewrite (IH Hrest (S n)). cbn [repeat_char].
      now rewrite append_cons, repeat_char_shift.
    + specialize (IH Hrest O).
      destruct (list2cmdline_chars arg 0) as [out bs].
      cbn [fst snd] in *. rewrite append_assoc, append_cons, IH.
      reflexivity.
Qed.

Lemma list2cmdline_chars_pending (arg : string) :
  all_chars (fun c => negb (Ascii.eqb c DQUOTE)) arg = true ->
  endswith_backslash arg = false ->
  forall n,
    snd (list2cmdline_chars arg n) = match arg with EmptyString => n | _ => O end.
Proof.
  induction arg as [|c arg IH]; intros Hq Hend n; [reflexivity|].
  cbn [all_chars] in Hq. apply andb_true_iff in Hq as [Hc Hrest].
  apply negb_true_iff in Hc.
  rewrite list2cmdline_chars_cons, Hc.
  destruct arg as [|d arg'].
  - cbn in Hend. rewrite Hend. reflexivity.
  - change (endswith_backslash (String d arg') = false) in Hend.
    specialize (IH Hrest Hend).
    destruct (Ascii.eqb c BACKSLASH).
    + apply IH.
    + specialize (IH O).
      destruct (list2cmdline_chars (String d arg') 0) as [out bs].
      exact IH.
Qed.

Lemma all_chars_weaken (P Q : ascii -> bool) (s : string) :
  (forall c, P c = true -> Q c = true) ->
  all_chars P s = true -> all_chars Q s = true.
Proof.
  intros HPQ. induction s as [|c s IH]; [reflexivity|].
  cbn [all_chars]. rewrite !andb_true_iff. intros [Hc Hs]. auto.
Qed.

Lemma not_special_not_dquote (c : ascii) :
  negb (roundtrip_special c) = true -> negb (Ascii.eqb c DQUOTE) = true.
Proof.
  unfold roundtrip_special, is_quote.
  destruct (Ascii.eqb c DQUOTE); [|reflexivity].
  now rewrite orb_true_r.
Qed.

(** What [list2cmdline] writes for a safe argument: the argument itself,
    between double quotes when it needs them. *)
Lemma list2cmdline_arg_safe (arg : string) :
  roundtrip_safe arg = true ->
  list2cmdline_arg arg
  = if needquote arg then String DQUOTE (arg ++ String DQUOTE EmptyString)
    else arg.
Proof.
  unfold roundtrip_safe. intros Hsafe.
  apply andb_true_iff in Hsafe as [Hchars Hend].
  apply (all_chars_weaken _ _ _ not_special_not_dquote) in Hchars.
  pose proof (list2cmdline_chars_copy arg Hchars O) as Hcopy.
  unfold list2cmdline_arg.
  destruct (needquote arg) eqn:Hneed.
  - cbn in Hend. apply negb_true_iff in Hend.
    pose proof (list2cmdline_chars_pending arg Hchars Hend O) as Hpend.
    destruct (list2cmdline_chars arg 0) as [out bs]. cbn [fst snd] in *.
    assert (bs = O) as -> by (destruct arg; exact Hpend).
    cbn [repeat_char] in *. rewrite append_nil_r in Hcopy.
    rewrite !append_nil_l in *. now subst.
  - destruct (list2cmdline_chars arg 0) as [out bs]. exact Hcopy.
Qed.

Lemma list2cmdline_from_spaced (seq : list string) :
  forall result,
    result <> EmptyString ->
    list2cmdline_from result seq = result ++ spaced (map list2cmdline_arg seq).
Proof.
  induction seq as [|arg seq IH]; intros result Hne.
  - cbn. now rewrite append_nil_r.
  - cbn [list2cmdline_from map spaced].
    destruct result as [|c result]; [congruence|].
    rewrite IH by (rewrite !append_cons; discriminate).
    rewrite !append_assoc. reflexivity.
Qed.

Lemma list2cmdline_arg_nonempty (arg : string) :
  roundtrip_safe arg = true -> list2cmdline_arg arg <> EmptyString.
Proof.
  intros Hsafe. rewrite (list2cmdline_arg_safe _ Hsafe).
  destruct (needquote arg) eqn:Hneed; [discriminate|].
  destruct arg; [discriminate Hneed | discriminate].
Qed.

Lemma join_command_line_safe (arg : string) (args : list string) :
  roundtrip_safe arg = true ->
  join_command_line (arg :: args)
  = list2cmdline_arg arg ++ spaced (map list2cmdline_arg args).
Proof.
  intros Hsafe. unfold join_command_line, list2cmdline.
  cbn [list2cmdline_from]. rewrite append_nil_l.
  apply list2cmdline_from_spaced, list2cmdline_arg_nonempty, Hsafe.
Qed.

(** ** The lexer without escape character *)

Lemma lex_word_chars (w : string) :
  all_chars (fun c => negb (is_whitespace c) && negb (is_quote c)) w = true ->
  forall token quoted es rest,
    lex_from false (w ++ rest) LexWord token quoted es
    = lex_from false rest LexWord (token ++ w) quoted es.
Proof.
  induction w as [|c w IH]; intros Hw token quoted es rest.
  - now rewrite append_nil_l, append_nil_r.
  - cbn [all_chars] in Hw. apply andb_true_iff in Hw as [Hc Hw].
    apply andb_true_iff in Hc as [Hws Hq].
    apply negb_true_iff in Hws, Hq.
    rewrite append_cons. cbn [lex_from is_escape andb]. rewrite Hws, Hq.
    rewrite (IH Hw). unfold append_char.
    now rewrite append_assoc.
Qed.

Lemma lex_quoted_chars (w : string) :
  all_chars (fun c => negb (Ascii.eqb c DQUOTE)) w = true ->
  forall token quoted es rest,
    lex_from false (w ++ rest) (LexQuote DQUOTE) token quoted es
    = lex_from false rest (LexQuote DQUOTE) (token ++ w)
        (match w with EmptyString => quoted | _ => true end) es.
Proof.
  induction w as [|c w IH]; intros Hw token quoted es rest.
  - now rewrite append_nil_l, append_nil_r.
  - cbn [all_chars] in Hw. apply andb_true_iff in Hw as [Hc Hw].
    apply negb_true_iff in Hc.
    rewrite append_cons. cbn [lex_from is_escape andb]. rewrite Hc.
    rewrite (IH Hw). unfold append_char. rewrite append_assoc.
    destruct w; reflexivity.
Qed.

Lemma contains_char_false (x : ascii) (s : string) :
  contains_char x s = false ->
  all_chars (fun c => negb (Ascii.eqb c x)) s = true.
Proof.
  induction s as [|c s IH]; [reflexivity|].
  cbn [contains_char all_chars]. intros Hc.
  apply orb_false_iff in Hc as [Hx Hs].
  rewrite Ascii.eqb_sym, Hx. cbn. apply IH, Hs.
Qed.

Lemma all_chars_and (P Q : ascii -> bool) (s : string) :
  all_chars P s = true -> all_chars Q s = true ->
  all_chars (fun c => P c && Q c) s = true.
Proof.
  induction s as [|c s IH]; [reflexivity|].
  cbn [all_chars]. rewrite !andb_true_iff. intros [HP HPs] [HQ HQs].
  auto.
Qed.

(** A safe argument that needs no quotes consists of characters that
    continue a word. *)
Lemma unquoted_word_chars (arg : string) :
  roundtrip_safe arg = true ->
  needquote arg = false ->
  all_chars (fun c => negb (is_whitespace c) && negb (is_quote c)) arg = true.
Proof.
  unfold roundtrip_safe, needquote. intros Hsafe Hneed.
  apply andb_true_iff in Hsafe as [Hchars _].
  apply orb_false_iff in Hneed as [Hneed _].
  apply orb_false_iff in Hneed as [Hspace Htab].
  apply contains_char_false in Hspace, Htab.
  pose proof (all_chars_and _ _ _ Hchars (all_chars_and _ _ _ Hspace Htab)) as Hall.
  revert Hall. apply all_chars_weaken. intros c.
  unfold roundtrip_special, is_whitespace.
  destruct (is_quote c), (Ascii.eqb c CR), (Ascii.eqb c LF),
    (Ascii.eqb c SPACE), (Ascii.eqb c TAB); cbn; congruence.
Qed.

(** Reading the text of a safe argument from between two tokens leaves
    the lexer inside a token that is the argument. *)
Lemma lex_argument (arg rest : string) :
  roundtrip_safe arg = true ->
  lex_from false (list2cmdline_arg arg ++ rest) LexSpace EmptyString false LexSpace
  = lex_from false rest LexWord arg (needquote arg) LexSpace.
Proof.
  intros Hsafe. rewrite (list2cmdline_arg_safe _ Hsafe).
  destruct (needquote arg) eqn:Hneed.
  - assert (Hq : all_chars (fun c => negb (Ascii.eqb c DQUOTE)) arg = true).
    { unfold roundtrip_safe in Hsafe. apply andb_true_iff in Hsafe as [Hchars _].
      revert Hchars. apply all_chars_weaken, not_special_not_dquote. }
    rewrite append_cons, append_assoc.
    change (lex_from false (String DQUOTE (arg ++ String DQUOTE EmptyString ++ rest))
              LexSpace EmptyString false LexSpace)
      with (lex_from false (arg ++ String DQUOTE EmptyString ++ rest)
              (LexQuote DQUOTE) EmptyString false LexSpace).
    rewrite (lex_quoted_chars _ Hq), append_nil_l, append_cons, append_nil_l.
    cbn [lex_from]. change (Ascii.eqb DQUOTE DQUOTE) with true.
    reflexivity.
  - pose proof (unquoted_word_chars _ Hsafe Hneed) as Hw.
    destruct arg as [|c arg]; [discriminate Hneed|].
    cbn [all_chars] in Hw. apply andb_true_iff in Hw as [Hc Hw].
    apply andb_true_iff in Hc as [Hws Hq].
    apply negb_true_iff in Hws, Hq.
    rewrite append_cons. cbn [lex_from is_escape andb]. rewrite Hws, Hq.
    rewrite (lex_word_chars _ Hw). reflexivity.
Qed.

Lemma emits_argument (arg : string) :
  roundtrip_safe arg = true -> emits arg (needquote arg) = true.
Proof.
  intros _. unfold emits, needquote.
  destruct arg; [reflexivity | apply orb_true_r].
Qed.

Lemma lex_spaced (args : list string) :
  Forall (fun arg => roundtrip_safe arg = true) args ->
  lex_from false (spaced (map list2cmdline_arg args))
    LexSpace EmptyString false LexSpace
  = inr args.
Proof.
  induction 1 as [|arg args Hsafe Hargs IH]; [reflexivity|].
  cbn [map spaced].
  change (lex_from false (list2cmdline_arg arg ++ spaced (map list2cmdline_arg args))
            LexSpace EmptyString false LexSpace = inr (arg :: args)).
  rewrite (lex_argument _ _ Hsafe).
  destruct args as [|arg' args'].
  - cbn [map spaced lex_from]. now rewrite (emits_argument _ Hsafe).
  - cbn [map spaced] in *.
    cbn [lex_from]. change (is_whitespace SPACE) with true. cbn match.
    rewrite (emits_argument _ Hsafe).
    change (lex_from false
              (String SPACE (list2cmdline_arg arg'
                             ++ spaced (map list2cmdline_arg args')))
              LexSpace EmptyString false LexSpace = inr (arg' :: args')) in IH.
    cbn [lex_from] in IH. change (is_whitespace SPACE) with true in IH.
    cbn [emits orb] in IH. rewrite IH. reflexivity.
Qed.

(** C9 (as amended): with the default [escaping], splitting the joined
    command line gives back the arguments whenever no argument contains a
    double quote, an apostrophe, CR or LF, and no argument that is empty
    or contains a space or a tab ends in a backslash. *)
Theorem split_join_roundtrip_safe (args : list string) :
  Forall (fun arg => roundtrip_safe arg = true) args ->
  split_command_line (join_command_line args) false = inr args.
Proof.
  intros Hargs. unfold split_command_line, cmdline2list.
  destruct Hargs as [|arg args Hsafe Hargs]; [reflexivity|].
  rewrite (join_command_line_safe _ _ Hsafe), (lex_argument _ _ Hsafe).
  pose proof (lex_spaced _ Hargs) as Hrest.
  destruct args as [|arg' args'].
  - cbn [map spaced lex_from]. now rewrite (emits_argument _ Hsafe).
  - cbn [map spaced] in *. cbn [lex_from] in *.
    change (is_whitespace SPACE) with true in *. cbn [emits orb] in Hrest.
    now rewrite (emits_argument _ Hsafe), Hrest.
Qed.

Lemma split_join_roundtrip_safe_witness :
  Forall (fun arg => roundtrip_safe arg = true)
         ["--option"; "value with spaces"; ""; "C:\dir\file"]
  /\ split_command_line
       (join_command_line ["--option"; "value with spaces"; ""; "C:\dir\file"])
       false
     = inr ["--option"; "value with spaces"; ""; "C:\dir\file"].
Proof.
  assert (Hargs : Forall (fun arg => roundtrip_safe arg = true)
                    ["--option"; "value with spaces"; ""; "C:\dir\file"])
    by (repeat constructor).
  split; [exact Hargs | exact (split_join_roundtrip_safe _ Hargs)].
Defined.

(** C9 as stated fails on an argument with a double quote: joining
    escapes the quote with a backslash, which the split without
    [escaping] takes as an ordinary character, so that the quote opens a
    quoted part that never closes. *)
Lemma split_join_roundtrip_quote_counterexample :
  let args := [String "a" (String DQUOTE "b")] in
  join_command_line args = String "a" (String BACKSLASH (String DQUOTE "b"))
  /\ (exists msg,
        split_command_line (join_command_line args) false = inl (ValueError msg))
  /\ split_command_line (join_command_line args) false <> inr args.
Proof.
  cbn zeta. split; [reflexivity|]. split.
  - eexists. reflexivity.
  - discriminate.
Qed.

(* ================================================================== *)
(** * The environment of a started process *)
(* ================================================================== *)

Lemma dict_get_set (d : pydict) (k v k' : string) :
  dict_get (dict_set d k v) k'
  = if String.eqb k' k then Some v else dict_get d k'.
Proof.
  induction d as [|[k0 v0] d IH]; cbn [dict_set dict_get].
  - reflexivity.
  - destruct (String.eqb_spec k k0) as [->|Hk]; cbn [dict_get].
    + destruct (String.eqb k' k0); reflexivity.
    + rewrite IH. destruct (String.eqb_spec k' k0) as [->|Hk'].
      * apply String.eqb_neq in Hk. rewrite String.eqb_sym in Hk.
        now rewrite Hk.
      * reflexivity.
Qed.

(** Assigning a sequence of entries to a dictionary. *)
Lemma dict_get_assignments (l : list (string * string)) :
  forall (d : pydict) (k : string),
    dict_get (fold_left (fun acc kv => dict_set acc (fst kv) (snd kv)) l d) k
    = match lookup_last l k with
      | Some v => Some v
      | None => dict_get d k
      end.
Proof.
  induction l as [|[k0 v0] l IH]; intros d k; [reflexivity|].
  cbn [fold_left lookup_last fst snd]. rewrite IH, dict_get_set.
  destruct (lookup_last l k); [reflexivity|].
  destruct (String.eqb k k0); reflexivity.
Qed.

Lemma dict_get_encoded `{Host} (l : pydict) :
  forall (d : pydict) (k : string),
    dict_get (fold_left
                (fun acc kv => dict_set acc (system_encode (fst kv))
                                        (system_encode (snd kv))) l d) k
    = match lookup_last (encoded l) k with
      | Some v => Some v
      | None => dict_get d k
      end.
Proof.
  induction l as [|[k0 v0] l IH]; intros d k; [reflexivity|].
  cbn [fold_left encoded map lookup_last fst snd]. rewrite IH, dict_get_set.
  fold (encoded l).
  destruct (lookup_last (encoded l) k); [reflexivity|].
  destruct (String.eqb k (system_encode k0)); reflexivity.
Qed.

Lemma add_to_env_posix `{Host} (extra : pydict) :
  WINDOWS = false ->
  Forall (fun kv => startswith "env:" (fst kv) = true) extra ->
  forall env,
    ProcessConfiguration._add_to_env env extra
    = inr (fold_left (fun acc kv => dict_set acc (fst kv) (snd kv))
                     (overrides extra) env).
Proof.
  intros Hwin Hextra. induction Hextra as [|[name value] extra Hname _ IH];
    intros env; [reflexivity|].
  cbn [ProcessConfiguration._add_to_env]. cbn [fst] in Hname. rewrite Hname.
  cbn [negb]. unfold ProcessConfiguration.env_set. rewrite Hwin.
  rewrite IH. reflexivity.
Qed.

(** C8 (as amended): on a platform other than Windows and with only
    [env:]-prefixed extra arguments, a non-empty explicit mapping makes
    the environment of the process exactly the encoded mapping with the
    overrides on top, and nothing of the inherited environment; without
    mapping, or with an empty one, the overrides go on top of the
    inherited environment, and without overrides the process inherits. *)
Theorem construct_env_layers (host : Host)
    (env : option pydict) (extra : pydict) (w : World) :
  WINDOWS = false ->
  Forall (fun kv => startswith "env:" (fst kv) = true) extra ->
  match env, extra with
  | Some ((_ :: _) as explicit), _ =>
      exists m,
        ProcessConfiguration._construct_env env extra w = Ret (Some m) w
        /\ forall k,
             dict_get (process_environment (Some m) w) k
             = match lookup_last (overrides extra) k with
               | Some v => Some v
               | None => lookup_last (encoded explicit) k
               end
  | _, _ :: _ =>
      exists m,
        ProcessConfiguration._construct_env env extra w = Ret (Some m) w
        /\ forall k,
             dict_get (process_environment (Some m) w) k
             = match lookup_last (overrides extra) k with
               | Some v => Some v
               | None => dict_get (environ w) k
               end
  | _, [] =>
      ProcessConfiguration._construct_env env extra w = Ret None w
      /\ process_environment None w = environ w
  end.
Proof.
  intros Hwin Hextra.
  pose proof (add_to_env_posix extra Hwin Hextra) as Hadd.
  assert (Hinherit :
            match extra with
            | _ :: _ =>
                exists m,
                  (e <- lift (ProcessConfiguration._add_to_env (environ w) extra) ;;
                   ret (Some e)) w = Ret (Some m) w
                  /\ forall k,
                       dict_get m k
                       = match lookup_last (overrides extra) k with
                         | Some v => Some v
                         | None => dict_get (environ w) k
                         end
            | [] => True
            end).
  { destruct extra as [|x extra]; [exact I|].
    eexists. rewrite Hadd. split; [reflexivity|].
    intros k. apply dict_get_assignments. }
  unfold ProcessConfiguration._construct_env,
    ProcessConfiguration._get_initial_env.
  destruct env as [[|kv explicit]|].
  - destruct extra as [|x extra]; [split; reflexivity|].
    unfold bind at 1. cbn [get bind ret]. rewrite Hwin. exact Hinherit.
  - unfold bind at 1. cbn [ret]. rewrite Hwin, Hadd.
    eexists. split; [reflexivity|].
    intros k. cbn [process_environment default id].
    rewrite dict_get_assignments.
    destruct (lookup_last (overrides extra) k); [reflexivity|].
    rewrite dict_get_encoded.
    destruct (lookup_last (encoded (kv :: explicit)) k); reflexivity.
  - destruct extra as [|x extra]; [split; reflexivity|].
    unfold bind at 1. cbn [get bind ret]. rewrite Hwin. exact Hinherit.
Qed.

Lemma construct_env_layers_witness :
  @WINDOWS posix_host = false
  /\ Forall (fun kv => startswith "env:" (fst kv) = true) [("env:EXTRA", "value")]
  /\ exists m,
       @ProcessConfiguration._construct_env posix_host
         (Some [("HOME", "/home/robot")]) [("env:EXTRA", "value")] empty_world
       = Ret (Some m) empty_world
       /\ dict_get m "EXTRA" = Some "value"
       /\ dict_get m "HOME" = Some "/home/robot"
       /\ dict_get m "PATH" = None.
Proof.
  assert (Hextra : Forall (fun kv => startswith "env:" (fst kv) = true)
                     [("env:EXTRA", "value")]) by (repeat constructor).
  split; [reflexivity|]. split; [exact Hextra|].
  destruct (construct_env_layers posix_host
              (Some [("HOME", "/home/robot")]) [("env:EXTRA", "value")]
              empty_world eq_refl Hextra) as (m & Hm & Hget).
  exists m. split; [exact Hm|].
  split; [|split]; rewrite (Hget _); reflexivity.
Defined.

(** C8 as stated fails for an empty explicit mapping: the configuration
    then carries no environment at all and the process inherits the
    parent's, with the overrides, if any, on top of it. *)
Lemma construct_env_empty_mapping_counterexample :
  @ProcessConfiguration._construct_env posix_host (Some []) [] empty_world
  = Ret None empty_world
  /\ process_environment None empty_world = [("PATH", "/bin")]
  /\ process_environment None empty_world <> []
  /\ @ProcessConfiguration._construct_env posix_host
       (Some []) [("env:EXTRA", "value")] empty_world
     = Ret (Some [("PATH", "/bin"); ("EXTRA", "value")]) empty_world.
Proof. repeat split; try reflexivity. discriminate. Qed.

(* ================================================================== *)
(** * Redirecting the standard error to the standard output *)
(* ================================================================== *)

Lemma get_path_file_object (f : nat) (obj : FileObj.t) (w : World) :
  objects w !! f = Some obj ->
  ExecutionResult._get_path (Some (FileObject f)) w = Ret (Some (FileObj.name obj)) w.
Proof. intros Hobj. cbn. now rewrite Hobj. Qed.

(** C5 (as amended): a non-empty [stderr] value that is the marker
    [STDOUT] or equals the [stdout] value makes the stream of the standard
    error the merge marker [subprocess.STDOUT] when the standard output
    is a pipe, and otherwise the very file object of the standard output;
    the result object made from such a configuration has the same path
    for both streams. *)
Theorem get_stderr_aliases_stdout (host : Host) (os : OS)
    (cwd : string) (stderr stdout : option string) (stdout_stream : stream)
    (w : World) :
  truthy stderr = true ->
  stderr = Some "STDOUT" \/ stderr = stdout ->
  ProcessConfiguration._get_stderr cwd stderr stdout stdout_stream w
  = Ret (if is_PIPE stdout_stream then STDOUT else stdout_stream) w
  /\ forall (f : nat) (obj : FileObj.t) (process : nat) (stdin : option stream)
            (encoding : string),
       stdout_stream = FileObject f ->
       objects w !! f = Some obj ->
       exists r,
         ExecutionResult.__init__ process (Some stdout_stream)
           (Some (if is_PIPE stdout_stream then STDOUT else stdout_stream))
           stdin encoding w
         = Ret r w
         /\ ExecutionResult.stdout_path r = Some (FileObj.name obj)
         /\ ExecutionResult.stderr_path r = ExecutionResult.stdout_path r.
Proof.
  intros Htruthy Hequal. split.
  - unfold ProcessConfiguration._get_stderr, ProcessConfiguration.stderr_in.
    rewrite Htruthy.
    assert (bool_decide (stderr = Some "STDOUT") || bool_decide (stderr = stdout)
            = true) as ->.
    { destruct Hequal as [Heq|Heq].
      - now rewrite (bool_decide_eq_true_2 _ Heq).
      - rewrite (bool_decide_eq_true_2 _ Heq). apply orb_true_r. }
    cbn [andb]. destruct stdout_stream; reflexivity.
  - intros f obj process stdin encoding -> Hobj. cbn [is_PIPE].
    unfold ExecutionResult.__init__, bind.
    rewrite (get_path_file_object _ _ _ Hobj). cbn beta iota.
    rewrite (get_path_file_object _ _ _ Hobj).
    eexists. split; [reflexivity|]. split; reflexivity.
Qed.

Lemma get_stderr_aliases_stdout_witness :
  let host := posix_host in
  let os := scripted_os None true true None EmptyString in
  let conf_world :=
    ProcessConfiguration.__init__
      (with_streams (Some "out.txt") (Some "STDOUT") default_kwargs) empty_world in
  truthy (Some "STDOUT") = true
  /\ (Some "STDOUT" = Some "STDOUT" \/ Some "STDOUT" = Some "out.txt")
  /\ (exists conf w,
        conf_world = Ret conf w
        /\ ProcessConfiguration.stdout_stream conf = FileObject 0
        /\ ProcessConfiguration.stderr_stream conf = FileObject 0)
  /\ ProcessConfiguration._get_stderr "/work" (Some "STDOUT") (Some "out.txt")
       (FileObject 0) empty_world
     = Ret (FileObject 0) empty_world.
Proof.
  cbn zeta. split; [reflexivity|]. split; [left; reflexivity|]. split.
  - eexists _, _. split; [reflexivity|]. split; reflexivity.
  - exact (proj1 (get_stderr_aliases_stdout posix_host
                    (scripted_os None true true None EmptyString)
                    "/work" (Some "STDOUT") (Some "out.txt") (FileObject 0)
                    empty_world eq_refl (or_introl eq_refl))).
Defined.

(** C5 as stated fails when the [stderr] value is empty: given empty
    [stdout] and [stderr] values, which are equal, the standard output is
    a pipe and the standard error is a pipe of its own, not the merge
    marker. *)
Lemma get_stderr_empty_value_counterexample :
  let kw := with_streams (Some "") (Some "") default_kwargs in
  ProcessConfiguration.kw_stderr kw = ProcessConfiguration.kw_stdout kw
  /\ exists conf w,
       @ProcessConfiguration.__init__ posix_host
         (scripted_os None true true None EmptyString) kw empty_world
       = Ret conf w
       /\ ProcessConfiguration.stdout_stream conf = PIPE
       /\ ProcessConfiguration.stderr_stream conf = PIPE
       /\ ProcessConfiguration.stderr_stream conf <> STDOUT.
Proof.
  cbn zeta. split; [reflexivity|].
  eexists _, _. split; [reflexivity|].
  split; [reflexivity|]. split; [reflexivity | discriminate].
Qed.

(* ================================================================== *)
(** * Result objects *)
(* ================================================================== *)

Lemma grows_refl (w : World) : grows w w.
Proof. exists []. destruct w. cbn. now rewrite app_nil_r. Qed.

Lemma grows_trans (w1 w2 w3 : World) : grows w1 w2 -> grows w2 w3 -> grows w1 w3.
Proof.
  intros [m1 ->] [m2 ->]. exists (m1 ++ m2)%list.
  cbn. now rewrite app_assoc.
Qed.

Lemma object_closed_grows (w w' : World) (s : option nat) :
  grows w w' -> object_closed w s = true -> object_closed w' s = true.
Proof.
  intros [more ->]. destruct s as [id|]; [|reflexivity].
  cbn. destruct (objects w !! id) as [f|] eqn:Hf; [|discriminate].
  now rewrite (lookup_app_l_Some _ _ _ _ Hf).
Qed.

Lemma finalized_grows (r : ExecutionResult.t) (w w' : World) :
  grows w w' -> finalized r w = true -> finalized r w' = true.
Proof.
  intros Hgrows. unfold finalized.
  destruct (ExecutionResult.rc r); [|discriminate].
  assert (popens w' = popens w) as -> by (destruct Hgrows as [more ->]; reflexivity).
  destruct (popens w !! ExecutionResult._process r) as [po|]; [|discriminate].
  rewrite !forallb_forall. intros Hall s Hs.
  eapply object_closed_grows; eauto.
Qed.

Lemma path_readable_grows (w w' : World) (path : option string) :
  grows w w' -> path_readable w path = path_readable w' path.
Proof. intros [more ->]. reflexivity. Qed.

Lemma is_open_closed `{OS} (w : World) (s : option nat) :
  object_closed w s = true -> ExecutionResult._is_open s w = Ret false w.
Proof.
  destruct s as [id|]; [|reflexivity].
  cbn. unfold bind, is_closed.
  destruct (objects w !! id) as [f|]; [|discriminate].
  now intros ->.
Qed.

(** Reading the stream of a finalized result: the redirect file when
    there is a path, the empty text otherwise; the world only gains the
    file object opened for the read. *)
Lemma read_stream_closed `{Host} `{OS} (encoding : string)
    (path : option string) (s : option nat) (w : World) :
  object_closed w s = true ->
  path_readable w path = true ->
  exists text w',
    ExecutionResult._read_stream encoding path s w = Ret (Some text) w'
    /\ grows w w'.
Proof.
  intros Hclosed Hreadable.
  destruct (truthy path) eqn:Htruthy.
  - destruct path as [[|c p]|]; try discriminate.
    unfold path_readable in Hreadable. rewrite Htruthy in Hreadable.
    cbn in Hreadable. apply bool_decide_eq_true_1 in Hreadable as [raw Hraw].
    rewrite (read_stream_file _ _ raw) by (discriminate || assumption).
    eexists _, _. split; [reflexivity|]. eexists. reflexivity.
  - unfold ExecutionResult._read_stream. rewrite Htruthy.
    unfold bind. rewrite (is_open_closed _ _ Hclosed).
    exists EmptyString, w. split; [destruct s; reflexivity | apply grows_refl].
Qed.

Lemma finalized_streams (r : ExecutionResult.t) (w : World) :
  finalized r w = true ->
  exists code po,
    ExecutionResult.rc r = Some code
    /\ popens w !! ExecutionResult._process r = Some po
    /\ object_closed w (Popen.stdin po) = true
    /\ object_closed w (Popen.stdout po) = true
    /\ object_closed w (Popen.stderr po) = true
    /\ forallb (object_closed w) (map Some (ExecutionResult._custom_streams r)) = true.
Proof.
  unfold finalized, owned_streams.
  destruct (ExecutionResult.rc r) as [code|]; [|discriminate].
  destruct (popens w !! ExecutionResult._process r) as [po|]; [|discriminate].
  cbn [app forallb]. rewrite !andb_true_iff.
  intros (Hin & Hout & Herr & Hcustom). exists code, po. auto 10.
Qed.

Lemma set_stdout_cached (r : ExecutionResult.t) (v : string) :
  ExecutionResult._stdout r = Some v -> ExecutionResult.set__stdout (Some v) r = r.
Proof. destruct r. cbn. now intros ->. Qed.

Lemma set_stderr_cached (r : ExecutionResult.t) (v : string) :
  ExecutionResult._stderr r = Some v -> ExecutionResult.set__stderr (Some v) r = r.
Proof. destruct r. cbn. now intros ->. Qed.

(** The [stdout] property on a finalized result returns a text and
    leaves it cached. *)
Lemma stdout_finalized `{Host} `{OS} (r : ExecutionResult.t) (w : World) :
  finalized r w = true ->
  path_readable w (ExecutionResult.stdout_path r) = true ->
  exists text w',
    ExecutionResult.stdout (r, w)
    = Ret (Some text) (ExecutionResult.set__stdout (Some text) r, w')
    /\ grows w w'.
Proof.
  intros Hfinal Hreadable.
  destruct (finalized_streams _ _ Hfinal) as (code & po & _ & Hpo & _ & Hout & _).
  unfold ExecutionResult.stdout, bind, ExecutionResult.self, gets. cbn [fst].
  destruct (ExecutionResult._stdout r) as [v|] eqn:Hcached.
  - exists v, w. rewrite (set_stdout_cached _ _ Hcached).
    split; [reflexivity | apply grows_refl].
  - destruct (read_stream_closed (ExecutionResult._output_encoding r) _ _ _
                Hout Hreadable) as (text & w' & Hread & Hgrows).
    exists text, w'. split; [|exact Hgrows].
    unfold ExecutionResult._read_stdout, bind, ExecutionResult.self, gets,
      on_snd, get_popen.
    cbn [fst snd]. rewrite Hpo. cbn [fst snd]. rewrite Hread. reflexivity.
Qed.

Lemma stderr_finalized `{Host} `{OS} (r : ExecutionResult.t) (w : World) :
  finalized r w = true ->
  path_readable w (ExecutionResult.stderr_path r) = true ->
  exists text w',
    ExecutionResult.stderr (r, w)
    = Ret (Some text) (ExecutionResult.set__stderr (Some text) r, w')
    /\ grows w w'.
Proof.
  intros Hfinal Hreadable.
  destruct (finalized_streams _ _ Hfinal) as (code & po & _ & Hpo & _ & _ & Herr & _).
  unfold ExecutionResult.stderr, bind, ExecutionResult.self, gets. cbn [fst].
  destruct (ExecutionResult._stderr r) as [v|] eqn:Hcached.
  - exists v, w. rewrite (set_stderr_cached _ _ Hcached).
    split; [reflexivity | apply grows_refl].
  - destruct (read_stream_closed (ExecutionResult._output_encoding r) _ _ _
                Herr Hreadable) as (text & w' & Hread & Hgrows).
    exists text, w'. split; [|exact Hgrows].
    unfold ExecutionResult._read_stderr, bind, ExecutionResult.self, gets,
      on_snd, get_popen.
    cbn [fst snd]. rewrite Hpo. cbn [fst snd]. rewrite Hread. reflexivity.
Qed.







(* ================================================================== *)
(** * Reasoning about effects *)
(* ================================================================== *)

Section Respects.
Context {S : Type} (P : S -> S -> Prop).
Hypothesis P_refl : forall s, P s s.
Hypothesis P_trans : forall s1 s2 s3, P s1 s2 -> P s2 s3 -> P s1 s3.

Lemma respects_ret {A} (a : A) : respects P (ret a).
Proof. intros s. apply P_refl. Qed.

Lemma respects_raise {A} (e : exn) : respects P (@raise S A e).
Proof. intros s. apply P_refl. Qed.

Lemma respects_diverge {A} : respects P (@diverge S A).
Proof. intros s. exact I. Qed.

Lemma respects_get : respects P (@get S).
Proof. intros s. apply P_refl. Qed.

Lemma respects_gets {A} (f : S -> A) : respects P (gets f).
Proof. intros s. apply P_refl. Qed.

Lemma respects_lift {A} (r : exn + A) : respects P (@lift S A r).
Proof. destruct r; [apply respects_raise | apply respects_ret]. Qed.

Lemma respects_modify (f : S -> S) :
  (forall s, P s (f s)) -> respects P (modify f).
Proof. intros Hf s. apply Hf. Qed.

Lemma respects_bind {A B} (m : M S A) (k : A -> M S B) :
  respects P m -> (forall a, respects P (k a)) -> respects P (bind m k).
Proof.
  intros Hm Hk s. unfold bind. specialize (Hm s).
  destruct (m s) as [a s'|e s'|]; [|exact Hm|exact I].
  specialize (Hk a s'). destruct (k a s'); eauto.
Qed.

Lemma respects_try_except {A} (m : M S A) (h : exn -> option (M S A)) :
  respects P m ->
  (forall e handler, h e = Some handler -> respects P handler) ->
  respects P (try_except m h).
Proof.
  intros Hm Hh s. unfold try_except. specialize (Hm s).
  destruct (m s) as [a s'|e s'|]; [exact Hm| |exact I].
  destruct (h e) as [handler|] eqn:He; [|exact Hm].
  specialize (Hh e handler He s'). destruct (handler s'); eauto.
Qed.

Lemma respects_try_finally {A} (m : M S A) (fin : M S unit) :
  respects P m -> respects P fin -> respects P (try_finally m fin).
Proof.
  intros Hm Hfin s. unfold try_finally. specialize (Hm s).
  destruct (m s) as [a s'|e s'|]; [| |exact I].
  - pose proof (respects_bind fin (fun _ => ret a) Hfin
                  (fun _ => respects_ret a) s') as Hb.
    destruct ((fin ;;; ret a) s'); eauto.
  - pose proof (respects_bind (B:=A) fin (fun _ => raise e) Hfin
                  (fun _ => respects_raise e) s') as Hb.
    destruct ((fin ;;; @raise S A e) s'); eauto.
Qed.
End Respects.

Lemma total_ret {S A} (a : A) : total (@ret S A a).
Proof. intros s. discriminate. Qed.

Lemma total_raise {S A} (e : exn) : total (@raise S A e).
Proof. intros s. discriminate. Qed.

Lemma total_get {S} : total (@get S).
Proof. intros s. discriminate. Qed.

Lemma total_gets {S A} (f : S -> A) : total (gets f).
Proof. intros s. discriminate. Qed.

Lemma total_modify {S} (f : S -> S) : total (modify f).
Proof. intros s. discriminate. Qed.

Lemma total_lift {S A} (r : exn + A) : total (@lift S A r).
Proof. destruct r; [apply total_raise | apply total_ret]. Qed.

Lemma total_bind {S A B} (m : M S A) (k : A -> M S B) :
  total m -> (forall a, total (k a)) -> total (bind m k).
Proof.
  intros Hm Hk s. unfold bind. specialize (Hm s).
  destruct (m s) as [a s'|e s'|]; [apply Hk|discriminate|congruence].
Qed.

Lemma total_try_except {S A} (m : M S A) (h : exn -> option (M S A)) :
  total m ->
  (forall e handler, h e = Some handler -> total handler) ->
  total (try_except m h).
Proof.
  intros Hm Hh s. unfold try_except. specialize (Hm s).
  destruct (m s) as [a s'|e s'|]; [discriminate| |congruence].
  destruct (h e) as [handler|] eqn:He; [|discriminate].
  apply (Hh e handler He).
Qed.

Lemma total_try_finally {S A} (m : M S A) (fin : M S unit) :
  total m -> total fin -> total (try_finally m fin).
Proof.
  intros Hm Hfin s. unfold try_finally. specialize (Hm s).
  destruct (m s) as [a s'|e s'|]; [| |congruence].
  - apply (total_bind fin (fun _ => ret a) Hfin (fun _ => total_ret a)).
  - apply (total_bind (B:=A) fin (fun _ => raise e) Hfin
             (fun _ => total_raise e)).
Qed.

Lemma same_popens_refl (w : World) : same_popens w w.
Proof. reflexivity. Qed.

Lemma same_popens_trans (w1 w2 w3 : World) :
  same_popens w1 w2 -> same_popens w2 w3 -> same_popens w1 w3.
Proof. unfold same_popens. congruence. Qed.

Lemma same_siglog_refl (w : World) : same_siglog w w.
Proof. reflexivity. Qed.

Lemma same_siglog_trans (w1 w2 w3 : World) :
  same_siglog w1 w2 -> same_siglog w2 w3 -> same_siglog w1 w3.
Proof. unfold same_siglog. congruence. Qed.

(** Steps of a proof that a piece of straight-line code is total or
    respects a relation that is reflexive and transitive. *)
Ltac effect_step refl trans :=
  first
    [ apply respects_ret; exact refl
    | apply respects_raise; exact refl
    | apply respects_get; exact refl
    | apply respects_gets; exact refl
    | apply respects_lift; exact refl
    | apply respects_bind; [exact trans | | ]
    | apply respects_try_except; [exact trans | | ]
    | apply respects_try_finally; [exact refl | exact trans | | ]
    | apply respects_modify; intros ?; reflexivity
    | apply total_ret
    | apply total_raise
    | apply total_get
    | apply total_gets
    | apply total_modify
    | apply total_lift
    | apply total_bind
    | apply total_try_except
    | apply total_try_finally
    | match goal with
      | |- forall _, _ => intro
      end
    | match goal with
      | |- context [if ?b then _ else _] => destruct b
      | |- context [match ?x with _ => _ end] => destruct x
      end ].

Ltac effects refl trans := repeat effect_step refl trans.

(* ================================================================== *)
(** * Starting a process under an alias that is taken *)
(* ================================================================== *)

Lemma new_object_same_popens (f : FileObj.t) :
  respects same_popens (new_object f) /\ total (new_object f).
Proof. split; intros w; [reflexivity | discriminate]. Qed.

Lemma open_w_same_popens `{OS} (path : string) :
  respects same_popens (open_w path) /\ total (open_w path).
Proof.
  unfold open_w.
  split; effects same_popens_refl same_popens_trans;
    try first [ apply new_object_same_popens ].
Qed.

Lemma open_r_same_popens (path : string) :
  respects same_popens (open_r path) /\ total (open_r path).
Proof.
  unfold open_r.
  split; effects same_popens_refl same_popens_trans;
    try first [ apply new_object_same_popens ].
Qed.

Lemma new_stream_same_popens `{Host} `{OS} (cwd : string) (name : option string) :
  respects same_popens (ProcessConfiguration._new_stream cwd name)
  /\ total (ProcessConfiguration._new_stream cwd name).
Proof.
  unfold ProcessConfiguration._new_stream.
  split; effects same_popens_refl same_popens_trans;
    try first [ apply open_w_same_popens | apply new_object_same_popens ].
Qed.

Lemma get_stderr_same_popens `{Host} `{OS} (cwd : string)
    (stderr stdout : option string) (stdout_stream : stream) :
  respects same_popens
    (ProcessConfiguration._get_stderr cwd stderr stdout stdout_stream)
  /\ total (ProcessConfiguration._get_stderr cwd stderr stdout stdout_stream).
Proof.
  unfold ProcessConfiguration._get_stderr.
  split; effects same_popens_refl same_popens_trans;
    try first [ apply new_stream_same_popens | apply open_w_same_popens
              | apply new_object_same_popens ].
Qed.

Lemma get_stdin_same_popens `{Host} (cwd encoding : string) (stdin : stdin_arg) :
  respects same_popens (ProcessConfiguration._get_stdin cwd encoding stdin)
  /\ total (ProcessConfiguration._get_stdin cwd encoding stdin).
Proof.
  unfold ProcessConfiguration._get_stdin, ProcessConfiguration.stdin_from_text,
    temporary_file.
  split; effects same_popens_refl same_popens_trans;
    try first [ apply open_r_same_popens | apply new_object_same_popens ].
Qed.

Lemma get_initial_env_same_popens `{Host} (env : option pydict) (extra : pydict) :
  respects same_popens (ProcessConfiguration._get_initial_env env extra)
  /\ total (ProcessConfiguration._get_initial_env env extra).
Proof.
  unfold ProcessConfiguration._get_initial_env.
  split; effects same_popens_refl same_popens_trans.
Qed.

Lemma construct_env_same_popens `{Host} (env : option pydict) (extra : pydict) :
  respects same_popens (ProcessConfiguration._construct_env env extra)
  /\ total (ProcessConfiguration._construct_env env extra).
Proof.
  unfold ProcessConfiguration._construct_env,
    ProcessConfiguration._get_initial_env.
  split; effects same_popens_refl same_popens_trans;
    try first [ apply new_object_same_popens ].
Qed.

Lemma config_init_same_popens `{Host} `{OS} (kw : ProcessConfiguration.kwargs) :
  respects same_popens (ProcessConfiguration.__init__ kw)
  /\ total (ProcessConfiguration.__init__ kw).
Proof.
  unfold ProcessConfiguration.__init__.
  split; effects same_popens_refl same_popens_trans;
    try first [ apply new_stream_same_popens | apply get_stderr_same_popens
              | apply get_stdin_same_popens | apply construct_env_same_popens
              | apply get_initial_env_same_popens | apply open_w_same_popens
              | apply open_r_same_popens | apply new_object_same_popens ].
Qed.

Lemma config_init_alias `{Host} `{OS} (kw : ProcessConfiguration.kwargs)
    (w w' : World) (conf : ProcessConfiguration.t) :
  ProcessConfiguration.__init__ kw w = Ret conf w' ->
  ProcessConfiguration.alias conf = ProcessConfiguration.kw_alias kw.
Proof.
  unfold ProcessConfiguration.__init__, bind.
  destruct (ProcessConfiguration._new_stream _ _ w) as [so w1|e w1|];
    [|discriminate..].
  destruct (ProcessConfiguration._get_stderr _ _ _ _ w1) as [se w2|e w2|];
    [|discriminate..].
  destruct (ProcessConfiguration._get_stdin _ _ _ w2) as [si w3|e w3|];
    [|discriminate..].
  destruct (ProcessConfiguration._construct_env _ _ w3) as [env w4|e w4|];
    [|discriminate..].
  unfold ret. intros Heq. inversion Heq. reflexivity.
Qed.

Lemma new_pipe_same_popens (s : option stream) :
  respects same_popens (new_pipe s) /\ total (new_pipe s).
Proof.
  unfold new_pipe.
  split; effects same_popens_refl same_popens_trans;
    try first [ apply new_object_same_popens ].
Qed.

(** Spawning adds one process at the end of the table, or fails and
    leaves the table as it is. *)
Lemma spawn_outcome `{OS} (cmd : command) (stdin stdout stderr : option stream)
    (w : World) :
  match spawn cmd stdin stdout stderr w with
  | Ret p w' =>
      p = length (popens w) /\ exists po, popens w' = (popens w ++ [po])%list
  | Raise _ w' => popens w' = popens w
  | Diverge => False
  end.
Proof.
  unfold spawn. unfold bind at 1, get at 1.
  destruct (os_spawn_fails w cmd); [reflexivity|].
  unfold bind.
  pose proof (proj1 (new_pipe_same_popens stdin) w) as H1.
  pose proof (proj2 (new_pipe_same_popens stdin) w) as T1.
  destruct (new_pipe stdin w) as [i w1|e w1|]; [|exact H1|congruence].
  pose proof (proj1 (new_pipe_same_popens stdout) w1) as H2.
  pose proof (proj2 (new_pipe_same_popens stdout) w1) as T2.
  destruct (new_pipe stdout w1) as [o w2|e w2|];
    [|unfold same_popens in *; congruence|congruence].
  pose proof (proj1 (new_pipe_same_popens stderr) w2) as H3.
  pose proof (proj2 (new_pipe_same_popens stderr) w2) as T3.
  destruct (new_pipe stderr w2) as [e' w3|e' w3|];
    [|unfold same_popens in *; congruence|congruence].
  unfold same_popens in *. cbn [popens set_popens].
  rewrite H3, H2, H1. split; [reflexivity|]. eexists. reflexivity.
Qed.

Lemma result_init_outcome (process : nat) (stdout stderr stdin : option stream)
    (encoding : string) (w : World) :
  match ExecutionResult.__init__ process stdout stderr stdin encoding w with
  | Ret _ w' => w' = w
  | Raise _ w' => w' = w
  | Diverge => False
  end.
Proof.
  assert (Hpath : forall s w0,
             match ExecutionResult._get_path s w0 with
             | Ret _ w' => w' = w0
             | Raise _ w' => w' = w0
             | Diverge => False
             end).
  { intros [[| |id]|] w0; cbn; try reflexivity.
    destruct (objects w0 !! id); reflexivity. }
  unfold ExecutionResult.__init__, bind.
  pose proof (Hpath stdout w) as H1.
  destruct (ExecutionResult._get_path stdout w) as [p1 w1|e w1|];
    [subst w1|exact H1|exact H1].
  pose proof (Hpath stderr w) as H2.
  destruct (ExecutionResult._get_path stderr w) as [p2 w2|e w2|];
    [subst w2|exact H2|exact H2].
  reflexivity.
Qed.

Lemma unaffected_after_spawn (st : Process.t) (cache : ConnectionCache.t)
    (results : gmap nat ExecutionResult.t) (w' : World) (po : Popen.t)
    (r : ExecutionResult.t) :
  popens w' = (popens (Process.world st) ++ [po])%list ->
  (results = Process._results st
   \/ results = <[length (popens (Process.world st)) := r]> (Process._results st)) ->
  processes_unaffected st (Process.mk cache results w').
Proof.
  intros Hpopens Hresults q po' Hq. cbn [Process.world Process._results].
  split.
  - rewrite Hpopens. now apply lookup_app_l_Some.
  - destruct Hresults as [->| ->]; [reflexivity|].
    apply lookup_insert_ne. apply lookup_lt_Some in Hq. lia.
Qed.

Lemma unaffected_same_popens (st : Process.t) (w' : World) :
  popens w' = popens (Process.world st) ->
  processes_unaffected st (Process.mk (Process._processes st)
                                      (Process._results st) w').
Proof.
  intros Hpopens q po Hq. cbn [Process.world Process._results].
  rewrite Hpopens. split; [exact Hq | reflexivity].
Qed.

(** [start_process] returns only after a successful registration; when
    it raises, the registry and the processes started before are as they
    were. *)
Lemma start_process_outcome `{Host} `{OS} (cmd : string) (arguments : list string)
    (kw : ProcessConfiguration.kwargs) (st : Process.t) :
  match Process.start_process cmd arguments kw st with
  | Ret p st' =>
      exists cache,
        ConnectionCache.register (Process._processes st) p
          (ProcessConfiguration.kw_alias kw) = inr cache
  | Raise e st' =>
      Process._processes st' = Process._processes st
      /\ processes_unaffected st st'
      /\ (forall conf w1 p w2 r w3,
            ProcessConfiguration.__init__ kw (Process.world st) = Ret conf w1 ->
            spawn (ProcessConfiguration.get_command conf cmd arguments)
              (ProcessConfiguration.stdin_stream conf)
              (Some (ProcessConfiguration.stdout_stream conf))
              (Some (ProcessConfiguration.stderr_stream conf)) w1
            = Ret p w2 ->
            ExecutionResult.__init__ p
              (Some (ProcessConfiguration.stdout_stream conf))
              (Some (ProcessConfiguration.stderr_stream conf))
              (ProcessConfiguration.stdin_stream conf)
              (ProcessConfiguration.output_encoding conf) w2
            = Ret r w3 ->
            exists a,
              ProcessConfiguration.kw_alias kw = Some a
              /\ e = RuntimeError ("Alias '" ++ a ++ "' is already in use.")
              /\ Process.world st' = w3
              /\ Process._results st' = <[p := r]> (Process._results st))
  | Diverge => False
  end.
Proof.
  unfold Process.start_process.
  unfold bind at 1, Process.in_world at 1.
  pose proof (proj1 (config_init_same_popens kw) (Process.world st)) as Hc.
  pose proof (proj2 (config_init_same_popens kw) (Process.world st)) as Tc.
  pose proof (config_init_alias kw (Process.world st)) as Halias.
  destruct (ProcessConfiguration.__init__ kw (Process.world st))
    as [conf w1|e w1|]; [| |congruence].
  2:{ cbv beta iota. cbn [Process._processes Process._results Process.world].
      split; [reflexivity|]. split; [now apply unaffected_same_popens|].
      intros. discriminate. }
  specialize (Halias w1 conf eq_refl).
  unfold bind at 1, Process.in_world at 1. cbn [Process.world].
  pose proof (spawn_outcome (ProcessConfiguration.get_command conf cmd arguments)
                (ProcessConfiguration.stdin_stream conf)
                (Some (ProcessConfiguration.stdout_stream conf))
                (Some (ProcessConfiguration.stderr_stream conf)) w1) as Hs.
  destruct (spawn _ _ _ _ w1) as [p w2|e w2|] eqn:Hspawn; [| |contradiction].
  2:{ cbv beta iota. cbn [Process._processes Process._results Process.world].
      split; [reflexivity|].
      split; [apply unaffected_same_popens; unfold same_popens in Hc; congruence|].
      intros conf' w1' p' w2' r' w3' Heq1 Heq2 _.
      inversion Heq1. subst. congruence. }
  destruct Hs as [Hp [po Hpo]]. unfold same_popens in Hc. rewrite Hc in Hp, Hpo.
  unfold bind at 1, Process.in_world at 1. cbn [Process.world].
  pose proof (result_init_outcome p
                (Some (ProcessConfiguration.stdout_stream conf))
                (Some (ProcessConfiguration.stderr_stream conf))
                (ProcessConfiguration.stdin_stream conf)
                (ProcessConfiguration.output_encoding conf) w2) as Hr.
  destruct (ExecutionResult.__init__ _ _ _ _ _ w2) as [r w3|e w3|] eqn:Hinit;
    [subst w3|subst w3|contradiction].
  2:{ cbv beta iota. cbn [Process._processes Process._results Process.world].
      split; [reflexivity|].
      split; [eapply (unaffected_after_spawn st _ _ w2 po
                        (ExecutionResult.mk 0 None None None "" None None []));
              [exact Hpo | left; reflexivity]|].
      intros conf' w1' p' w2' r' w3' Heq1 Heq2 Heq3.
      inversion Heq1. subst. rewrite Hspawn in Heq2. inversion Heq2. subst.
      congruence. }
  unfold bind, modify, get, lift. cbn [Process._processes Process._results Process.world].
  rewrite Halias.
  destruct (ConnectionCache.register (Process._processes st) p
              (ProcessConfiguration.kw_alias kw)) as [e|cache] eqn:Hreg.
  - cbn [raise]. split; [reflexivity|].
    split; [eapply (unaffected_after_spawn st _ _ w2 po r);
            [exact Hpo | right; now rewrite Hp]|].
    intros conf' w1' p' w2' r' w3' Heq1 Heq2 Heq3.
    inversion Heq1. subst conf' w1'. rewrite Hspawn in Heq2.
    inversion Heq2. subst p' w2'. rewrite Hinit in Heq3.
    inversion Heq3. subst r' w3'.
    unfold ConnectionCache.register in Hreg.
    destruct (ProcessConfiguration.kw_alias kw) as [a|]; [|discriminate].
    destruct (ConnectionCache.aliases (Process._processes st) !! a);
      [|discriminate].
    inversion Hreg. exists a. cbn. auto.
  - cbn [ret]. cbn [Process._processes Process._results Process.world].
    assert (ConnectionCache.current cache = Some p) as ->.
    { unfold ConnectionCache.register in Hreg.
      destruct (ProcessConfiguration.kw_alias kw) as [a|].
      - destruct (ConnectionCache.aliases (Process._processes st) !! a);
          [discriminate|]. now inversion Hreg.
      - now inversion Hreg. }
    exists cache. exact Hreg.
Qed.


Lemma get_process_inv (h : handle) (st st' : Process.t) (p : nat) :
  Process.get_process h st = Ret p st' ->
  ConnectionCache.get_connection (Process._processes st) h = inr p /\ st' = st.
Proof.
  unfold Process.get_process, bind, get, lift.
  destruct (ConnectionCache.get_connection (Process._processes st) h);
    cbn; intros Heq; inversion Heq; auto.
Qed.

Lemma get_process_intro (h : handle) (st : Process.t) (p : nat) :
  ConnectionCache.get_connection (Process._processes st) h = inr p ->
  Process.get_process h st = Ret p st.
Proof.
  intros Hget. unfold Process.get_process, bind, get, lift. now rewrite Hget.
Qed.

(** C7: starting a process under an alias that already names a tracked
    process raises; when the configuration resolves and the process
    spawns, the error is the one of the registration, raised after the
    spawn; the registry is as before, so that the alias still names the
    first process, and every process started before keeps its state and
    its result. *)
Theorem start_process_duplicate_alias (host : Host) (os : OS)
    (cmd : string) (arguments : list string) (kw : ProcessConfiguration.kwargs)
    (st : Process.t) (a : string) (first : nat) :
  ProcessConfiguration.kw_alias kw = Some a ->
  Process.get_process (HandleAlias a) st = Ret first st ->
  exists e st',
    Process.start_process cmd arguments kw st = Raise e st'
    /\ Process._processes st' = Process._processes st
    /\ Process.get_process (HandleAlias a) st' = Ret first st'
    /\ processes_unaffected st st'
    /\ (forall conf w1 p w2 r w3,
          ProcessConfiguration.__init__ kw (Process.world st) = Ret conf w1 ->
          spawn (ProcessConfiguration.get_command conf cmd arguments)
            (ProcessConfiguration.stdin_stream conf)
            (Some (ProcessConfiguration.stdout_stream conf))
            (Some (ProcessConfiguration.stderr_stream conf)) w1
          = Ret p w2 ->
          ExecutionResult.__init__ p
            (Some (ProcessConfiguration.stdout_stream conf))
            (Some (ProcessConfiguration.stderr_stream conf))
            (ProcessConfiguration.stdin_stream conf)
            (ProcessConfiguration.output_encoding conf) w2
          = Ret r w3 ->
          e = RuntimeError ("Alias '" ++ a ++ "' is already in use.")
          /\ Process.world st' = w3).
Proof.
  intros Halias Hfirst.
  apply get_process_inv in Hfirst as [Hfirst _].
  pose proof (start_process_outcome cmd arguments kw st) as Hout.
  destruct (Process.start_process cmd arguments kw st) as [p st'|e st'|];
    [| |contradiction].
  - exfalso. destruct Hout as [cache Hreg].
    rewrite Halias in Hreg. unfold ConnectionCache.register in Hreg.
    cbn [ConnectionCache.get_connection] in Hfirst.
    destruct (ConnectionCache.aliases (Process._processes st) !! a);
      discriminate.
  - destruct Hout as (Hregistry & Hunaffected & Herror).
    exists e, st'. split; [reflexivity|]. split; [exact Hregistry|].
    split.
    { apply get_process_intro. rewrite Hregistry. exact Hfirst. }
    split; [exact Hunaffected|].
    intros conf w1 p w2 r w3 Hconf Hspawn Hinit.
    destruct (Herror conf w1 p w2 r w3 Hconf Hspawn Hinit)
      as (a' & Ha' & He & Hw & _).
    rewrite Halias in Ha'. inversion Ha'. subst a'. auto.
Qed.

Lemma start_process_duplicate_alias_witness :
  let st := @started posix_host example_os (with_alias "first" default_kwargs) in
  let kw := with_alias "first" default_kwargs in
  ProcessConfiguration.kw_alias kw = Some "first"
  /\ Process.get_process (HandleAlias "first") st = Ret 0%nat st
  /\ exists e st',
       @Process.start_process posix_host example_os "other" [] kw st = Raise e st'
       /\ Process._processes st' = Process._processes st
       /\ Process.get_process (HandleAlias "first") st' = Ret 0%nat st'.
Proof.
  cbn zeta. split; [reflexivity|]. split; [vm_compute; reflexivity|].
  destruct (start_process_duplicate_alias posix_host example_os "other" []
              (with_alias "first" default_kwargs)
              (@started posix_host example_os (with_alias "first" default_kwargs))
              "first" 0%nat eq_refl)
    as (e & st' & Hraise & Hregistry & Hfirst & _).
  - vm_compute. reflexivity.
  - exists e, st'. auto.
Defined.


(* ================================================================== *)
(** * Polling a process *)
(* ================================================================== *)

Lemma never_raises_ret {S A} (e0 : exn) (a : A) : never_raises e0 (@ret S A a).
Proof. intros s e s' Heq. discriminate. Qed.

Lemma never_raises_raise {S A} (e0 e : exn) :
  e <> e0 -> never_raises e0 (@raise S A e).
Proof. intros Hne s e' s' Heq. inversion Heq. now subst. Qed.

Lemma never_raises_bind {S A B} (e0 : exn) (m : M S A) (k : A -> M S B) :
  never_raises e0 m -> (forall a, never_raises e0 (k a)) ->
  never_raises e0 (bind m k).
Proof.
  intros Hm Hk s e s'. unfold bind.
  destruct (m s) as [a s1|e1 s1|] eqn:Hms.
  - apply Hk.
  - intros Heq. inversion Heq. subst. eapply Hm, Hms.
  - discriminate.
Qed.

Lemma never_raises_modify {S} (e0 : exn) (f : S -> S) :
  never_raises e0 (modify f).
Proof. intros s e s' Heq. discriminate. Qed.

Lemma never_raises_gets {S A} (e0 : exn) (f : S -> A) : never_raises e0 (gets f).
Proof. intros s e s' Heq. discriminate. Qed.

Lemma never_raises_get {S} (e0 : exn) : never_raises e0 (@get S).
Proof. intros s e s' Heq. discriminate. Qed.

Lemma never_raises_in_world {A} (e0 : exn) (m : M World A) :
  never_raises e0 m -> never_raises e0 (Process.in_world m).
Proof.
  intros Hm st e st'. unfold Process.in_world.
  destruct (m (Process.world st)) as [a w|e1 w|] eqn:Hms; try discriminate.
  intros Heq. inversion Heq. subst. eapply Hm, Hms.
Qed.

Lemma get_popen_outcome (p : nat) (w : World) :
  match get_popen p w with
  | Ret po w' => w' = w /\ popens w !! p = Some po
  | Raise e w' => w' = w /\ e = KeyError
  | Diverge => False
  end.
Proof. unfold get_popen. destruct (popens w !! p); auto. Qed.

(** What [poll] gives: a return code only for a process seen to have
    ended, [None] only when the operating system says that it runs, and
    then nothing has changed. *)
Lemma poll_outcome `{OS} (p : nat) (w : World) :
  match poll p w with
  | Ret (Some _) w' =>
      confirmed_stopped w' p /\ siglog w' = siglog w /\ clock w' = clock w
  | Ret None w' => w' = w /\ os_exit_status w p = None
  | Raise e w' => w' = w /\ e = KeyError
  | Diverge => False
  end.
Proof.
  unfold poll. unfold bind at 1.
  pose proof (get_popen_outcome p w) as Hpo.
  destruct (get_popen p w) as [po w'|e w'|]; [|exact Hpo|exact Hpo].
  destruct Hpo as [-> Hpo].
  destruct (Popen.returncode po) as [code|] eqn:Hcode.
  - unfold ret. split; [|split; reflexivity]. exists po, code. auto.
  - unfold bind, get.
    destruct (os_exit_status w p) as [code|] eqn:Hstatus.
    + unfold update_popen, bind, modify, ret.
      split; [|split; reflexivity].
      exists (Popen.set_returncode (Some code) po), code.
      split; [|reflexivity].
      cbn [popens set_popens]. rewrite list_lookup_alter_eq, Hpo. reflexivity.
    + unfold ret. auto.
Qed.

Lemma stopped_outcome `{Host} `{OS} (p : nat) (w : World) :
  match Process.stopped p w with
  | Ret true w' =>
      confirmed_stopped w' p /\ siglog w' = siglog w /\ clock w' = clock w
  | Ret false w' => w' = w /\ os_exit_status w p = None
  | Raise e w' => w' = w /\ e = KeyError
  | Diverge => False
  end.
Proof.
  unfold Process.stopped, bind. pose proof (poll_outcome p w) as Hpoll.
  destruct (poll p w) as [[code|] w'|e w'|]; exact Hpoll.
Qed.

Lemma sleep_outcome (d : Z) (w : World) :
  0 <= d -> sleep d w = Ret tt (set_clock (clock w + d) w).
Proof.
  intros Hd. unfold sleep. destruct (d <? 0) eqn:Hneg; [lia|reflexivity].
Qed.

Lemma stopped_loop_step `{Host} `{OS} (fuel : nat) (p : nat)
    (timeout max_time : Z) (w : World) :
  Process.stopped_loop (S fuel) p timeout max_time w
  = if clock w <=? max_time then
      match Process.stopped p w with
      | Ret s w' =>
          if negb s then
            match sleep (Z.min 100 timeout) w' with
            | Ret _ w'' => Process.stopped_loop fuel p timeout max_time w''
            | Raise e w'' => Raise e w''
            | Diverge => Diverge
            end
          else Ret tt w'
      | Raise e w' => Raise e w'
      | Diverge => Diverge
      end
    else Ret tt w.
Proof.
  cbn [Process.stopped_loop]. unfold bind at 1, time, gets.
  destruct (clock w <=? max_time); [|reflexivity].
  unfold bind at 1. destruct (Process.stopped p w) as [[|] w'|e w'|];
    reflexivity.
Qed.

(** The polling loop stops: with a positive timeout, [k] rounds are
    enough when the deadline is less than [k] milliseconds away, and more
    fuel changes nothing.  It delivers no signal. *)
Lemma stopped_loop_terminates `{Host} `{OS} (p : nat) (timeout max_time : Z) :
  0 < timeout ->
  forall (k : nat) (w : World) (fuel : nat),
    max_time - clock w < Z.of_nat k ->
    (k < fuel)%nat ->
    Process.stopped_loop fuel p timeout max_time w
    = Process.stopped_loop (S k) p timeout max_time w
    /\ match Process.stopped_loop (S k) p timeout max_time w with
       | Ret _ w' => siglog w' = siglog w
       | Raise e w' => siglog w' = siglog w /\ e = KeyError
       | Diverge => False
       end.
Proof.
  intros Htimeout. induction k as [|k IH]; intros w fuel Hclock Hfuel.
  - destruct fuel as [|fuel]; [lia|].
    rewrite !stopped_loop_step.
    assert ((clock w <=? max_time) = false) as -> by lia.
    split; reflexivity.
  - destruct fuel as [|fuel]; [lia|].
    rewrite (stopped_loop_step fuel), (stopped_loop_step (S k)).
    destruct (clock w <=? max_time) eqn:Hnow; [|split; reflexivity].
    pose proof (stopped_outcome p w) as Hstopped.
    destruct (Process.stopped p w) as [[|] w'|e w'|].
    + cbn [negb]. destruct Hstopped as (_ & Hsig & _). auto.
    + destruct Hstopped as [-> _]. cbn [negb].
      rewrite sleep_outcome by lia.
      assert (Hclock' : max_time - clock (set_clock (clock w + Z.min 100 timeout) w)
                        < Z.of_nat k) by (cbn; lia).
      destruct (IH _ fuel Hclock' ltac:(lia)) as [Hfuel' Hout].
      rewrite Hfuel'. split; [reflexivity|]. exact Hout.
    + destruct Hstopped as [-> ->]. auto.
    + contradiction.
Qed.

(** [_process_is_stopped] with a positive timeout answers within
    [polling_rounds timeout] rounds, and more fuel gives the same answer;
    the answer [true] is given for a process seen to have ended, the
    answer [false] when the operating system says, at the time of the
    answer, that the process runs; no signal is delivered. *)
Lemma process_is_stopped_terminates `{Host} `{OS} (p : nat) (timeout : Z)
    (w : World) (fuel : nat) :
  0 < timeout ->
  (polling_rounds timeout <= fuel)%nat ->
  Process._process_is_stopped fuel p timeout w
  = Process._process_is_stopped (polling_rounds timeout) p timeout w
  /\ match Process._process_is_stopped fuel p timeout w with
     | Ret true w' => confirmed_stopped w' p /\ siglog w' = siglog w
     | Ret false w' => os_exit_status w' p = None /\ siglog w' = siglog w
     | Raise e w' => siglog w' = siglog w /\ e = KeyError
     | Diverge => False
     end.
Proof.
  intros Htimeout Hfuel. unfold polling_rounds in *.
  unfold Process._process_is_stopped. unfold bind at 1 3 5, time, gets.
  assert (Hclock : clock w + timeout - clock w < Z.of_nat (S (Z.to_nat timeout)))
    by lia.
  destruct (stopped_loop_terminates p timeout (clock w + timeout) Htimeout
              _ w fuel Hclock ltac:(lia)) as [Hsame Hout].
  unfold bind. rewrite Hsame. split; [reflexivity|]. clear Hsame.
  destruct (Process.stopped_loop (S (S (Z.to_nat timeout))) p timeout
              (clock w + timeout) w)
    as [[] w1|e w1|]; [| |contradiction].
  - pose proof (stopped_outcome p w1) as Hstopped.
    destruct (Process.stopped p w1) as [[|] w2|e w2|].
    + destruct Hstopped as (Hconf & Hsig & _). split; [exact Hconf|congruence].
    + destruct Hstopped as [-> Hstatus]. auto.
    + destruct Hstopped as [-> ->]. auto.
    + contradiction.
  - exact Hout.
Qed.

Lemma sleep_cases (d : Z) (w : World) :
  (exists e, sleep d w = Raise e w /\ e <> TimeoutExceeded)
  \/ sleep d w = Ret tt (set_clock (clock w + d) w).
Proof.
  unfold sleep. destruct (d <? 0); [left|right; reflexivity].
  eexists. split; [reflexivity | discriminate].
Qed.

(** Whatever the fuel, polling delivers no signal and does not raise
    Robot's timeout. *)
Lemma stopped_loop_quiet `{Host} `{OS} (p : nat) (timeout max_time : Z)
    (fuel : nat) :
  forall w,
    match Process.stopped_loop fuel p timeout max_time w with
    | Ret _ w' => siglog w' = siglog w
    | Raise e w' => siglog w' = siglog w /\ e <> TimeoutExceeded
    | Diverge => True
    end.
Proof.
  induction fuel as [|fuel IH]; intros w; [exact I|].
  rewrite stopped_loop_step.
  destruct (clock w <=? max_time); [|reflexivity].
  pose proof (stopped_outcome p w) as Hstopped.
  destruct (Process.stopped p w) as [[|] w'|e w'|].
  - cbn [negb]. apply Hstopped.
  - destruct Hstopped as [-> _]. cbn [negb].
    destruct (sleep_cases (Z.min 100 timeout) w) as [(e & -> & He)| ->].
    + auto.
    + apply (IH (set_clock (clock w + Z.min 100 timeout) w)).
  - destruct Hstopped as [-> ->]. split; [reflexivity|discriminate].
  - exact I.
Qed.

Lemma process_is_stopped_quiet `{Host} `{OS} (fuel : nat) (p : nat)
    (timeout : Z) (w : World) :
  match Process._process_is_stopped fuel p timeout w with
  | Ret true w' => confirmed_stopped w' p /\ siglog w' = siglog w
  | Ret false w' => os_exit_status w' p = None /\ siglog w' = siglog w
  | Raise e w' => siglog w' = siglog w /\ e <> TimeoutExceeded
  | Diverge => True
  end.
Proof.
  unfold Process._process_is_stopped. unfold bind at 1, time, gets.
  unfold bind.
  pose proof (stopped_loop_quiet p timeout (clock w + timeout) fuel w) as Hloop.
  destruct (Process.stopped_loop fuel p timeout (clock w + timeout) w)
    as [[] w1|e w1|]; [|exact Hloop|exact I].
  pose proof (stopped_outcome p w1) as Hstopped.
  destruct (Process.stopped p w1) as [[|] w2|e w2|].
  - destruct Hstopped as (Hconf & Hsig & _). split; [exact Hconf|congruence].
  - destruct Hstopped as [-> Hstatus]. auto.
  - destruct Hstopped as [-> ->]. split; [exact Hloop|discriminate].
  - exact I.
Qed.

Lemma deliver_outcome `{OS} (p : nat) (sig : signal) (group : bool) (w : World) :
  deliver p sig group w = Raise OSError w
  \/ deliver p sig group w = Ret tt (set_siglog ((p, sig, group) :: siglog w) w).
Proof.
  unfold deliver, bind, get. destruct (os_signal_fails w p sig); auto.
Qed.

Lemma signalled_same_siglog (w w' : World) (p : nat) (sig : signal) :
  siglog w' = siglog w -> signalled w' p sig = signalled w p sig.
Proof. unfold signalled. now intros ->. Qed.

Lemma signalled_delivered (w : World) (p : nat) (group : bool) :
  signalled (set_siglog ((p, SIGKILL, group) :: siglog w) w) p SIGKILL = true.
Proof. unfold signalled. cbn. now rewrite Nat.eqb_refl. Qed.

(** [_kill] returns only for a process seen to have ended; where
    [os.killpg] exists, the kill signal has then been delivered to the
    process group.  It does not raise Robot's timeout. *)
Lemma kill_outcome `{Host} `{OS} (fuel : nat) (p : nat) (w : World) :
  match Process._kill fuel p w with
  | Ret _ w' =>
      confirmed_stopped w' p
      /\ (has_killpg = true -> siglog w' = (p, SIGKILL, true) :: siglog w)
  | Raise e w' => e <> TimeoutExceeded
  | Diverge => True
  end.
Proof.
  unfold Process._kill. unfold bind at 1.
  assert (Hrest : forall w1,
             (has_killpg = true -> siglog w1 = (p, SIGKILL, true) :: siglog w) ->
             match
               (s <- Process._process_is_stopped fuel p Process.KILL_TIMEOUT ;;
                if negb s then raise (RuntimeError "Failed to kill process.")
                else ret tt) w1
             with
             | Ret _ w' =>
                 confirmed_stopped w' p
                 /\ (has_killpg = true ->
                     siglog w' = (p, SIGKILL, true) :: siglog w)
             | Raise e w' => e <> TimeoutExceeded
             | Diverge => True
             end).
  { intros w1 Hsig. unfold bind.
    pose proof (process_is_stopped_quiet fuel p Process.KILL_TIMEOUT w1) as Hq.
    destruct (Process._process_is_stopped fuel p Process.KILL_TIMEOUT w1)
      as [[|] w2|e w2|].
    - cbn [negb]. unfold ret. destruct Hq as [Hconf Hsame].
      split; [exact Hconf|]. intros Hk. rewrite Hsame. auto.
    - cbn [negb]. unfold raise. discriminate.
    - apply Hq.
    - exact I. }
  destruct has_killpg eqn:Hkillpg.
  - unfold killpg.
    destruct (deliver_outcome p SIGKILL true w) as [-> | ->];
      [discriminate|].
    apply Hrest. reflexivity.
  - unfold send_signal. unfold bind at 1.
    pose proof (poll_outcome p w) as Hpoll.
    destruct (poll p w) as [[code|] w1|e w1|].
    + unfold ret. apply Hrest. discriminate.
    + destruct Hpoll as [-> _].
      destruct (deliver_outcome p SIGKILL false w) as [-> | ->];
        [discriminate|].
      apply Hrest. discriminate.
    + destruct Hpoll as [-> ->]. discriminate.
    + exact I.
Qed.

(* ================================================================== *)
(** * Code that cannot raise Robot's timeout *)
(* ================================================================== *)

Lemma never_raises_lift {S A} (e0 : exn) (r : exn + A) :
  match r with inl e => e <> e0 | inr _ => True end ->
  never_raises e0 (@lift S A r).
Proof.
  destruct r as [e|a]; intros He.
  - now apply never_raises_raise.
  - apply never_raises_ret.
Qed.

Lemma never_raises_try_except {S A} (e0 : exn) (m : M S A)
    (h : exn -> option (M S A)) :
  never_raises e0 m ->
  (forall e handler, h e = Some handler -> never_raises e0 handler) ->
  never_raises e0 (try_except m h).
Proof.
  intros Hm Hh s e s'. unfold try_except.
  destruct (m s) as [a s1|e1 s1|] eqn:Hms; try discriminate.
  destruct (h e1) as [handler|] eqn:He1.
  - apply (Hh _ _ He1).
  - intros Heq. inversion Heq. subst. eapply Hm, Hms.
Qed.

Lemma never_raises_try_finally {S A} (e0 : exn) (m : M S A) (fin : M S unit) :
  never_raises e0 m -> never_raises e0 fin ->
  never_raises e0 (try_finally m fin).
Proof.
  intros Hm Hfin s e s'. unfold try_finally.
  destruct (m s) as [a s1|e1 s1|] eqn:Hms; try discriminate.
  - apply (never_raises_bind e0 fin (fun _ => ret a) Hfin
             (fun _ => never_raises_ret e0 a)).
  - unfold bind. destruct (fin s1) as [[] s2|e2 s2|] eqn:Hfs; try discriminate.
    + intros Heq. inversion Heq. subst. eapply Hm, Hms.
    + intros Heq. inversion Heq. subst. eapply Hfin, Hfs.
Qed.

Lemma never_raises_on_snd {S1 A} (e0 : exn) (m : M World A) :
  never_raises e0 m -> never_raises e0 (@on_snd S1 World A m).
Proof.
  intros Hm s e s'. unfold on_snd.
  destruct (m (snd s)) as [a w|e1 w|] eqn:Hms; try discriminate.
  intros Heq. inversion Heq. subst. eapply Hm, Hms.
Qed.

Lemma never_raises_on_result {A} (e0 : exn) (p : nat)
    (m : M ExecutionResult.self_world A) :
  e0 <> KeyError ->
  never_raises e0 m -> never_raises e0 (Process.on_result p m).
Proof.
  intros Hkey Hm st e st'. unfold Process.on_result.
  destruct (Process._results st !! p) as [r|].
  - destruct (m (r, Process.world st)) as [a rw|e1 rw|] eqn:Hms;
      try discriminate.
    intros Heq. inversion Heq. subst. eapply Hm, Hms.
  - intros Heq. inversion Heq. subst. auto.
Qed.

Lemma never_raises_get_popen (p : nat) : never_raises TimeoutExceeded (get_popen p).
Proof.
  intros w e w'. unfold get_popen. destruct (popens w !! p); try discriminate.
  intros Heq. inversion Heq. discriminate.
Qed.

Lemma never_raises_is_closed (id : nat) :
  never_raises TimeoutExceeded (is_closed id).
Proof.
  intros w e w'. unfold is_closed. destruct (objects w !! id); try discriminate.
  intros Heq. inversion Heq. discriminate.
Qed.

Lemma never_raises_is_open (s : option nat) :
  never_raises TimeoutExceeded (ExecutionResult._is_open s).
Proof.
  destruct s as [id|]; cbn [ExecutionResult._is_open].
  - apply never_raises_bind; [apply never_raises_is_closed|].
    intros c. apply never_raises_ret.
  - apply never_raises_ret.
Qed.

Lemma never_raises_new_object (f : FileObj.t) :
  never_raises TimeoutExceeded (new_object f).
Proof. intros w e w'. discriminate. Qed.

Lemma never_raises_read `{OS} (id : nat) : never_raises TimeoutExceeded (read id).
Proof.
  intros w e w'. unfold read.
  destruct (objects w !! id) as [f|];
    [|intros Heq; inversion Heq; discriminate].
  destruct (FileObj.closed f); [intros Heq; inversion Heq; discriminate|].
  destruct (FileObj.is_pipe f); [|discriminate].
  destruct (os_pipe_read w id); [discriminate|].
  intros Heq. inversion Heq. discriminate.
Qed.

Lemma never_raises_get_result (p : nat) :
  never_raises TimeoutExceeded (Process.get_result p).
Proof.
  intros st e st'. unfold Process.get_result.
  destruct (Process._results st !! p); try discriminate.
  intros Heq. inversion Heq. discriminate.
Qed.

(** Steps of a proof that straight-line code does not raise
    [TimeoutExceeded]. *)
Ltac quiet_step :=
  first
    [ apply never_raises_ret
    | apply never_raises_raise; discriminate
    | apply never_raises_get
    | apply never_raises_gets
    | apply never_raises_modify
    | apply never_raises_get_popen
    | apply never_raises_is_closed
    | apply never_raises_is_open
    | apply never_raises_new_object
    | apply never_raises_read
    | apply never_raises_get_result
    | apply never_raises_in_world
    | apply never_raises_on_snd
    | apply never_raises_on_result; [discriminate|]
    | apply never_raises_try_finally
    | apply never_raises_try_except
    | apply never_raises_bind
    | match goal with
      | |- forall _, _ => intro
      end
    | match goal with
      | H : except_IOError _ ?e = Some _ |- _ =>
          destruct e; try discriminate H; inversion H; subst; clear H
      end
    | match goal with
      | |- context [if ?b then _ else _] => destruct b
      | |- context [match ?x with _ => _ end] => destruct x
      end ].

Ltac quiet := repeat quiet_step.

Lemma never_raises_read_stream `{Host} `{OS} (encoding : string)
    (path : option string) (s : option nat) :
  never_raises TimeoutExceeded (ExecutionResult._read_stream encoding path s).
Proof. unfold ExecutionResult._read_stream, ExecutionResult.read_content. quiet. Qed.

Lemma never_raises_read_stdout `{Host} `{OS} :
  never_raises TimeoutExceeded ExecutionResult._read_stdout.
Proof.
  unfold ExecutionResult._read_stdout, ExecutionResult.self,
    ExecutionResult.update.
  quiet; apply never_raises_read_stream.
Qed.

Lemma never_raises_read_stderr `{Host} `{OS} :
  never_raises TimeoutExceeded ExecutionResult._read_stderr.
Proof.
  unfold ExecutionResult._read_stderr, ExecutionResult.self,
    ExecutionResult.update.
  quiet; apply never_raises_read_stream.
Qed.

Lemma never_raises_close_open `{OS} (streams : list (option nat)) :
  never_raises TimeoutExceeded (ExecutionResult.close_open streams).
Proof.
  induction streams as [|s streams IH]; cbn [ExecutionResult.close_open].
  - apply never_raises_ret.
  - unfold ExecutionResult._is_open, close_if_some, close.
    quiet; exact IH.
Qed.

Lemma never_raises_close_streams `{Host} `{OS} :
  never_raises TimeoutExceeded ExecutionResult.close_streams.
Proof.
  unfold ExecutionResult.close_streams,
    ExecutionResult._get_and_read_standard_streams, ExecutionResult.self,
    ExecutionResult._is_open.
  quiet;
    first [ apply never_raises_read_stream | apply never_raises_close_open ].
Qed.

Lemma never_raises_forget_closed_stdin `{Host} `{OS} (p : nat) :
  never_raises TimeoutExceeded (Process.forget_closed_stdin p).
Proof. unfold Process.forget_closed_stdin, update_popen. quiet. Qed.

(* ================================================================== *)
(** * Cancellation while draining *)
(* ================================================================== *)

Lemma in_world_outcome {A} (m : M World A) (st : Process.t) :
  match Process.in_world m st with
  | Ret a st' =>
      m (Process.world st) = Ret a (Process.world st')
      /\ Process._processes st' = Process._processes st
      /\ Process._results st' = Process._results st
  | Raise e st' =>
      m (Process.world st) = Raise e (Process.world st')
      /\ Process._processes st' = Process._processes st
      /\ Process._results st' = Process._results st
  | Diverge => m (Process.world st) = Diverge
  end.
Proof.
  unfold Process.in_world. destruct (m (Process.world st)); cbn; auto.
Qed.

(** Storing the drained output in the result object does not fail when
    there is a result object. *)
Lemma store_output_outcome `{Host} `{OS} (p : nat) (outs : option bytes * option bytes)
    (st : Process.t) :
  match Process.on_result p
          (ExecutionResult.set_stdout (fst outs) ;;;
           ExecutionResult.set_stderr (snd outs)) st with
  | Ret _ _ => True
  | Raise e st' => e = KeyError
  | Diverge => False
  end.
Proof.
  unfold Process.on_result. destruct (Process._results st !! p); exact I || reflexivity.
Qed.

(** One round of the drain loop. *)
Lemma wait_loop_step `{Host} `{OS} (kfuel fuel : nat) (p : nat) (st : Process.t) :
  Process.wait_loop kfuel (S fuel) p st
  = match Process.in_world (communicate p) st with
    | Ret outs st1 =>
        Process.on_result p
          (ExecutionResult.set_stdout (fst outs) ;;;
           ExecutionResult.set_stderr (snd outs)) st1
    | Raise TimeoutExpired st1 => Process.wait_loop kfuel fuel p st1
    | Raise TimeoutExceeded st1 =>
        match Process.in_world (Process._kill kfuel p) st1 with
        | Ret _ st2 => Raise TimeoutExceeded st2
        | Raise e st2 => Raise e st2
        | Diverge => Diverge
        end
    | Raise e st1 => Raise e st1
    | Diverge => Diverge
    end.
Proof.
  cbn [Process.wait_loop]. unfold try_except. unfold bind at 1.
  destruct (Process.in_world (communicate p) st) as [outs st1|e st1|];
    [|destruct e; reflexivity|reflexivity].
  pose proof (store_output_outcome p outs st1) as Hstore.
  destruct (Process.on_result p _ st1) as [[] st2|e st2|];
    [reflexivity|subst e; reflexivity|contradiction].
Qed.

Lemma communicate_cancelled `{OS} (p : nat) (w : World) :
  os_cancelled w = true -> communicate p w = Raise TimeoutExceeded w.
Proof. intros Hc. unfold communicate, bind, get. now rewrite Hc. Qed.

(** When the cancellation leaves the drain loop, the process has been
    seen to have ended after a kill, and the library has not touched its
    registry or its result objects. *)
Lemma wait_loop_cancelled `{Host} `{OS} (kfuel : nat) (p : nat) (fuel : nat) :
  forall st st',
    Process.wait_loop kfuel fuel p st = Raise TimeoutExceeded st' ->
    confirmed_stopped (Process.world st') p
    /\ (has_killpg = true -> signalled (Process.world st') p SIGKILL = true)
    /\ Process._processes st' = Process._processes st
    /\ Process._results st' = Process._results st.
Proof.
  induction fuel as [|fuel IH]; intros st st'; [discriminate|].
  rewrite wait_loop_step.
  pose proof (in_world_outcome (communicate p) st) as Hcomm.
  destruct (Process.in_world (communicate p) st) as [outs st1|e st1|];
    [|destruct e; try discriminate|discriminate].
  - pose proof (store_output_outcome p outs st1) as Hstore.
    destruct (Process.on_result p _ st1) as [[] st2|e st2|]; try discriminate.
    intros Heq. inversion Heq. subst. discriminate.
  - intros Hloop. destruct Hcomm as (_ & Hprocs & Hresults).
    destruct (IH st1 st' Hloop) as (Hconf & Hsig & Hp & Hr).
    repeat split; auto; congruence.
  - destruct Hcomm as (_ & Hprocs & Hresults).
    pose proof (in_world_outcome (Process._kill kfuel p) st1) as Hkill.
    destruct (Process.in_world (Process._kill kfuel p) st1) as [[] st2|e st2|];
      try discriminate.
    + intros Heq. inversion Heq. subst st2.
      destruct Hkill as (Hkill & Hp & Hr).
      pose proof (kill_outcome kfuel p (Process.world st1)) as Hout.
      rewrite Hkill in Hout. destruct Hout as [Hconf Hsig].
      split; [exact Hconf|]. split; [|split; congruence].
      intros Hk. unfold signalled. rewrite (Hsig Hk). cbn.
      now rewrite Nat.eqb_refl.
    + intros Heq. inversion Heq. subst e st2.
      destruct Hkill as (Hkill & _).
      pose proof (kill_outcome kfuel p (Process.world st1)) as Hout.
      rewrite Hkill in Hout. congruence.
Qed.

Lemma never_raises_wait_rest `{Host} `{OS} (p : nat) :
  never_raises TimeoutExceeded
    (po <- Process.in_world (get_popen p) ;;
     Process.on_result p (ExecutionResult.update
                            (ExecutionResult.set_rc (Popen.returncode po))) ;;;
     Process.on_result p ExecutionResult.close_streams ;;;
     Process.get_result p).
Proof.
  apply never_raises_bind;
    [apply never_raises_in_world, never_raises_get_popen|].
  intros po. apply never_raises_bind.
  { apply never_raises_on_result; [discriminate|].
    unfold ExecutionResult.update. apply never_raises_modify. }
  intros _. apply never_raises_bind.
  { apply never_raises_on_result; [discriminate|].
    apply never_raises_close_streams. }
  intros _. apply never_raises_get_result.
Qed.

Lemma wait_cancelled `{Host} `{OS} (fuel : nat) (p : nat) (st st' : Process.t) :
  Process._wait fuel p st = Raise TimeoutExceeded st' ->
  confirmed_stopped (Process.world st') p
  /\ (has_killpg = true -> signalled (Process.world st') p SIGKILL = true)
  /\ Process._processes st' = Process._processes st
  /\ Process._results st' = Process._results st.
Proof.
  unfold Process._wait. unfold bind at 1.
  destruct (Process.get_result p st) as [r st0|e st0|] eqn:Hget;
    [|intros Heq; inversion Heq; subst;
      now apply never_raises_get_result in Hget|discriminate].
  assert (st0 = st) as ->.
  { unfold Process.get_result in Hget.
    destruct (Process._results st !! p); now inversion Hget. }
  unfold bind at 1.
  pose proof (in_world_outcome (Process.forget_closed_stdin p) st) as Hforget.
  destruct (Process.in_world (Process.forget_closed_stdin p) st)
    as [[] st1|e st1|] eqn:Hf; [| |discriminate].
  2:{ intros Heq. inversion Heq. subst.
      apply (never_raises_in_world _ _ (never_raises_forget_closed_stdin p)) in Hf.
      congruence. }
  destruct Hforget as (_ & Hp1 & Hr1).
  unfold bind at 1.
  destruct (Process.wait_loop fuel fuel p st1) as [[] st2|e st2|] eqn:Hloop;
    [| |discriminate].
  - intros Hrest. now apply never_raises_wait_rest in Hrest.
  - intros Heq. inversion Heq. subst e st2.
    destruct (wait_loop_cancelled fuel p fuel st1 st' Hloop)
      as (Hconf & Hsig & Hp & Hr).
    repeat split; auto; congruence.
Qed.

(** C2 (as amended): when Robot's timeout is raised by a drain call of
    [_wait], [_kill] runs before anything propagates and no result is
    returned: if [_kill] returns, [TimeoutExceeded] is raised again, and
    if [_kill] itself raises (the signal cannot be delivered, or the
    process is not seen to end within the kill timeout), that error
    propagates in its place.  Whenever [TimeoutExceeded] leaves the loop
    or [_wait], the process has been seen to have ended, after the kill
    signal where [os.killpg] exists, and the result objects are
    untouched. *)
Theorem wait_cancelled_kills (host : Host) (os : OS)
    (kfuel fuel : nat) (p : nat) (st : Process.t) :
  (os_cancelled (Process.world st) = true ->
   Process.wait_loop kfuel (S fuel) p st
   = match Process.in_world (Process._kill kfuel p) st with
     | Ret _ st' => Raise TimeoutExceeded st'
     | Raise e st' => Raise e st'
     | Diverge => Diverge
     end)
  /\ (forall st',
        Process.wait_loop kfuel fuel p st = Raise TimeoutExceeded st'
        \/ Process._wait fuel p st = Raise TimeoutExceeded st' ->
        confirmed_stopped (Process.world st') p
        /\ (has_killpg = true -> signalled (Process.world st') p SIGKILL = true)
        /\ Process._processes st' = Process._processes st
        /\ Process._results st' = Process._results st).
Proof.
  split.
  - intros Hcancel. rewrite wait_loop_step.
    unfold Process.in_world at 1.
    rewrite (communicate_cancelled _ _ Hcancel). reflexivity.
  - intros st' [Hloop|Hwait].
    + exact (wait_loop_cancelled kfuel p fuel st st' Hloop).
    + exact (wait_cancelled fuel p st st' Hwait).
Qed.

Lemma wait_cancelled_kills_witness :
  let st := @started posix_host cancelling_os default_kwargs in
  @os_cancelled cancelling_os (Process.world st) = true
  /\ exists st',
       @Process._wait posix_host cancelling_os 150 0%nat st
       = Raise TimeoutExceeded st'
       /\ confirmed_stopped (Process.world st') 0%nat
       /\ signalled (Process.world st') 0%nat SIGKILL = true
       /\ Process._results st' = Process._results st.
Proof.
  cbn zeta. split; [reflexivity|].
  eexists. split; [vm_compute; reflexivity|].
  match goal with
  | |- confirmed_stopped (Process.world ?st') _ /\ _ =>
      destruct (proj2 (wait_cancelled_kills posix_host cancelling_os 150 150
                         0%nat (@started posix_host cancelling_os default_kwargs))
                  st')
        as (Hconf & Hsig & _ & Hres);
      [right; vm_compute; reflexivity|]
  end.
  split; [exact Hconf|]. split; [exact (Hsig eq_refl) | exact Hres].
Defined.

(** C2 as stated fails when the kill does not succeed: with a process
    that does not end on SIGKILL within the kill timeout, [_wait] raises
    the [RuntimeError] of [_kill] in place of the cancellation, and the
    process is still running. *)
Lemma wait_cancelled_unkillable_counterexample :
  let st := @started posix_host unkillable_os default_kwargs in
  @os_cancelled unkillable_os (Process.world st) = true
  /\ exists st',
       @Process._wait posix_host unkillable_os 150 0%nat st
       = Raise (RuntimeError "Failed to kill process.") st'
       /\ @Process._wait posix_host unkillable_os 150 0%nat st
          <> Raise TimeoutExceeded st'
       /\ signalled (Process.world st') 0%nat SIGKILL = true
       /\ @os_exit_status unkillable_os (Process.world st') 0%nat = None.
Proof.
  cbn zeta. split; [reflexivity|].
  eexists. split; [vm_compute; reflexivity|].
  split; [vm_compute; discriminate|].
  split; vm_compute; reflexivity.
Qed.

(* ================================================================== *)
(** * Waiting for a process *)
(* ================================================================== *)

Lemma get_timeout_ignored `{Host} `{OS} (timeout : timeout_arg) :
  ignored_timeout timeout ->
  exists t, Process._get_timeout timeout = inr t /\ t <= 0.
Proof.
  unfold Process._get_timeout.
  intros [->|[(s & -> & Hs)|[->|(t & Ht & Hle)]]].
  - exists (-1000). split; [reflexivity|lia].
  - exists (-1000). rewrite Hs. split; [reflexivity|lia].
  - exists (-1000). split; [reflexivity|lia].
  - destruct (_ || _).
    + exists (-1000). split; [reflexivity|lia].
    + exists t. auto.
Qed.

Lemma wait_for_process_untimed `{Host} `{OS} (fuel : nat) (h : handle)
    (timeout : timeout_arg) (on_timeout : string) (st : Process.t) (t : Z) :
  Process._get_timeout timeout = inr t ->
  t <= 0 ->
  Process.wait_for_process fuel h timeout on_timeout st
  = (process <- Process.get_process h ;;
     r <- Process._wait fuel process ;;
     ret (Some r)) st.
Proof.
  intros Ht Hle. unfold Process.wait_for_process. rewrite Ht.
  unfold bind, lift, ret.
  destruct (Process.get_process h st) as [p st0|e st0|]; try reflexivity.
  assert ((0 <? t) = false) as -> by lia. reflexivity.
Qed.

Lemma communicate_running `{OS} (p : nat) (w : World) (po : Popen.t) :
  os_cancelled w = false ->
  os_exit_status w p = None ->
  popens w !! p = Some po ->
  Popen.returncode po = None ->
  communicate p w = Raise TimeoutExpired (set_clock (clock w + 100) w).
Proof.
  intros Hcancel Hstatus Hpo Hrc.
  unfold communicate, bind, get. rewrite Hcancel.
  unfold poll, bind, get_popen, get. rewrite Hpo, Hrc, Hstatus.
  reflexivity.
Qed.

(** While the process runs and Robot's timeout does not fire, the drain
    loop goes on, whatever the fuel. *)
Lemma wait_loop_diverges `{Host} `{OS} (kfuel : nat) (p : nat) (fuel : nat)
    (log : list (nat * signal * bool)) :
  (forall w, siglog w = log -> os_exit_status w p = None) ->
  (forall w, os_cancelled w = false) ->
  forall st po,
    siglog (Process.world st) = log ->
    popens (Process.world st) !! p = Some po ->
    Popen.returncode po = None ->
    Process.wait_loop kfuel fuel p st = Diverge.
Proof.
  intros Hstatus Hcancel.
  induction fuel as [|fuel IH]; intros st po Hlog Hpo Hrc; [reflexivity|].
  rewrite wait_loop_step. unfold Process.in_world at 1.
  rewrite (communicate_running p _ po (Hcancel _) (Hstatus _ Hlog) Hpo Hrc).
  apply (IH _ po); [exact Hlog | exact Hpo | exact Hrc].
Qed.

Lemma forget_closed_stdin_running `{Host} `{OS} (p : nat) (st : Process.t) :
  running st p ->
  exists w' po',
    Process.forget_closed_stdin p (Process.world st) = Ret tt w'
    /\ siglog w' = siglog (Process.world st)
    /\ popens w' !! p = Some po'
    /\ Popen.returncode po' = None.
Proof.
  intros (po & r & Hpo & Hrc & _ & Hstdin).
  unfold Process.forget_closed_stdin, bind, get_popen. rewrite Hpo.
  destruct (Popen.stdin po) as [i|].
  - destruct Hstdin as [f Hf]. unfold is_closed. rewrite Hf.
    destruct (FileObj.closed f).
    + unfold update_popen, modify. eexists _, _.
      split; [reflexivity|]. split; [reflexivity|]. cbn [popens set_popens].
      rewrite list_lookup_alter_eq, Hpo. split; [reflexivity|exact Hrc].
    + exists (Process.world st), po. auto.
  - exists (Process.world st), po. auto.
Qed.

(** [_wait] has no deadline of its own: on a process that keeps running
    as long as no further signal is delivered, it does not return,
    whatever the fuel. *)
Lemma wait_diverges `{Host} `{OS} (fuel : nat) (p : nat) (st : Process.t) :
  (forall w, siglog w = siglog (Process.world st) -> os_exit_status w p = None) ->
  (forall w, os_cancelled w = false) ->
  running st p ->
  Process._wait fuel p st = Diverge.
Proof.
  intros Hstatus Hcancel Hrunning.
  destruct (forget_closed_stdin_running p st Hrunning)
    as (w' & po' & Hforget & Hlog & Hpo' & Hrc').
  destruct Hrunning as (po & r & _ & _ & Hr & _).
  unfold Process._wait. unfold bind at 1, Process.get_result. rewrite Hr.
  unfold bind at 1, Process.in_world at 1. rewrite Hforget.
  unfold bind at 1.
  now rewrite (wait_loop_diverges fuel p fuel _ Hstatus Hcancel _ po').
Qed.

Lemma manage_process_timeout_dispatch `{Host} `{OS} (fuel : nat) (h : handle)
    (on_timeout : string) (st : Process.t) :
  Process._manage_process_timeout fuel h on_timeout st
  = if String.eqb on_timeout "terminate" then
      (r <- Process.terminate_process fuel h false ;; ret (Some r)) st
    else if String.eqb on_timeout "kill" then
      (r <- Process.terminate_process fuel h true ;; ret (Some r)) st
    else Ret None st.
Proof.
  unfold Process._manage_process_timeout.
  destruct (String.eqb on_timeout "terminate"); [reflexivity|].
  destruct (String.eqb on_timeout "kill"); reflexivity.
Qed.

(** With a positive timeout, [wait_for_process] polls, and when the
    polling answers that the process has not stopped, it hands over to
    [_manage_process_timeout] with the lower-cased policy. *)
Lemma wait_for_process_timed `{Host} `{OS} (fuel : nat) (h : handle)
    (timeout : timeout_arg) (on_timeout : string) (st : Process.t)
    (p : nat) (t : Z) :
  Process.get_process h st = Ret p st ->
  Process._get_timeout timeout = inr t ->
  0 < t ->
  (polling_rounds t <= fuel)%nat ->
  Process.in_world (Process._process_is_stopped fuel p t) st <> Diverge
  /\ forall st1,
       Process.in_world (Process._process_is_stopped fuel p t) st = Ret false st1 ->
       Process.wait_for_process fuel h timeout on_timeout st
       = Process._manage_process_timeout fuel h (lower on_timeout) st1
       /\ os_exit_status (Process.world st1) p = None
       /\ siglog (Process.world st1) = siglog (Process.world st)
       /\ Process._processes st1 = Process._processes st
       /\ Process._results st1 = Process._results st.
Proof.
  intros Hget Ht Hpos Hfuel.
  destruct (process_is_stopped_terminates p t (Process.world st) fuel Hpos Hfuel)
    as [_ Hout].
  pose proof (in_world_outcome (Process._process_is_stopped fuel p t) st) as Hin.
  split.
  - destruct (Process.in_world (Process._process_is_stopped fuel p t) st);
      [discriminate|discriminate|].
    rewrite Hin in Hout. contradiction.
  - intros st1 Hpoll. rewrite Hpoll in Hin. destruct Hin as (Hw & Hp & Hr).
    rewrite Hw in Hout. destruct Hout as [Hstatus Hsig].
    split; [|auto].
    unfold Process.wait_for_process. unfold bind at 1. rewrite Hget, Ht.
    unfold bind at 1, lift, ret at 1.
    assert ((0 <? t) = true) as -> by lia.
    unfold bind at 1. rewrite Hpoll. reflexivity.
Qed.

(** C10: with a positive timeout and a policy whose lower-case form is
    neither terminate nor kill, the polling comes to an end, and when it
    finds the process still running, [wait_for_process] returns [None]
    without raising: no signal has been delivered, the operating system
    still reports the process as running, and registry and results are
    as they were. *)
Theorem unknown_on_timeout_continues (host : Host) (os : OS)
    (fuel : nat) (h : handle) (timeout : timeout_arg) (on_timeout : string)
    (st : Process.t) (p : nat) (t : Z) :
  Process.get_process h st = Ret p st ->
  Process._get_timeout timeout = inr t ->
  0 < t ->
  (polling_rounds t <= fuel)%nat ->
  lower on_timeout <> "terminate" ->
  lower on_timeout <> "kill" ->
  Process.in_world (Process._process_is_stopped fuel p t) st <> Diverge
  /\ forall st1,
       Process.in_world (Process._process_is_stopped fuel p t) st = Ret false st1 ->
       Process.wait_for_process fuel h timeout on_timeout st = Ret None st1
       /\ os_exit_status (Process.world st1) p = None
       /\ siglog (Process.world st1) = siglog (Process.world st)
       /\ Process._processes st1 = Process._processes st
       /\ Process._results st1 = Process._results st.
Proof.
  intros Hget Ht Hpos Hfuel Hterm Hkill.
  destruct (wait_for_process_timed fuel h timeout on_timeout st p t
              Hget Ht Hpos Hfuel) as [Hends Hhand].
  split; [exact Hends|].
  intros st1 Hpoll. destruct (Hhand st1 Hpoll) as (Hwait & Hrest).
  split; [|exact Hrest].
  rewrite Hwait, manage_process_timeout_dispatch.
  apply String.eqb_neq in Hterm, Hkill. now rewrite Hterm, Hkill.
Qed.

Lemma unknown_on_timeout_continues_witness :
  let st := @started posix_host endless_os default_kwargs in
  Process.get_process HandleNone st = Ret 0%nat st
  /\ @Process._get_timeout posix_host (TStr "1") = inr 1000
  /\ 0 < 1000
  /\ (polling_rounds 1000 <= 1002)%nat
  /\ lower "Abort" <> "terminate"
  /\ lower "Abort" <> "kill"
  /\ exists st1,
       @Process.wait_for_process posix_host endless_os 1002 HandleNone
         (TStr "1") "Abort" st
       = Ret None st1
       /\ siglog (Process.world st1) = []
       /\ clock (Process.world st1) = 1100.
Proof.
  cbn zeta.
  assert (Hget : Process.get_process HandleNone
                   (@started posix_host endless_os default_kwargs)
                 = Ret 0%nat (@started posix_host endless_os default_kwargs))
    by (vm_compute; reflexivity).
  assert (Ht : @Process._get_timeout posix_host (TStr "1") = inr 1000)
    by reflexivity.
  assert (Hfuel : (polling_rounds 1000 <= 1002)%nat) by (vm_compute; lia).
  assert (Hterm : lower "Abort" <> "terminate") by discriminate.
  assert (Hkill : lower "Abort" <> "kill") by discriminate.
  do 2 (split; [assumption|]). split; [lia|]. do 3 (split; [assumption|]).
  destruct (unknown_on_timeout_continues posix_host endless_os 1002 HandleNone
              (TStr "1") "Abort" _ 0%nat 1000 Hget Ht ltac:(lia) Hfuel Hterm Hkill)
    as [_ Hcont].
  eexists. 
  match goal with
  | |- ?lhs = Ret None ?st1 /\ _ =>
      assert (Hpoll : Process.in_world
                        (@Process._process_is_stopped endless_os
                           1002 0%nat 1000)
                        (@started posix_host endless_os default_kwargs)
                      = Ret false st1)
  end.
  { vm_compute. reflexivity. }
  destruct (Hcont _ Hpoll) as (Hwait & _ & Hsig & _).
  split; [exact Hwait|]. split; [exact Hsig|]. vm_compute. reflexivity.
Defined.

(** C1: a timeout that is [None], NONE in any case, zero, or zero or
    negative once parsed, makes [wait_for_process] the plain [_wait],
    whatever the policy, and [_wait] has no deadline: on a process that
    keeps running as long as no further signal is delivered, it does not
    return, however much fuel it gets.  With a
    positive timeout the polling comes to an end, and when it finds the
    process still running, the policy continue returns [None] and
    delivers no signal, terminate returns what [terminate_process] with
    [kill=False] returns, and kill what [terminate_process] with
    [kill=True] returns. *)
Theorem wait_for_process_timeout_policy (host : Host) (os : OS)
    (fuel : nat) (h : handle) (timeout : timeout_arg) (on_timeout : string)
    (st : Process.t) (p : nat) :
  Process.get_process h st = Ret p st ->
  (ignored_timeout timeout ->
   Process.wait_for_process fuel h timeout on_timeout st
   = (r <- Process._wait fuel p ;; ret (Some r)) st
   /\ ((forall w, siglog w = siglog (Process.world st) ->
                   os_exit_status w p = None) ->
       (forall w, os_cancelled w = false) ->
       running st p ->
       Process.wait_for_process fuel h timeout on_timeout st = Diverge))
  /\ (forall t,
        Process._get_timeout timeout = inr t ->
        0 < t ->
        (polling_rounds t <= fuel)%nat ->
        Process.in_world (Process._process_is_stopped fuel p t) st <> Diverge
        /\ forall st1,
             Process.in_world (Process._process_is_stopped fuel p t) st
             = Ret false st1 ->
             (lower on_timeout = "continue" ->
              Process.wait_for_process fuel h timeout on_timeout st = Ret None st1
              /\ siglog (Process.world st1) = siglog (Process.world st))
             /\ (lower on_timeout = "terminate" ->
                 Process.wait_for_process fuel h timeout on_timeout st
                 = (r <- Process.terminate_process fuel h false ;; ret (Some r)) st1)
             /\ (lower on_timeout = "kill" ->
                 Process.wait_for_process fuel h timeout on_timeout st
                 = (r <- Process.terminate_process fuel h true ;; ret (Some r)) st1)).
Proof.
  intros Hget. split.
  - intros Hignored.
    destruct (get_timeout_ignored timeout Hignored) as (t & Ht & Hle).
    assert (Hwait : Process.wait_for_process fuel h timeout on_timeout st
                    = (r <- Process._wait fuel p ;; ret (Some r)) st).
    { rewrite (wait_for_process_untimed fuel h timeout on_timeout st t Ht Hle).
      unfold bind at 1. now rewrite Hget. }
    split; [exact Hwait|].
    intros Hstatus Hcancel Hrunning. rewrite Hwait. unfold bind.
    now rewrite (wait_diverges fuel p st Hstatus Hcancel Hrunning).
  - intros t Ht Hpos Hfuel.
    destruct (wait_for_process_timed fuel h timeout on_timeout st p t
                Hget Ht Hpos Hfuel) as [Hends Hhand].
    split; [exact Hends|].
    intros st1 Hpoll. destruct (Hhand st1 Hpoll) as (Hwait & _ & Hsig & _).
    rewrite Hwait, manage_process_timeout_dispatch.
    split; [|split]; intros ->; [split; [reflexivity|exact Hsig] | reflexivity..].
Qed.

Lemma wait_for_process_timeout_policy_witness :
  let st := @started posix_host endless_os default_kwargs in
  Process.get_process HandleNone st = Ret 0%nat st
  /\ @ignored_timeout posix_host (TStr "none")
  /\ running st 0%nat
  /\ @Process.wait_for_process posix_host endless_os 25 HandleNone (TStr "none")
       "kill" st
     = Diverge
  /\ exists r st',
       @Process.wait_for_process posix_host endless_os 1002 HandleNone (TStr "1")
         "KILL" st
       = Ret (Some r) st'
       /\ ExecutionResult.rc r = Some (-9).
Proof.
  cbn zeta.
  assert (Hget : Process.get_process HandleNone
                   (@started posix_host endless_os default_kwargs)
                 = Ret 0%nat (@started posix_host endless_os default_kwargs))
    by (vm_compute; reflexivity).
  assert (Hignored : @ignored_timeout posix_host (TStr "none"))
    by (right; left; exists "none"; split; reflexivity).
  assert (Hrunning : running (@started posix_host endless_os default_kwargs) 0%nat).
  { eexists _, _. split; [vm_compute; reflexivity|].
    split; [reflexivity|]. split; [vm_compute; reflexivity|]. exact I. }
  split; [exact Hget|]. split; [exact Hignored|]. split; [exact Hrunning|].
  split.
  - destruct (wait_for_process_timeout_policy posix_host endless_os 25 HandleNone
                (TStr "none") "kill" _ 0%nat Hget) as [Huntimed _].
    destruct (Huntimed Hignored) as [_ Hdiverges].
    apply Hdiverges; [|reflexivity|exact Hrunning].
    intros w Hlog. cbn. unfold signalled. now rewrite Hlog.
  - destruct (wait_for_process_timeout_policy posix_host endless_os 1002 HandleNone
                (TStr "1") "KILL" _ 0%nat Hget) as [_ Htimed].
    destruct (Htimed 1000 eq_refl ltac:(lia) ltac:(vm_compute; lia))
      as [_ Hpolicy].
    eexists _, _. split; [vm_compute; reflexivity | reflexivity].
Defined.

(* ================================================================== *)
(** * What [_wait] leaves behind *)
(* ================================================================== *)

Lemma evolves_refl (w : World) : evolves w w.
Proof. split; [reflexivity|]. intros id f Hf. eauto. Qed.

Lemma evolves_trans (w1 w2 w3 : World) :
  evolves w1 w2 -> evolves w2 w3 -> evolves w1 w3.
Proof.
  intros [Hp1 Ho1] [Hp2 Ho2]. split; [congruence|].
  intros id f Hf. destruct (Ho1 id f Hf) as (f' & Hf' & Hc1).
  destruct (Ho2 id f' Hf') as (f'' & Hf'' & Hc2). eauto.
Qed.

Lemma evolves_close (id : nat) (w : World) :
  evolves w (set_objects (alter FileObj.close id (objects w)) w).
Proof.
  split; [reflexivity|]. intros id' f Hf. cbn [objects set_objects].
  destruct (decide (id = id')) as [->|Hne].
  - exists (FileObj.close f). rewrite list_lookup_alter_eq, Hf. auto.
  - exists f. rewrite list_lookup_alter_ne by exact Hne. auto.
Qed.

Lemma evolves_new_object (f : FileObj.t) (w : World) :
  evolves w (set_objects (objects w ++ [f]) w).
Proof.
  split; [reflexivity|]. intros id f' Hf'. exists f'.
  cbn [objects set_objects]. split; [now apply lookup_app_l_Some|auto].
Qed.

Lemma evolves_popens (w : World) (ps : list Popen.t) :
  popens w = ps -> evolves w (set_popens ps w).
Proof.
  intros <-. split; [reflexivity|]. intros id f Hf. exists f. auto.
Qed.

Lemma object_closed_evolves (w w' : World) (s : option nat) :
  evolves w w' -> object_closed w s = true -> object_closed w' s = true.
Proof.
  intros [_ Hobjects]. destruct s as [id|]; [|reflexivity].
  cbn. destruct (objects w !! id) as [f|] eqn:Hf; [|discriminate].
  destruct (Hobjects id f Hf) as (f' & -> & Hclosed). exact Hclosed.
Qed.

Lemma respects_evolves_close (id : nat) : respects evolves (close id).
Proof. intros w. apply evolves_close. Qed.

Lemma respects_evolves_new_object (f : FileObj.t) :
  respects evolves (new_object f).
Proof. intros w. apply evolves_new_object. Qed.

Lemma respects_evolves_is_closed (id : nat) : respects evolves (is_closed id).
Proof.
  intros w. unfold is_closed. destruct (objects w !! id); apply evolves_refl.
Qed.

Lemma respects_evolves_get_popen (p : nat) : respects evolves (get_popen p).
Proof.
  intros w. unfold get_popen. destruct (popens w !! p); apply evolves_refl.
Qed.

Lemma respects_evolves_read `{OS} (id : nat) : respects evolves (read id).
Proof.
  intros w. unfold read. destruct (objects w !! id) as [f|]; [|apply evolves_refl].
  destruct (FileObj.closed f); [apply evolves_refl|].
  destruct (FileObj.is_pipe f); [|apply evolves_refl].
  destruct (os_pipe_read w id); apply evolves_refl.
Qed.

Lemma respects_evolves_is_open (s : option nat) :
  respects evolves (ExecutionResult._is_open s).
Proof.
  destruct s as [id|]; cbn [ExecutionResult._is_open].
  - apply respects_bind; [exact evolves_trans| |].
    + apply respects_evolves_is_closed.
    + intros c. apply respects_ret, evolves_refl.
  - apply respects_ret, evolves_refl.
Qed.

Lemma respects_evolves_read_stream `{Host} `{OS} (encoding : string)
    (path : option string) (s : option nat) :
  respects evolves (ExecutionResult._read_stream encoding path s).
Proof.
  unfold ExecutionResult._read_stream, ExecutionResult.read_content, open_r.
  effects evolves_refl evolves_trans;
    first [ apply respects_evolves_new_object | apply respects_evolves_read
          | apply respects_evolves_close | apply respects_evolves_is_open
          | idtac ].
  all: match goal with
       | H : except_IOError _ ?e = Some _ |- _ =>
           destruct e; try discriminate H; inversion H; subst;
           apply respects_ret, evolves_refl
       | _ => idtac
       end.
Qed.

Lemma keeps_result_refl (s : ExecutionResult.self_world) : keeps_result s s.
Proof. repeat split; try reflexivity; apply evolves_refl. Qed.

Lemma keeps_result_trans (s1 s2 s3 : ExecutionResult.self_world) :
  keeps_result s1 s2 -> keeps_result s2 s3 -> keeps_result s1 s3.
Proof.
  intros (Hp1 & Hr1 & Hc1 & He1) (Hp2 & Hr2 & Hc2 & He2).
  split; [congruence|]. split; [congruence|]. split; [congruence|].
  exact (evolves_trans _ _ _ He1 He2).
Qed.

Lemma respects_keeps_on_snd {A} (m : M World A) :
  respects evolves m ->
  respects keeps_result (@on_snd ExecutionResult.t World A m).
Proof.
  intros Hm s. unfold on_snd. specialize (Hm (snd s)).
  destruct (m (snd s)); try exact I; repeat split; try reflexivity; apply Hm.
Qed.

(** Leaves of a proof that a method keeps the result. *)
Ltac keeps_leaf :=
  first
    [ apply respects_keeps_on_snd;
      first [ apply respects_evolves_is_open
            | apply respects_evolves_get_popen
            | apply respects_evolves_read_stream ]
    | unfold ExecutionResult.update; apply respects_modify; intros ?;
      repeat split; try reflexivity; apply evolves_refl ].

Lemma respects_keeps_read_stdout `{Host} `{OS} :
  respects keeps_result ExecutionResult._read_stdout.
Proof.
  unfold ExecutionResult._read_stdout, ExecutionResult.self.
  effects keeps_result_refl keeps_result_trans; keeps_leaf.
Qed.

Lemma respects_keeps_read_stderr `{Host} `{OS} :
  respects keeps_result ExecutionResult._read_stderr.
Proof.
  unfold ExecutionResult._read_stderr, ExecutionResult.self.
  effects keeps_result_refl keeps_result_trans; keeps_leaf.
Qed.

Lemma bind_inv {S A B} (m : M S A) (k : A -> M S B) (s s' : S) (b : B) :
  bind m k s = Ret b s' ->
  exists a s1, m s = Ret a s1 /\ k a s1 = Ret b s'.
Proof.
  unfold bind. destruct (m s) as [a s1|? ?|]; try discriminate. eauto.
Qed.

(** The standard streams that [close_streams] collects are those of the
    process of the result. *)
Lemma standard_streams_outcome `{Host} `{OS} (r : ExecutionResult.t) (w : World)
    (l : list (option nat)) (s' : ExecutionResult.self_world) :
  ExecutionResult._get_and_read_standard_streams (ExecutionResult._process r) (r, w)
  = Ret l s' ->
  keeps_result (r, w) s'
  /\ exists po,
       popens w !! ExecutionResult._process r = Some po
       /\ l = [Popen.stdin po; Popen.stdout po; Popen.stderr po].
Proof.
  unfold ExecutionResult._get_and_read_standard_streams.
  unfold bind at 1, on_snd at 1, get_popen. cbn [snd fst].
  destruct (popens w !! ExecutionResult._process r) as [po|] eqn:Hpo;
    [|discriminate].
  set (rest :=
         (out_open <- on_snd (ExecutionResult._is_open (Popen.stdout po)) ;;
          (if out_open then ExecutionResult._read_stdout else ret tt) ;;;
          err_open <- on_snd (ExecutionResult._is_open (Popen.stderr po)) ;;
          (if err_open then ExecutionResult._read_stderr else ret tt) ;;;
          ret [Popen.stdin po; Popen.stdout po; Popen.stderr po])).
  assert (Hkeeps : respects keeps_result rest).
  { unfold rest.
    effects keeps_result_refl keeps_result_trans; keeps_leaf. }
  assert (Hvalue : forall s l1 s1,
             rest s = Ret l1 s1 ->
             l1 = [Popen.stdin po; Popen.stdout po; Popen.stderr po]).
  { intros s l1 s1 Hrest. unfold rest in Hrest.
    apply bind_inv in Hrest as (o1 & s2 & _ & Hrest).
    apply bind_inv in Hrest as (u1 & s3 & _ & Hrest).
    apply bind_inv in Hrest as (o2 & s4 & _ & Hrest).
    apply bind_inv in Hrest as (u2 & s5 & _ & Hrest).
    now inversion Hrest. }
  change (rest (r, w) = Ret l s' -> keeps_result (r, w) s' /\ exists po0,
             Some po = Some po0
             /\ l = [Popen.stdin po0; Popen.stdout po0; Popen.stderr po0]).
  intros Hrest. split.
  - specialize (Hkeeps (r, w)). now rewrite Hrest in Hkeeps.
  - exists po. split; [reflexivity|]. exact (Hvalue _ _ _ Hrest).
Qed.

(** Once the loop of [close_streams] has returned, every stream it went
    through is closed. *)
Lemma close_open_closes `{OS} (streams : list (option nat)) :
  forall w w',
    ExecutionResult.close_open streams w = Ret tt w' ->
    evolves w w' /\ forallb (object_closed w') streams = true.
Proof.
  induction streams as [|s streams IH]; intros w w'.
  - cbn. intros Heq. inversion Heq. split; [apply evolves_refl|reflexivity].
  - cbn [ExecutionResult.close_open forallb]. unfold bind at 1.
    destruct s as [id|].
    + cbn [ExecutionResult._is_open]. unfold bind at 1, is_closed.
      destruct (objects w !! id) as [f|] eqn:Hf; [|discriminate].
      unfold ret at 1. unfold bind at 1.
      destruct (FileObj.closed f) eqn:Hclosed; cbn [negb close_if_some].
      * unfold ret at 1. intros Hrest.
        destruct (IH _ _ Hrest) as [Hev Hall]. split; [exact Hev|].
        rewrite Hall, andb_true_r.
        apply (object_closed_evolves w); [exact Hev|].
        cbn. now rewrite Hf.
      * unfold close, modify. intros Hrest.
        destruct (IH _ _ Hrest) as [Hev Hall]. split.
        -- eapply evolves_trans; [apply (evolves_close id)|exact Hev].
        -- rewrite Hall, andb_true_r.
           eapply object_closed_evolves; [exact Hev|].
           cbn. now rewrite list_lookup_alter_eq, Hf.
    + cbn [ExecutionResult._is_open]. unfold ret at 1. unfold bind at 1.
      unfold ret at 1. intros Hrest.
      destruct (IH _ _ Hrest) as [Hev Hall]. split; [exact Hev|].
      now rewrite Hall.
Qed.

(** After [close_streams] has returned on a result with a return code,
    the result is finalized. *)
Lemma close_streams_finalizes `{Host} `{OS} (r : ExecutionResult.t) (w : World)
    (s' : ExecutionResult.self_world) (code : Z) :
  ExecutionResult.rc r = Some code ->
  ExecutionResult.close_streams (r, w) = Ret tt s' ->
  finalized (fst s') (snd s') = true
  /\ ExecutionResult._process (fst s') = ExecutionResult._process r
  /\ ExecutionResult.rc (fst s') = Some code
  /\ popens (snd s') = popens w.
Proof.
  intros Hrc. unfold ExecutionResult.close_streams.
  unfold bind at 1, ExecutionResult.self, gets. cbn [fst].
  unfold bind at 1.
  destruct (ExecutionResult._get_and_read_standard_streams _ (r, w))
    as [l [r1 w1]|? ?|] eqn:Hstd; try discriminate.
  destruct (standard_streams_outcome r w l (r1, w1) Hstd)
    as ((Hproc & Hrc1 & Hcustom & Hev1) & po & Hpo & ->).
  cbn [fst snd] in *.
  unfold on_snd. cbn [fst snd].
  destruct (ExecutionResult.close_open _ w1) as [[] w2|? ?|] eqn:Hclose;
    try discriminate.
  intros Heq. inversion Heq. subst s'. cbn [fst snd].
  destruct (close_open_closes _ _ _ Hclose) as [Hev2 Hall].
  destruct Hev1 as [Hp1 _]. destruct Hev2 as [Hp2 _].
  split; [|split; [exact Hproc|split; congruence]].
  unfold finalized. rewrite Hrc1, Hrc, Hproc, Hp2, Hp1, Hpo.
  unfold owned_streams. rewrite Hcustom. exact Hall.
Qed.

(* ================================================================== *)
(** * What [_wait] leaves behind *)
(* ================================================================== *)

(** A method call on a result object that returns has run on the result
    filed for the process, and files the object as the method left it. *)
Lemma on_result_returns {A} (p : nat) (m : M ExecutionResult.self_world A)
    (st st' : Process.t) (a : A) :
  Process.on_result p m st = Ret a st' ->
  exists r rw,
    Process._results st !! p = Some r
    /\ m (r, Process.world st) = Ret a rw
    /\ Process._results st' = <[p := fst rw]> (Process._results st)
    /\ Process.world st' = snd rw.
Proof.
  unfold Process.on_result.
  destruct (Process._results st !! p) as [r|]; [|discriminate].
  destruct (m (r, Process.world st)) as [a' rw|? ?|] eqn:Hm; try discriminate.
  intros Heq. inversion Heq. subst. exists r, rw. cbn. auto.
Qed.

Lemma results_filed_insert (st st' : Process.t) (p : nat) (r : ExecutionResult.t) :
  results_filed st ->
  ExecutionResult._process r = p ->
  Process._results st' = <[p := r]> (Process._results st) ->
  results_filed st'.
Proof.
  intros Hfiled Hr Hresults q r'. rewrite Hresults.
  destruct (decide (p = q)) as [->|Hne].
  - rewrite lookup_insert_eq. intros Heq. inversion Heq. now subst.
  - rewrite lookup_insert_ne by exact Hne. apply Hfiled.
Qed.

Lemma respects_same_popens_close_if_some (s : option nat) :
  respects same_popens (close_if_some s).
Proof. destruct s; intros w; reflexivity. Qed.

Lemma respects_same_popens_read_if_some `{OS} (s : option nat) :
  respects same_popens (read_if_some s).
Proof. destruct s; intros w; reflexivity. Qed.

Lemma respects_same_popens_get_popen (p : nat) :
  respects same_popens (get_popen p).
Proof. intros w. unfold get_popen. destruct (popens w !! p); reflexivity. Qed.

(** [communicate] returns only for a process that has been seen to have
    ended. *)
Lemma communicate_returns `{OS} (p : nat) (w w' : World)
    (outs : option bytes * option bytes) :
  communicate p w = Ret outs w' -> confirmed_stopped w' p.
Proof.
  unfold communicate. unfold bind at 1, get.
  destruct (os_cancelled w); [discriminate|].
  unfold bind at 1. pose proof (poll_outcome p w) as Hpoll.
  destruct (poll p w) as [[code|] w1|? ?|]; try discriminate.
  destruct Hpoll as [(po & code' & Hpo & Hcode) _].
  set (rest := (po <- get_popen p ;;
                out <- read_if_some (Popen.stdout po) ;;
                err <- read_if_some (Popen.stderr po) ;;
                close_if_some (Popen.stdin po) ;;;
                close_if_some (Popen.stdout po) ;;;
                close_if_some (Popen.stderr po) ;;;
                ret (out, err))).
  assert (Hrest : respects same_popens rest).
  { unfold rest.
    effects same_popens_refl same_popens_trans;
      first [ apply respects_same_popens_get_popen
            | apply respects_same_popens_read_if_some
            | apply respects_same_popens_close_if_some ]. }
  intros Heq. specialize (Hrest w1). rewrite Heq in Hrest.
  exists po, code'. split; [|exact Hcode]. now rewrite Hrest.
Qed.

Lemma respects_keeps_store_output `{Host} (outs : option bytes * option bytes) :
  respects keeps_result
    (ExecutionResult.set_stdout (fst outs) ;;;
     ExecutionResult.set_stderr (snd outs)).
Proof.
  unfold ExecutionResult.set_stdout, ExecutionResult.set_stderr,
    ExecutionResult.self.
  effects keeps_result_refl keeps_result_trans; keeps_leaf.
Qed.

(** When the drain loop returns, the process has been seen to have
    ended, and every result object is still filed under its process. *)
Lemma wait_loop_returns `{Host} `{OS} (kfuel : nat) (p : nat) (fuel : nat) :
  forall st st',
    results_filed st ->
    Process.wait_loop kfuel fuel p st = Ret tt st' ->
    confirmed_stopped (Process.world st') p /\ results_filed st'.
Proof.
  induction fuel as [|fuel IH]; intros st st' Hfiled; [discriminate|].
  rewrite wait_loop_step.
  pose proof (in_world_outcome (communicate p) st) as Hcomm.
  destruct (Process.in_world (communicate p) st) as [outs st1|e st1|];
    [|destruct e; try discriminate|discriminate].
  - destruct Hcomm as (Hcomm & _ & Hresults).
    apply communicate_returns in Hcomm as (po & code & Hpo & Hcode).
    intros Hstore.
    apply on_result_returns in Hstore as (r & rw & Hr & Hm & Hres' & Hw').
    pose proof (respects_keeps_store_output outs (r, Process.world st1)) as Hk.
    rewrite Hm in Hk. destruct Hk as (Hproc & _ & _ & Hpopens & _).
    cbn [fst snd] in *. split.
    + exists po, code. split; [|exact Hcode]. now rewrite Hw', Hpopens.
    + apply (results_filed_insert st1 st' p (fst rw)); [| |exact Hres'].
      * intros q r'. rewrite Hresults. apply Hfiled.
      * rewrite Hproc. apply Hfiled. now rewrite <- Hresults.
  - destruct Hcomm as (_ & _ & Hresults). apply IH.
    intros q r'. rewrite Hresults. apply Hfiled.
  - destruct (Process.in_world (Process._kill kfuel p) st1); discriminate.
Qed.

(** What [_wait] returns is the result object of the process, finalized:
    its return code is set and all its streams are closed. *)
Lemma wait_finalizes `{Host} `{OS} (fuel : nat) (p : nat) (st st' : Process.t)
    (r : ExecutionResult.t) :
  results_filed st ->
  Process._wait fuel p st = Ret r st' ->
  Process._results st' !! p = Some r
  /\ finalized r (Process.world st') = true
  /\ results_filed st'.
Proof.
  intros Hfiled. unfold Process._wait. intros Hwait.
  apply bind_inv in Hwait as (r0 & s1 & Hget & Hwait).
  unfold Process.get_result in Hget.
  destruct (Process._results st !! p) as [r0'|] eqn:Hr0; [|discriminate].
  inversion Hget. subst r0' s1. clear Hget.
  apply bind_inv in Hwait as ([] & s2 & Hforget & Hwait).
  pose proof (in_world_outcome (Process.forget_closed_stdin p) st) as Hout.
  rewrite Hforget in Hout. destruct Hout as (_ & _ & Hres2).
  apply bind_inv in Hwait as ([] & s3 & Hloop & Hwait).
  apply wait_loop_returns in Hloop as [(po & code & Hpo & Hcode) Hfiled3];
    [|intros q r'; rewrite Hres2; apply Hfiled].
  apply bind_inv in Hwait as (po' & s4 & Hpopen & Hwait).
  pose proof (in_world_outcome (get_popen p) s3) as Hout.
  rewrite Hpopen in Hout. destruct Hout as (Hpopen' & _ & Hres4).
  pose proof (get_popen_outcome p (Process.world s3)) as Hout.
  rewrite Hpopen' in Hout. destruct Hout as [Hw4 Hpo'].
  assert (po' = po) as -> by congruence.
  apply bind_inv in Hwait as ([] & s5 & Hset & Hwait).
  apply on_result_returns in Hset as (r4 & rw5 & Hr4 & Hm5 & Hres5 & Hw5).
  unfold ExecutionResult.update, modify in Hm5. inversion Hm5. subst rw5.
  clear Hm5. cbn [fst snd] in *.
  assert (Hfiled4 : results_filed s4)
    by (intros q r'; rewrite Hres4; apply Hfiled3).
  assert (Hproc4 : ExecutionResult._process r4 = p) by (now apply Hfiled4).
  assert (Hfiled5 : results_filed s5).
  { eapply (results_filed_insert s4 s5 p); [exact Hfiled4| |exact Hres5].
    exact Hproc4. }
  apply bind_inv in Hwait as ([] & s6 & Hclose & Hwait).
  apply on_result_returns in Hclose as (r5 & rw6 & Hr5 & Hm6 & Hres6 & Hw6).
  rewrite Hres5, lookup_insert_eq in Hr5. inversion Hr5. subst r5. clear Hr5.
  apply (close_streams_finalizes _ _ _ code) in Hm6
    as (Hfinal & Hproc6 & _ & _); [|cbn; exact Hcode].
  cbn [ExecutionResult.set_rc ExecutionResult._process] in Hproc6.
  assert (Hfiled6 : results_filed s6).
  { eapply (results_filed_insert s5 s6 p); [exact Hfiled5| |exact Hres6].
    congruence. }
  unfold Process.get_result in Hwait.
  destruct (Process._results s6 !! p) as [r6|] eqn:Hr6; [|discriminate].
  inversion Hwait. subst r6 s6. clear Hwait.
  rewrite Hres6, lookup_insert_eq in Hr6. inversion Hr6. subst r.
  split; [now rewrite Hres6, lookup_insert_eq|].
  split; [|exact Hfiled6].
  now rewrite Hw6.
Qed.

(* ================================================================== *)
(** * Getting the result of a process *)
(* ================================================================== *)

Lemma select_attributes_zip (code : Z) (out err : string)
    (stdout_path stderr_path : option string) (f1 f2 f3 f4 f5 : bool) :
  map fst (List.filter snd
             (zip [VInt code; VStr out; VStr err;
                   value_of_str stdout_path; value_of_str stderr_path]
                  [f1; f2; f3; f4; f5]))
  = select_attributes code out err stdout_path stderr_path f1 f2 f3 f4 f5.
Proof. destruct f1, f2, f3, f4, f5; reflexivity. Qed.

(** The attributes of a finalized result: both texts are read (or taken
    from the cache) and stay cached. *)
Lemma get_result_attributes_finalized `{Host} `{OS} (r : ExecutionResult.t)
    (w : World) (f1 f2 f3 f4 f5 : bool) :
  finalized r w = true ->
  path_readable w (ExecutionResult.stdout_path r) = true ->
  path_readable w (ExecutionResult.stderr_path r) = true ->
  exists code out err w1 w2,
    ExecutionResult.rc r = Some code
    /\ ExecutionResult.stdout (r, w)
       = Ret (Some out) (ExecutionResult.set__stdout (Some out) r, w1)
    /\ ExecutionResult.stderr (ExecutionResult.set__stdout (Some out) r, w1)
       = Ret (Some err)
             (ExecutionResult.set__stderr (Some err)
                (ExecutionResult.set__stdout (Some out) r), w2)
    /\ Process._get_result_attributes [f1; f2; f3; f4; f5] (r, w)
       = Ret (select_attributes code out err (ExecutionResult.stdout_path r)
                (ExecutionResult.stderr_path r) f1 f2 f3 f4 f5)
             (ExecutionResult.set__stderr (Some err)
                (ExecutionResult.set__stdout (Some out) r), w2).
Proof.
  intros Hfinal Hout Herr.
  destruct (finalized_streams _ _ Hfinal) as (code & po & Hrc & _).
  destruct (stdout_finalized r w Hfinal Hout) as (out & w1 & Hread1 & Hgrows).
  assert (Hfinal1 : finalized (ExecutionResult.set__stdout (Some out) r) w1 = true)
    by (apply (finalized_grows _ w); assumption).
  assert (Herr1 : path_readable w1
                    (ExecutionResult.stderr_path
                       (ExecutionResult.set__stdout (Some out) r)) = true)
    by (rewrite <- (path_readable_grows w w1 _ Hgrows); exact Herr).
  destruct (stderr_finalized _ w1 Hfinal1 Herr1) as (err & w2 & Hread2 & _).
  exists code, out, err, w1, w2.
  split; [exact Hrc|]. split; [exact Hread1|]. split; [exact Hread2|].
  unfold Process._get_result_attributes.
  unfold bind at 1. unfold ExecutionResult.self at 1, gets at 1. cbn [fst].
  unfold bind at 1. rewrite Hread1.
  unfold bind at 1. rewrite Hread2.
  unfold ret. rewrite Hrc. cbn [value_of_int].
  change (value_of_str (Some out)) with (VStr out).
  change (value_of_str (Some err)) with (VStr err).
  now rewrite select_attributes_zip.
Qed.

(** C3 (as amended): with a handle that names a process, the call raises
    when the return code of its result is unset; on a finalized result
    whose redirect files are in place it returns, and what it returns is
    the result object when no attribute is selected, the attribute itself
    when exactly one is selected, and otherwise the tuple of the selected
    attributes in the order return code, stdout, stderr, stdout path,
    stderr path. *)
Theorem get_process_result_finished (host : Host) (os : OS)
    (st : Process.t) (h : handle) (p : nat) (r : ExecutionResult.t)
    (f1 f2 f3 f4 f5 : bool) :
  Process.get_process h st = Ret p st ->
  Process._results st !! p = Some r ->
  (ExecutionResult.rc r = None ->
   Process.get_process_result h f1 f2 f3 f4 f5 st
   = Raise (RuntimeError
              "Getting results of unfinished processes is not supported.") st)
  /\ (finalized r (Process.world st) = true ->
      path_readable (Process.world st) (ExecutionResult.stdout_path r) = true ->
      path_readable (Process.world st) (ExecutionResult.stderr_path r) = true ->
      exists code out err r1 w1 r2 w2,
        ExecutionResult.rc r = Some code
        /\ ExecutionResult.stdout (r, Process.world st) = Ret (Some out) (r1, w1)
        /\ ExecutionResult.stderr (r1, w1) = Ret (Some err) (r2, w2)
        /\ Process.get_process_result h f1 f2 f3 f4 f5 st
           = Ret (pack_attributes r2
                    (select_attributes code out err
                       (ExecutionResult.stdout_path r)
                       (ExecutionResult.stderr_path r) f1 f2 f3 f4 f5))
                 (Process.mk (Process._processes st)
                             (<[p := r2]> (Process._results st)) w2)).
Proof.
  intros Hprocess Hresult. split.
  - intros Hrc. unfold Process.get_process_result.
    unfold bind at 1. rewrite Hprocess.
    unfold bind at 1, Process.get_result at 1. rewrite Hresult, Hrc.
    reflexivity.
  - intros Hfinal Hout Herr.
    destruct (get_result_attributes_finalized r (Process.world st)
                f1 f2 f3 f4 f5 Hfinal Hout Herr)
      as (code & out & err & w1 & w2 & Hrc & Hread1 & Hread2 & Hattrs).
    exists code, out, err, (ExecutionResult.set__stdout (Some out) r), w1,
      (ExecutionResult.set__stderr (Some err)
         (ExecutionResult.set__stdout (Some out) r)), w2.
    split; [exact Hrc|]. split; [exact Hread1|]. split; [exact Hread2|].
    unfold Process.get_process_result.
    unfold bind at 1. rewrite Hprocess.
    unfold bind at 1, Process.get_result at 1. rewrite Hresult, Hrc.
    unfold bind at 1, Process.on_result at 1. rewrite Hresult, Hattrs.
    cbn [fst snd].
    destruct (select_attributes code out err (ExecutionResult.stdout_path r)
                (ExecutionResult.stderr_path r) f1 f2 f3 f4 f5)
      as [|a [|b rest]]; cbn [pack_attributes]; try reflexivity.
    unfold bind, Process.get_result. cbn [Process._results].
    now rewrite lookup_insert_eq.
Qed.

Lemma get_process_result_finished_witness :
  exists r s p,
    example_piped = Ret (Some r) s
    /\ @Process.get_process HandleNone s = Ret p s
    /\ Process._results s !! p = Some r
    /\ finalized r (Process.world s) = true
    /\ path_readable (Process.world s) (ExecutionResult.stdout_path r) = true
    /\ path_readable (Process.world s) (ExecutionResult.stderr_path r) = true
    /\ exists st',
         @Process.get_process_result posix_host example_os
           HandleNone true true false false false s
         = Ret (Attributes [VInt 0; VStr ("line1" ++ NEWLINE ++ "line2")]) st'.
Proof.
  eexists _, _, _. split; [vm_compute; reflexivity|].
  split; [vm_compute; reflexivity|].
  split; [vm_compute; reflexivity|].
  split; [vm_compute; reflexivity|].
  split; [vm_compute; reflexivity|].
  split; [vm_compute; reflexivity|].
  match goal with
  | |- context [@Process.get_process_result _ _ ?h _ _ _ _ _ ?s] =>
      destruct (get_process_result_finished posix_host example_os s h
                  0%nat
                  (default (ExecutionResult.mk 0 None None None "" None None [])
                           (Process._results s !! 0%nat))
                  true true false false false)
        as [_ Hfinished]; [vm_compute; reflexivity .. |];
      destruct Hfinished
        as (code & out & err & r1 & w1 & r2 & w2 & Hrc & Hout & Herr & Hget);
      [vm_compute; reflexivity .. |]
  end.
  eexists. rewrite Hget.
  vm_compute in Hrc, Hout, Herr. inversion Hrc. inversion Hout. subst.
  inversion Herr. subst. vm_compute. reflexivity.
Defined.

(** C3 as stated fails when exactly one attribute is selected: the call
    returns that attribute itself, not a tuple holding it. *)
Lemma get_process_result_single_counterexample :
  exists r s st',
    example_piped = Ret (Some r) s
    /\ @Process.get_process_result posix_host example_os
         HandleNone false true false false false s
       = Ret (Attribute (VStr ("line1" ++ NEWLINE ++ "line2"))) st'
    /\ @Process.get_process_result posix_host example_os
         HandleNone false true false false false s
       <> Ret (Attributes [VStr ("line1" ++ NEWLINE ++ "line2")]) st'.
Proof.
  eexists _, _, _. split; [vm_compute; reflexivity|].
  split; [vm_compute; reflexivity|].
  vm_compute. discriminate.
Qed.
(* ================================================================== *)
(** * How long [_process_is_stopped] polls *)
(* ================================================================== *)

Lemma stopped_confirmed `{Host} `{OS} (p : nat) (w : World) :
  confirmed_stopped w p -> Process.stopped p w = Ret true w.
Proof.
  intros (po & code & Hpo & Hcode).
  unfold Process.stopped, poll, bind, get_popen. rewrite Hpo, Hcode.
  reflexivity.
Qed.

Lemma stopped_known `{Host} `{OS} (p : nat) (w : World) :
  known_process w p ->
  exists s w', Process.stopped p w = Ret s w' /\ known_process w' p.
Proof.
  intros [po Hpo]. unfold Process.stopped, poll, bind, get_popen. rewrite Hpo.
  destruct (Popen.returncode po).
  - eexists _, _. split; [reflexivity|]. now exists po.
  - unfold get. destruct (os_exit_status w p).
    + eexists _, _. split; [reflexivity|]. unfold known_process. cbn.
      rewrite list_lookup_alter_eq, Hpo. cbn. eauto.
    + eexists _, _. split; [reflexivity|]. now exists po.
Qed.

Lemma stopped_inv `{Host} `{OS} (p : nat) (w : World) :
  match Process.stopped p w with
  | Ret _ w' => known_process w p /\ known_process w' p
  | Raise _ _ => ~ known_process w p
  | Diverge => False
  end.
Proof.
  unfold Process.stopped, poll, bind, get_popen, known_process.
  destruct (popens w !! p) as [po|] eqn:Hpo.
  - destruct (Popen.returncode po); [cbn; eauto|].
    unfold get. destruct (os_exit_status w p); cbn.
    + rewrite list_lookup_alter_eq, Hpo. cbn. eauto.
    + eauto.
  - intros [? ?]. discriminate.
Qed.

(** The loop leaves either because the process has been seen to have
    ended or because the deadline has passed, and it oversleeps the
    deadline by at most one pause. *)
Lemma stopped_loop_clock `{Host} `{OS} (p : nat) (timeout max_time : Z)
    (fuel : nat) :
  0 <= timeout ->
  forall w,
    match Process.stopped_loop fuel p timeout max_time w with
    | Ret _ w' =>
        clock w <= clock w'
        /\ (clock w <= max_time -> clock w' <= max_time + Z.min 100 timeout)
        /\ (max_time < clock w -> clock w' = clock w)
        /\ (clock w' <= max_time -> confirmed_stopped w' p)
        /\ (known_process w p -> known_process w' p)
    | Raise e w' => e = KeyError /\ ~ known_process w p
    | Diverge => True
    end.
Proof.
  intros Htimeout. induction fuel as [|fuel IH]; intros w; [exact I|].
  rewrite stopped_loop_step.
  destruct (clock w <=? max_time) eqn:Hnow.
  - pose proof (stopped_outcome p w) as Hstopped.
    destruct (Process.stopped p w) as [[|] w'|e w'|] eqn:Hs.
    + cbn [negb]. destruct Hstopped as (Hconf & _ & Hclock).
      rewrite Hclock. split; [lia|]. split; [lia|]. split; [lia|].
      split; [auto|]. intros _. destruct Hconf as (po & _ & Hpo & _).
      now exists po.
    + destruct Hstopped as [-> _]. cbn [negb].
      rewrite sleep_outcome by lia.
      specialize (IH (set_clock (clock w + Z.min 100 timeout) w)).
      destruct (Process.stopped_loop fuel p timeout max_time
                  (set_clock (clock w + Z.min 100 timeout) w))
        as [[] w'|e w'|]; [| |exact I].
      * cbn [clock set_clock] in IH.
        destruct IH as (Hle & Hmax & Hpast & Hconf & Hknown).
        split; [lia|]. split; [|split; [lia|split; [exact Hconf|exact Hknown]]].
        intros _.
        destruct (Z.le_gt_cases (clock w + Z.min 100 timeout) max_time);
          [auto|lia].
      * exact IH.
    + destruct Hstopped as [-> ->]. split; [reflexivity|].
      intros Hknown. destruct (stopped_known p w Hknown) as (s & w' & Heq & _).
      congruence.
    + contradiction.
  - split; [lia|]. split; [lia|]. split; [lia|]. split; [lia|auto].
Qed.

(** How long [_process_is_stopped] takes: it does not wait longer than
    the timeout and one pause, it answers [False] only after the timeout,
    and with a negative timeout it does not wait at all. *)
Lemma process_is_stopped_clock `{Host} `{OS} (fuel : nat) (p : nat)
    (timeout : Z) (w : World) :
  match Process._process_is_stopped fuel p timeout w with
  | Ret s w' =>
      clock w <= clock w'
      /\ (0 <= timeout -> clock w' <= clock w + timeout + Z.min 100 timeout)
      /\ (timeout < 0 -> clock w' = clock w)
      /\ (s = false -> clock w + timeout < clock w')
      /\ known_process w' p
  | Raise e w' => e = KeyError /\ ~ known_process w p
  | Diverge => True
  end.
Proof.
  unfold Process._process_is_stopped. unfold bind at 1, time, gets.
  unfold bind.
  destruct (Z.le_gt_cases 0 timeout) as [Hpos|Hneg].
  - pose proof (stopped_loop_clock p timeout (clock w + timeout) fuel Hpos w)
      as Hloop.
    destruct (Process.stopped_loop fuel p timeout (clock w + timeout) w)
      as [[] w1|e w1|]; [|exact Hloop|exact I].
    destruct Hloop as (Hle & Hmax & _ & Hconf & Hknown).
    pose proof (stopped_outcome p w1) as Hstopped.
    destruct (Process.stopped p w1) as [[|] w2|e w2|] eqn:Hs.
    + destruct Hstopped as ((po & _ & Hpo & _) & _ & Hclock). rewrite Hclock.
      split; [lia|]. split; [lia|]. split; [lia|]. split; [discriminate|].
      now exists po.
    + destruct Hstopped as [-> _].
      assert (Hlate : clock w + timeout < clock w1).
      { destruct (Z.le_gt_cases (clock w1) (clock w + timeout)) as [Hin|]; [|lia].
        rewrite (stopped_confirmed p w1 (Hconf Hin)) in Hs. discriminate. }
      split; [lia|]. split; [lia|]. split; [lia|]. split; [auto|].
      pose proof (stopped_inv p w1) as Hinv. rewrite Hs in Hinv. apply Hinv.
    + destruct Hstopped as [-> ->]. split; [reflexivity|].
      pose proof (stopped_inv p w1) as Hinv. rewrite Hs in Hinv. auto.
    + contradiction.
  - destruct fuel as [|fuel]; [exact I|].
    rewrite stopped_loop_step.
    assert ((clock w <=? clock w + timeout) = false) as -> by lia.
    pose proof (stopped_outcome p w) as Hstopped.
    pose proof (stopped_inv p w) as Hinv.
    destruct (Process.stopped p w) as [[|] w2|e w2|].
    + destruct Hstopped as (_ & _ & Hclock). rewrite Hclock.
      split; [lia|]. split; [lia|]. split; [lia|]. split; [discriminate|].
      apply Hinv.
    + destruct Hstopped as [-> _].
      split; [lia|]. split; [lia|]. split; [lia|]. split; [lia|]. apply Hinv.
    + destruct Hstopped as [-> ->]. auto.
    + contradiction.
Qed.

Lemma process_is_stopped_confirmed `{Host} `{OS} (fuel : nat) (p : nat)
    (timeout : Z) (w : World) :
  confirmed_stopped w p ->
  Process._process_is_stopped (S fuel) p timeout w = Ret true w.
Proof.
  intros Hconf. unfold Process._process_is_stopped.
  unfold bind at 1, time, gets. unfold bind. rewrite stopped_loop_step.
  rewrite (stopped_confirmed p w Hconf). cbn [negb].
  destruct (clock w <=? clock w + timeout);
    now rewrite (stopped_confirmed p w Hconf).
Qed.

Lemma process_is_stopped_answers `{Host} `{OS} (fuel : nat) (p : nat)
    (timeout : Z) (w : World) :
  timeout <> 0 ->
  known_process w p ->
  (polling_rounds timeout <= fuel)%nat ->
  exists s w', Process._process_is_stopped fuel p timeout w = Ret s w'.
Proof.
  intros Hnonzero Hknown Hfuel.
  pose proof (process_is_stopped_clock fuel p timeout w) as Hclock.
  destruct (Z.lt_total timeout 0) as [Hneg|[Hzero|Hpos]]; [|lia|].
  - destruct fuel as [|fuel]; [unfold polling_rounds in Hfuel; lia|].
    revert Hclock. unfold Process._process_is_stopped.
    unfold bind at 1 2, time, gets. unfold bind. rewrite stopped_loop_step.
    assert ((clock w <=? clock w + timeout) = false) as -> by lia.
    destruct (stopped_known p w Hknown) as (s & w' & -> & _). eauto.
  - destruct (process_is_stopped_terminates p timeout w fuel Hpos Hfuel)
      as [_ Hout].
    destruct (Process._process_is_stopped fuel p timeout w) as [s w'|e w'|];
      [eauto| |contradiction].
    destruct Hclock as [_ Hunknown]. contradiction.
Qed.

(** Polling with a positive timeout, in one statement. *)
Lemma process_is_stopped_cases `{Host} `{OS} (fuel : nat) (p : nat)
    (timeout : Z) (w : World) :
  0 < timeout ->
  known_process w p ->
  (polling_rounds timeout <= fuel)%nat ->
  exists s w',
    Process._process_is_stopped fuel p timeout w = Ret s w'
    /\ siglog w' = siglog w
    /\ clock w <= clock w' <= clock w + timeout + 100
    /\ known_process w' p
    /\ (if s then confirmed_stopped w' p
        else os_exit_status w' p = None /\ clock w + timeout < clock w').
Proof.
  intros Hpos Hknown Hfuel.
  destruct (process_is_stopped_answers fuel p timeout w ltac:(lia) Hknown Hfuel)
    as (s & w' & Heq).
  exists s, w'. split; [exact Heq|].
  pose proof (process_is_stopped_clock fuel p timeout w) as Hclock.
  pose proof (process_is_stopped_quiet fuel p timeout w) as Hquiet.
  rewrite Heq in Hclock, Hquiet.
  destruct Hclock as (Hle & Hmax & _ & Hlate & Hknown').
  split; [destruct s; apply Hquiet|]. split; [lia|].
  split; [exact Hknown'|].
  destruct s; [apply Hquiet|]. split; [apply Hquiet|auto].
Qed.

(** X1: on a process of the world, with a timeout other than zero and
    enough fuel, [_process_is_stopped] answers.  It sends no signal.  It
    answers [True] only for a process seen to have ended, and at once
    when that is known beforehand.  It answers [False] only when the
    timeout has passed and the operating system still reports the process
    as running.  It never takes longer than the timeout and one pause of
    at most 100 ms, and with a negative timeout it takes no time. *)
Theorem process_is_stopped_bounds (host : Host) (os : OS) (fuel : nat)
    (p : nat) (timeout : Z) (w : World) :
  timeout <> 0 ->
  known_process w p ->
  (polling_rounds timeout <= fuel)%nat ->
  exists s w',
    Process._process_is_stopped fuel p timeout w = Ret s w'
    /\ siglog w' = siglog w
    /\ clock w <= clock w'
    /\ (0 < timeout -> clock w' <= clock w + timeout + Z.min 100 timeout)
    /\ (timeout < 0 -> clock w' = clock w)
    /\ (if s then confirmed_stopped w' p
        else os_exit_status w' p = None /\ clock w + timeout < clock w')
    /\ (confirmed_stopped w p -> s = true /\ w' = w).
Proof.
  intros Hnonzero Hknown Hfuel.
  destruct (process_is_stopped_answers fuel p timeout w Hnonzero Hknown Hfuel)
    as (s & w' & Heq).
  exists s, w'. split; [exact Heq|].
  pose proof (process_is_stopped_clock fuel p timeout w) as Hclock.
  pose proof (process_is_stopped_quiet fuel p timeout w) as Hquiet.
  rewrite Heq in Hclock, Hquiet.
  destruct Hclock as (Hle & Hmax & Hneg & Hlate & _).
  split; [destruct s; apply Hquiet|]. split; [exact Hle|].
  split; [intros; apply Hmax; lia|]. split; [exact Hneg|].
  split.
  - destruct s; [apply Hquiet|]. split; [apply Hquiet|auto].
  - intros Hconf. destruct fuel as [|fuel]; [unfold polling_rounds in Hfuel; lia|].
    rewrite (process_is_stopped_confirmed fuel p timeout w Hconf) in Heq.
    inversion Heq. auto.
Qed.

Lemma process_is_stopped_bounds_witness :
  let w := Process.world (@started posix_host example_os default_kwargs) in
  1000 <> 0
  /\ known_process w 0%nat
  /\ (polling_rounds 1000 <= 1002)%nat
  /\ exists w',
       @Process._process_is_stopped example_os 1002 0%nat 1000 w = Ret true w'
       /\ siglog w' = siglog w
       /\ clock w' = 300
       /\ confirmed_stopped w' 0%nat.
Proof.
  cbn zeta.
  assert (Hknown : known_process
                     (Process.world (@started posix_host example_os default_kwargs))
                     0%nat) by (vm_compute; eauto).
  assert (Hfuel : (polling_rounds 1000 <= 1002)%nat) by (vm_compute; lia).
  split; [lia|]. split; [exact Hknown|]. split; [exact Hfuel|].
  destruct (process_is_stopped_bounds posix_host example_os 1002 0%nat 1000 _
              ltac:(lia) Hknown Hfuel)
    as (s & w' & Heq & Hsig & _ & _ & _ & Hanswer & _).
  assert (Hrun : exists w1,
             @Process._process_is_stopped example_os 1002 0%nat 1000
               (Process.world (@started posix_host example_os default_kwargs))
             = Ret true w1 /\ clock w1 = 300)
    by (eexists; split; vm_compute; reflexivity).
  destruct Hrun as (w1 & Hrun & Hclock).
  rewrite Hrun in Heq. inversion Heq. subst s w'.
  exists w1. auto.
Defined.
(* ================================================================== *)
(** * Killing and terminating *)
(* ================================================================== *)

Lemma deliver_cases `{OS} (p : nat) (sig : signal) (group : bool) (w : World) :
  deliver p sig group w
  = if os_signal_fails w p sig then Raise OSError w
    else Ret tt (set_siglog ((p, sig, group) :: siglog w) w).
Proof. unfold deliver, bind, get. now destruct (os_signal_fails w p sig). Qed.

Lemma kill_step `{Host} `{OS} (fuel : nat) (p : nat) (w : World) :
  has_killpg = true ->
  Process._kill fuel p w
  = if os_signal_fails w p SIGKILL then Raise OSError w
    else
      match Process._process_is_stopped fuel p Process.KILL_TIMEOUT
              (set_siglog ((p, SIGKILL, true) :: siglog w) w) with
      | Ret true w' => Ret tt w'
      | Ret false w' => Raise (RuntimeError "Failed to kill process.") w'
      | Raise e w' => Raise e w'
      | Diverge => Diverge
      end.
Proof.
  intros Hkillpg. unfold Process._kill. rewrite Hkillpg.
  unfold bind at 1, killpg. rewrite deliver_cases.
  destruct (os_signal_fails w p SIGKILL); [reflexivity|].
  unfold bind.
  destruct (Process._process_is_stopped fuel p Process.KILL_TIMEOUT _)
    as [[|] w'|e w'|]; reflexivity.
Qed.

(** [_kill] where [os.killpg] exists, on a process of the world: the
    signal is refused and nothing has changed, or it has been delivered
    to the process group and the process is polled for at most the kill
    timeout and one pause. *)
Lemma kill_cases `{Host} `{OS} (fuel : nat) (p : nat) (w : World) :
  has_killpg = true ->
  known_process w p ->
  (polling_rounds Process.KILL_TIMEOUT <= fuel)%nat ->
  (os_signal_fails w p SIGKILL = true
   /\ Process._kill fuel p w = Raise OSError w)
  \/ (os_signal_fails w p SIGKILL = false
      /\ exists w',
           siglog w' = (p, SIGKILL, true) :: siglog w
           /\ clock w <= clock w' <= clock w + Process.KILL_TIMEOUT + 100
           /\ known_process w' p
           /\ ((Process._kill fuel p w = Ret tt w' /\ confirmed_stopped w' p)
               \/ (Process._kill fuel p w
                   = Raise (RuntimeError "Failed to kill process.") w'
                   /\ os_exit_status w' p = None
                   /\ clock w + Process.KILL_TIMEOUT < clock w'))).
Proof.
  intros Hkillpg Hknown Hfuel. rewrite (kill_step fuel p w Hkillpg).
  destruct (os_signal_fails w p SIGKILL); [left; auto|right].
  split; [reflexivity|].
  destruct (process_is_stopped_cases fuel p Process.KILL_TIMEOUT
              (set_siglog ((p, SIGKILL, true) :: siglog w) w)
              ltac:(reflexivity) Hknown Hfuel)
    as (s & w' & Heq & Hsig & Hclock & Hknown' & Hanswer).
  exists w'. split; [exact Hsig|]. split; [exact Hclock|].
  split; [exact Hknown'|].
  rewrite Heq. destruct s; [left|right]; auto.
Qed.

(** X2: [_kill], where [os.killpg] exists, on a process of the world and
    with enough fuel.  When it returns, SIGKILL has been delivered to the
    process group and the process has been seen to have ended within the
    kill timeout and one pause.  It raises [OSError] only when the signal
    was refused, and then nothing has changed.  It raises the
    [RuntimeError] only when the signal was delivered and, more than the
    kill timeout later, the operating system still reports the process as
    running. *)
Theorem kill_outcomes (host : Host) (os : OS) (fuel : nat) (p : nat)
    (w : World) :
  has_killpg = true ->
  known_process w p ->
  (polling_rounds Process.KILL_TIMEOUT <= fuel)%nat ->
  match Process._kill fuel p w with
  | Ret _ w' =>
      confirmed_stopped w' p
      /\ siglog w' = (p, SIGKILL, true) :: siglog w
      /\ clock w <= clock w' <= clock w + Process.KILL_TIMEOUT + 100
  | Raise e w' =>
      (e = OSError /\ w' = w /\ os_signal_fails w p SIGKILL = true)
      \/ (e = RuntimeError "Failed to kill process."
          /\ siglog w' = (p, SIGKILL, true) :: siglog w
          /\ os_exit_status w' p = None
          /\ clock w + Process.KILL_TIMEOUT < clock w')
  | Diverge => False
  end.
Proof.
  intros Hkillpg Hknown Hfuel.
  destruct (kill_cases fuel p w Hkillpg Hknown Hfuel)
    as [[Hfails ->]
       |(_ & w' & Hsig & Hclock & _ & [[-> Hconf]|(-> & Hstatus & Hlate)])].
  - left. auto.
  - auto.
  - right. auto.
Qed.

Lemma kill_outcomes_witness :
  let w := Process.world (@started posix_host endless_os default_kwargs) in
  @has_killpg posix_host = true
  /\ known_process w 0%nat
  /\ (polling_rounds Process.KILL_TIMEOUT <= polling_rounds Process.KILL_TIMEOUT)%nat
  /\ exists w',
       @Process._kill posix_host endless_os
         (polling_rounds Process.KILL_TIMEOUT) 0%nat w = Ret tt w'
       /\ confirmed_stopped w' 0%nat
       /\ siglog w' = [(0%nat, SIGKILL, true)].
Proof.
  cbn zeta.
  assert (Hknown : known_process
                     (Process.world (@started posix_host endless_os default_kwargs))
                     0%nat) by (vm_compute; eauto).
  assert (Hfuel : (polling_rounds Process.KILL_TIMEOUT <= polling_rounds Process.KILL_TIMEOUT)%nat)
    by reflexivity.
  split; [reflexivity|]. split; [exact Hknown|]. split; [exact Hfuel|].
  pose proof (kill_outcomes posix_host endless_os
         (polling_rounds Process.KILL_TIMEOUT) 0%nat _
                eq_refl Hknown Hfuel) as Hout.
  assert (Hrun : exists w1,
             @Process._kill posix_host endless_os
         (polling_rounds Process.KILL_TIMEOUT) 0%nat
               (Process.world (@started posix_host endless_os default_kwargs))
             = Ret tt w1)
    by (eexists; vm_compute; reflexivity).
  destruct Hrun as (w1 & Hrun). rewrite Hrun in Hout.
  destruct Hout as (Hconf & Hsig & _).
  exists w1. split; [exact Hrun|]. split; [exact Hconf|]. exact Hsig.
Defined.

Lemma terminate_step `{Host} `{OS} (fuel : nat) (p : nat) (w : World) :
  has_killpg = true ->
  Process._terminate fuel p w
  = if os_signal_fails w p SIGTERM then Raise OSError w
    else
      match Process._process_is_stopped fuel p Process.TERMINATE_TIMEOUT
              (set_siglog ((p, SIGTERM, true) :: siglog w) w) with
      | Ret true w' => Ret tt w'
      | Ret false w' => Process._kill fuel p w'
      | Raise e w' => Raise e w'
      | Diverge => Diverge
      end.
Proof.
  intros Hkillpg. unfold Process._terminate. rewrite Hkillpg.
  unfold bind at 1, killpg. rewrite deliver_cases.
  destruct (os_signal_fails w p SIGTERM); [reflexivity|].
  unfold bind.
  destruct (Process._process_is_stopped fuel p Process.TERMINATE_TIMEOUT _)
    as [[|] w'|e w'|]; reflexivity.
Qed.

(** X3: [_terminate], where [os.killpg] exists, on a process of the
    world and with enough fuel.  SIGTERM goes to the process group first.
    SIGKILL follows only when, more than the terminate timeout later, the
    process is still running, and no other signal is sent.  When
    [_terminate] returns, the process has been seen to have ended.  It
    raises [OSError] only when a signal was refused, and the
    [RuntimeError] of [_kill] only when both signals were delivered and
    the process outlasted both timeouts. *)
Theorem terminate_escalation (host : Host) (os : OS) (fuel : nat) (p : nat)
    (w : World) :
  has_killpg = true ->
  known_process w p ->
  (polling_rounds Process.TERMINATE_TIMEOUT <= fuel)%nat ->
  let term := (p, SIGTERM, true) :: siglog w in
  let kill := (p, SIGKILL, true) :: term in
  match Process._terminate fuel p w with
  | Ret _ w' =>
      confirmed_stopped w' p
      /\ (siglog w' = term
          \/ (siglog w' = kill /\ clock w + Process.TERMINATE_TIMEOUT < clock w'))
  | Raise e w' =>
      (e = OSError
       /\ (w' = w
           \/ (siglog w' = term /\ clock w + Process.TERMINATE_TIMEOUT < clock w')))
      \/ (e = RuntimeError "Failed to kill process."
          /\ siglog w' = kill
          /\ os_exit_status w' p = None
          /\ clock w + Process.TERMINATE_TIMEOUT + Process.KILL_TIMEOUT < clock w')
  | Diverge => False
  end.
Proof.
  intros Hkillpg Hknown Hfuel term kill. rewrite (terminate_step fuel p w Hkillpg).
  destruct (os_signal_fails w p SIGTERM); [left; auto|].
  destruct (process_is_stopped_cases fuel p Process.TERMINATE_TIMEOUT
              (set_siglog ((p, SIGTERM, true) :: siglog w) w)
              ltac:(reflexivity) Hknown Hfuel)
    as (s & w1 & -> & Hsig & Hclock & Hknown1 & Hanswer).
  cbn [siglog set_siglog clock] in Hsig, Hclock.
  destruct s; [auto|].
  destruct Hanswer as [_ Hlate]. cbn [clock set_siglog] in Hlate.
  assert (Hfuel' : (polling_rounds Process.KILL_TIMEOUT <= fuel)%nat).
  { revert Hfuel. unfold polling_rounds, Process.TERMINATE_TIMEOUT,
      Process.KILL_TIMEOUT. lia. }
  destruct (kill_cases fuel p w1 Hkillpg Hknown1 Hfuel')
    as [[Hfails ->]
       |(_ & w' & Hsig' & Hclock' & _ & [[-> Hconf]|(-> & Hstatus & Hlate')])].
  - left. split; [reflexivity|]. right. auto.
  - split; [exact Hconf|]. right. subst kill term. rewrite Hsig', Hsig.
    split; [reflexivity|lia].
  - right. split; [reflexivity|]. subst kill term. rewrite Hsig', Hsig.
    split; [reflexivity|]. split; [exact Hstatus|lia].
Qed.

Lemma terminate_escalation_witness :
  let w := Process.world (@started posix_host stubborn_os default_kwargs) in
  @has_killpg posix_host = true
  /\ known_process w 0%nat
  /\ (polling_rounds Process.TERMINATE_TIMEOUT
      <= polling_rounds Process.TERMINATE_TIMEOUT)%nat
  /\ exists w',
       @Process._terminate posix_host stubborn_os
         (polling_rounds Process.TERMINATE_TIMEOUT) 0%nat w = Ret tt w'
       /\ confirmed_stopped w' 0%nat
       /\ siglog w' = [(0%nat, SIGKILL, true); (0%nat, SIGTERM, true)]
       /\ 30000 < clock w'.
Proof.
  cbn zeta.
  assert (Hknown : known_process
                     (Process.world (@started posix_host stubborn_os default_kwargs))
                     0%nat) by (vm_compute; eauto).
  assert (Hfuel : (polling_rounds Process.TERMINATE_TIMEOUT
      <= polling_rounds Process.TERMINATE_TIMEOUT)%nat)
    by reflexivity.
  split; [reflexivity|]. split; [exact Hknown|]. split; [exact Hfuel|].
  pose proof (terminate_escalation posix_host stubborn_os
         (polling_rounds Process.TERMINATE_TIMEOUT) 0%nat _
                eq_refl Hknown Hfuel) as Hout.
  cbn zeta in Hout.
  assert (Hrun : exists w1,
             @Process._terminate posix_host stubborn_os
         (polling_rounds Process.TERMINATE_TIMEOUT) 0%nat
               (Process.world (@started posix_host stubborn_os default_kwargs))
             = Ret tt w1
             /\ siglog w1 = [(0%nat, SIGKILL, true); (0%nat, SIGTERM, true)]
             /\ clock w1 = 30100)
    by (eexists; split; [|split]; vm_compute; reflexivity).
  destruct Hrun as (w1 & Hrun & Hlog & Hclock). rewrite Hrun in Hout.
  destruct Hout as (Hconf & _).
  exists w1. split; [exact Hrun|]. split; [exact Hconf|].
  split; [exact Hlog|]. rewrite Hclock. lia.
Defined.
(* ================================================================== *)
(** * Processes that have ended stay ended *)
(* ================================================================== *)

Lemma respects_weaken {S A} (P Q : S -> S -> Prop) (m : M S A) :
  (forall s s', P s s' -> Q s s') -> respects P m -> respects Q m.
Proof.
  intros HPQ Hm s. specialize (Hm s). destruct (m s); auto.
Qed.

Lemma respects_returns {S A} (P : S -> S -> Prop) (m : M S A) (s s' : S) (a : A) :
  respects P m -> m s = Ret a s' -> P s s'.
Proof. intros Hm Heq. specialize (Hm s). now rewrite Heq in Hm. Qed.


Lemma advances_refl (w : World) : advances w w.
Proof. intros q po Hpo. eauto. Qed.

Lemma advances_trans (w1 w2 w3 : World) :
  advances w1 w2 -> advances w2 w3 -> advances w1 w3.
Proof.
  intros H12 H23 q po Hpo. destruct (H12 q po Hpo) as (po2 & Hpo2 & Hrc2).
  destruct (H23 q po2 Hpo2) as (po3 & Hpo3 & Hrc3). eauto.
Qed.

Lemma advances_same_popens (w w' : World) : same_popens w w' -> advances w w'.
Proof. intros Hsame q po Hpo. rewrite Hsame. eauto. Qed.

Lemma advances_evolves (w w' : World) : evolves w w' -> advances w w'.
Proof. intros [Hsame _]. now apply advances_same_popens. Qed.

Lemma advances_confirmed (w w' : World) (p : nat) :
  advances w w' -> confirmed_stopped w p -> confirmed_stopped w' p.
Proof.
  intros Hadv (po & code & Hpo & Hcode).
  destruct (Hadv p po Hpo) as (po' & Hpo' & Hrc).
  destruct Hrc as [code' Hcode']; [rewrite Hcode; eauto|].
  now exists po', code'.
Qed.

Lemma advances_known (w w' : World) (p : nat) :
  advances w w' -> known_process w p -> known_process w' p.
Proof.
  intros Hadv [po Hpo]. destruct (Hadv p po Hpo) as (po' & Hpo' & _).
  now exists po'.
Qed.

Lemma proceeds_refl (st : Process.t) : proceeds st st.
Proof. split; [reflexivity|apply advances_refl]. Qed.

Lemma proceeds_trans (st1 st2 st3 : Process.t) :
  proceeds st1 st2 -> proceeds st2 st3 -> proceeds st1 st3.
Proof.
  intros [Hp1 Ha1] [Hp2 Ha2]. split; [congruence|].
  exact (advances_trans _ _ _ Ha1 Ha2).
Qed.

Lemma respects_advances_update_popen (p : nat) (f : Popen.t -> Popen.t) :
  (forall po, is_Some (Popen.returncode po) -> is_Some (Popen.returncode (f po))) ->
  respects advances (update_popen p f).
Proof.
  intros Hf w q po Hpo. cbn [popens set_popens].
  destruct (decide (p = q)) as [->|Hne].
  - exists (f po). rewrite list_lookup_alter_eq, Hpo. auto.
  - exists po. rewrite list_lookup_alter_ne by exact Hne. auto.
Qed.

Lemma respects_advances_same {A} (m : M World A) :
  respects same_popens m -> respects advances m.
Proof. apply respects_weaken, advances_same_popens. Qed.

Lemma respects_same_popens_sleep (d : Z) : respects same_popens (sleep d).
Proof. intros w. unfold sleep. destruct (d <? 0); reflexivity. Qed.

Lemma respects_same_popens_deliver `{OS} (p : nat) (sig : signal) (group : bool) :
  respects same_popens (deliver p sig group).
Proof. intros w. rewrite deliver_cases. destruct (os_signal_fails w p sig); reflexivity. Qed.

Lemma respects_same_popens_is_closed (id : nat) :
  respects same_popens (is_closed id).
Proof. intros w. unfold is_closed. destruct (objects w !! id); reflexivity. Qed.

(** Leaves of a proof that code lets the processes advance. *)
Ltac advances_leaf :=
  first
    [ apply respects_advances_update_popen; intros ? ?; cbn; eauto
    | apply respects_modify; intros ?; apply advances_same_popens; reflexivity
    | apply respects_advances_same;
      first [ apply respects_same_popens_get_popen
            | apply respects_same_popens_sleep
            | apply respects_same_popens_deliver
            | apply respects_same_popens_is_closed
            | apply respects_same_popens_read_if_some
            | apply respects_same_popens_close_if_some ] ].

Lemma respects_advances_poll `{OS} (p : nat) : respects advances (poll p).
Proof.
  unfold poll. effects advances_refl advances_trans; advances_leaf.
Qed.

Lemma respects_advances_stopped_loop `{Host} `{OS} (p : nat)
    (timeout max_time : Z) (fuel : nat) :
  respects advances (Process.stopped_loop fuel p timeout max_time).
Proof.
  induction fuel as [|fuel IH]; [intros w; exact I|].
  cbn [Process.stopped_loop].
  effects advances_refl advances_trans; first [ apply IH | advances_leaf ].
Qed.

Lemma respects_advances_process_is_stopped `{Host} `{OS} (fuel : nat) (p : nat)
    (timeout : Z) :
  respects advances (Process._process_is_stopped fuel p timeout).
Proof.
  unfold Process._process_is_stopped.
  effects advances_refl advances_trans;
    first [ apply respects_advances_stopped_loop | advances_leaf ].
Qed.

Lemma respects_advances_kill `{Host} `{OS} (fuel : nat) (p : nat) :
  respects advances (Process._kill fuel p).
Proof.
  unfold Process._kill.
  effects advances_refl advances_trans;
    first [ apply respects_advances_stopped_loop | advances_leaf ].
Qed.

Lemma respects_advances_terminate `{Host} `{OS} (fuel : nat) (p : nat) :
  respects advances (Process._terminate fuel p).
Proof.
  unfold Process._terminate.
  effects advances_refl advances_trans;
    first [ apply respects_advances_stopped_loop | advances_leaf ].
Qed.

Lemma respects_advances_communicate `{OS} (p : nat) :
  respects advances (communicate p).
Proof.
  unfold communicate.
  effects advances_refl advances_trans; advances_leaf.
Qed.

Lemma respects_advances_forget_closed_stdin `{Host} `{OS} (p : nat) :
  respects advances (Process.forget_closed_stdin p).
Proof.
  unfold Process.forget_closed_stdin.
  effects advances_refl advances_trans; advances_leaf.
Qed.

Lemma respects_proceeds_in_world {A} (m : M World A) :
  respects advances m -> respects proceeds (Process.in_world m).
Proof.
  intros Hm st. unfold Process.in_world. specialize (Hm (Process.world st)).
  destruct (m (Process.world st)); try exact I; split; auto.
Qed.

Lemma respects_proceeds_on_result {A} (p : nat)
    (m : M ExecutionResult.self_world A) :
  respects keeps_result m -> respects proceeds (Process.on_result p m).
Proof.
  intros Hm st. unfold Process.on_result.
  destruct (Process._results st !! p) as [r|]; [|apply proceeds_refl].
  specialize (Hm (r, Process.world st)).
  destruct (m (r, Process.world st)) as [a rw|e rw|]; try exact I;
    destruct Hm as (_ & _ & _ & Hev); split; try reflexivity;
    apply advances_evolves, Hev.
Qed.

Lemma respects_proceeds_update (p : nat) (f : ExecutionResult.t -> ExecutionResult.t) :
  respects proceeds (Process.on_result p (ExecutionResult.update f)).
Proof.
  intros st. unfold Process.on_result.
  destruct (Process._results st !! p) as [r|]; [|apply proceeds_refl].
  split; [reflexivity|apply advances_refl].
Qed.

Lemma respects_proceeds_get_result (p : nat) :
  respects proceeds (Process.get_result p).
Proof.
  intros st. unfold Process.get_result.
  destruct (Process._results st !! p); apply proceeds_refl.
Qed.

Lemma respects_evolves_close_open `{OS} (streams : list (option nat)) :
  respects evolves (ExecutionResult.close_open streams).
Proof.
  induction streams as [|s streams IH]; cbn [ExecutionResult.close_open].
  - apply respects_ret, evolves_refl.
  - apply respects_bind; [exact evolves_trans| |].
    + apply respects_evolves_is_open.
    + intros opened. apply respects_bind; [exact evolves_trans| |].
      * destruct opened; [|apply respects_ret, evolves_refl].
        destruct s as [id|]; [apply respects_evolves_close|].
        apply respects_ret, evolves_refl.
      * intros _. exact IH.
Qed.

Lemma respects_keeps_close_streams `{Host} `{OS} :
  respects keeps_result ExecutionResult.close_streams.
Proof.
  unfold ExecutionResult.close_streams.
  effects keeps_result_refl keeps_result_trans;
    first [ apply respects_keeps_on_snd, respects_evolves_close_open
          | keeps_leaf ].
Qed.

Lemma respects_proceeds_wait_loop `{Host} `{OS} (kfuel : nat) (p : nat)
    (fuel : nat) :
  respects proceeds (Process.wait_loop kfuel fuel p).
Proof.
  induction fuel as [|fuel IH]; [intros st; exact I|].
  cbn [Process.wait_loop].
  apply respects_try_except; [exact proceeds_trans| |].
  - apply respects_bind; [exact proceeds_trans| |].
    + apply respects_proceeds_in_world, respects_advances_communicate.
    + intros outs. apply respects_proceeds_on_result,
        respects_keeps_store_output.
  - intros e handler He. destruct e; try discriminate He; inversion He; subst.
    + exact IH.
    + apply respects_bind; [exact proceeds_trans| |].
      * apply respects_proceeds_in_world, respects_advances_kill.
      * intros _. apply respects_raise, proceeds_refl.
Qed.

Lemma respects_proceeds_wait `{Host} `{OS} (fuel : nat) (p : nat) :
  respects proceeds (Process._wait fuel p).
Proof.
  unfold Process._wait.
  repeat first
    [ apply respects_bind; [exact proceeds_trans| |]
    | intro
    | apply respects_proceeds_get_result
    | apply respects_proceeds_wait_loop
    | apply respects_proceeds_update
    | apply respects_proceeds_on_result, respects_keeps_close_streams
    | apply respects_proceeds_in_world;
      first [ apply respects_advances_forget_closed_stdin
            | apply respects_advances_same, respects_same_popens_get_popen ] ].
Qed.

Lemma respects_proceeds_get_process (h : handle) :
  respects proceeds (Process.get_process h).
Proof.
  intros st. unfold Process.get_process, bind, get, lift.
  destruct (ConnectionCache.get_connection (Process._processes st) h);
    apply proceeds_refl.
Qed.

Lemma respects_proceeds_terminate_process `{Host} `{OS} (fuel : nat)
    (h : handle) (kill : bool) :
  respects proceeds (Process.terminate_process fuel h kill).
Proof.
  unfold Process.terminate_process.
  apply respects_bind; [exact proceeds_trans| |].
  - apply respects_proceeds_get_process.
  - intros p. destruct (negb has_terminate);
      [apply respects_raise, proceeds_refl|].
    apply respects_bind; [exact proceeds_trans| |].
    + apply respects_try_except; [exact proceeds_trans| |].
      * apply respects_proceeds_in_world.
        destruct kill; [apply respects_advances_kill
                       |apply respects_advances_terminate].
      * intros e handler He. destruct e; try discriminate He.
        inversion He. subst handler.
        apply respects_bind; [exact proceeds_trans| |].
        -- apply respects_proceeds_in_world,
             respects_advances_process_is_stopped.
        -- intros s. destruct (negb s);
             [apply respects_raise|apply respects_ret]; apply proceeds_refl.
    + intros _. apply respects_proceeds_wait.
Qed.
(* ================================================================== *)
(** * [terminate_process] when the signal is refused *)
(* ================================================================== *)

Lemma confirmed_stopped_same_popens (w w' : World) (p : nat) :
  popens w' = popens w -> confirmed_stopped w p -> confirmed_stopped w' p.
Proof. unfold confirmed_stopped. now intros ->. Qed.

(** What the [try] statement of [terminate_process] does when the
    signal of the terminator is refused. *)
Lemma terminator_refused `{Host} `{OS} (fuel : nat) (p : nat) (kill : bool)
    (w : World) :
  has_killpg = true ->
  os_signal_fails w p (if kill then SIGKILL else SIGTERM) = true ->
  (if kill then Process._kill else Process._terminate) fuel p w
  = Raise OSError w.
Proof.
  intros Hkillpg Hfails. destruct kill.
  - rewrite (kill_step fuel p w Hkillpg). now rewrite Hfails.
  - rewrite (terminate_step fuel p w Hkillpg). now rewrite Hfails.
Qed.

Lemma terminate_process_step `{Host} `{OS} (fuel : nat) (h : handle)
    (kill : bool) (st : Process.t) (p : nat) :
  has_terminate = true ->
  Process.get_process h st = Ret p st ->
  Process.terminate_process fuel h kill st
  = match Process.in_world
            ((if kill then Process._kill else Process._terminate) fuel p) st with
    | Ret _ st1 => Process._wait fuel p st1
    | Raise OSError st1 =>
        match Process.in_world
                (Process._process_is_stopped fuel p Process.KILL_TIMEOUT) st1 with
        | Ret true st2 => Process._wait fuel p st2
        | Ret false st2 => Raise OSError st2
        | Raise e st2 => Raise e st2
        | Diverge => Diverge
        end
    | Raise e st1 => Raise e st1
    | Diverge => Diverge
    end.
Proof.
  intros Hterminate Hget. unfold Process.terminate_process.
  unfold bind at 1. rewrite Hget, Hterminate. cbn [negb].
  unfold bind at 1, try_except.
  destruct (Process.in_world
              ((if kill then Process._kill else Process._terminate) fuel p) st)
    as [[] st1|e st1|]; [reflexivity| |reflexivity].
  destruct e; cbn [except_IOError]; try reflexivity.
  unfold bind.
  destruct (Process.in_world
              (Process._process_is_stopped fuel p Process.KILL_TIMEOUT) st1)
    as [[|] st2|e st2|]; reflexivity.
Qed.

(** X4: [terminate_process] where the signal of the terminator is
    refused with [OSError].  The error is ignored exactly when the
    process is then found to have ended within the kill timeout, and
    the keyword goes on to [_wait]; otherwise [OSError] is raised, after
    more than the kill timeout and with the process still running.  For
    a process known to have ended the keyword is [_wait] itself. *)
Theorem terminate_process_refused_signal (host : Host) (os : OS) (fuel : nat)
    (h : handle) (kill : bool) (st : Process.t) (p : nat) :
  has_terminate = true ->
  has_killpg = true ->
  Process.get_process h st = Ret p st ->
  os_signal_fails (Process.world st) p (if kill then SIGKILL else SIGTERM)
  = true ->
  let polled :=
    Process.in_world (Process._process_is_stopped fuel p Process.KILL_TIMEOUT) st in
  (forall st1,
     polled = Ret true st1 ->
     Process.terminate_process fuel h kill st = Process._wait fuel p st1)
  /\ (forall st1,
        polled = Ret false st1 ->
        Process.terminate_process fuel h kill st = Raise OSError st1
        /\ siglog (Process.world st1) = siglog (Process.world st)
        /\ os_exit_status (Process.world st1) p = None
        /\ clock (Process.world st) + Process.KILL_TIMEOUT
           < clock (Process.world st1))
  /\ (confirmed_stopped (Process.world st) p ->
      (0 < fuel)%nat ->
      Process.terminate_process fuel h kill st
      = Process._wait fuel p
          (Process.mk (Process._processes st) (Process._results st)
                      (Process.world st))).
Proof.
  intros Hterminate Hkillpg Hget Hfails polled.
  pose proof (terminate_process_step fuel h kill st p Hterminate Hget) as Hstep.
  unfold Process.in_world at 1 in Hstep.
  rewrite (terminator_refused fuel p kill _ Hkillpg Hfails) in Hstep.
  assert (Hpolled :
            Process.in_world
              (Process._process_is_stopped fuel p Process.KILL_TIMEOUT)
              (Process.mk (Process._processes st) (Process._results st)
                          (Process.world st))
            = polled) by reflexivity.
  rewrite Hpolled in Hstep. split; [|split].
  - intros st1 Heq. now rewrite Hstep, Heq.
  - intros st1 Heq. rewrite Hstep, Heq. split; [reflexivity|].
    pose proof (in_world_outcome
                  (Process._process_is_stopped fuel p Process.KILL_TIMEOUT) st)
      as Hout.
    fold polled in Hout. rewrite Heq in Hout. destruct Hout as (Hrun & _).
    pose proof (process_is_stopped_quiet fuel p Process.KILL_TIMEOUT
                  (Process.world st)) as Hquiet.
    pose proof (process_is_stopped_clock fuel p Process.KILL_TIMEOUT
                  (Process.world st)) as Hclock.
    rewrite Hrun in Hquiet, Hclock.
    destruct Hquiet as [Hstatus Hsig].
    destruct Hclock as (_ & _ & _ & Hlate & _). auto.
  - intros Hconf Hfuel. destruct fuel as [|fuel]; [lia|].
    rewrite Hstep. subst polled. unfold Process.in_world.
    now rewrite (process_is_stopped_confirmed fuel p Process.KILL_TIMEOUT
                   _ Hconf).
Qed.

Lemma terminate_process_refused_signal_witness :
  let st := @finished posix_host reaping_os default_kwargs in
  @has_terminate posix_host = true
  /\ @has_killpg posix_host = true
  /\ Process.get_process HandleNone st = Ret 0%nat st
  /\ @os_signal_fails reaping_os (Process.world st) 0%nat SIGTERM = true
  /\ confirmed_stopped (Process.world st) 0%nat
  /\ exists r st',
       @Process.terminate_process posix_host reaping_os 1 HandleNone false st
       = Ret r st'
       /\ ExecutionResult.rc r = Some 0
       /\ siglog (Process.world st') = [].
Proof.
  cbn zeta.
  assert (Hget : Process.get_process HandleNone
                   (@finished posix_host reaping_os default_kwargs)
                 = Ret 0%nat (@finished posix_host reaping_os default_kwargs))
    by (vm_compute; reflexivity).
  assert (Hfails : @os_signal_fails reaping_os
                     (Process.world (@finished posix_host reaping_os default_kwargs))
                     0%nat SIGTERM = true)
    by (vm_compute; reflexivity).
  assert (Hconf : confirmed_stopped
                    (Process.world (@finished posix_host reaping_os default_kwargs))
                    0%nat)
    by (eexists _, _; split; vm_compute; reflexivity).
  split; [reflexivity|]. split; [reflexivity|]. split; [exact Hget|].
  split; [exact Hfails|]. split; [exact Hconf|].
  destruct (terminate_process_refused_signal posix_host reaping_os 1 HandleNone
              false _ 0%nat eq_refl eq_refl Hget Hfails)
    as (_ & _ & Hfinished).
  rewrite (Hfinished Hconf ltac:(lia)).
  eexists _, _. split; [vm_compute; reflexivity|].
  split; vm_compute; reflexivity.
Defined.
(* ================================================================== *)
(** * What [_wait] returns *)
(* ================================================================== *)

Lemma same_outside_refl (w : World) : same_outside w w.
Proof. repeat split. Qed.

Lemma same_outside_trans (w1 w2 w3 : World) :
  same_outside w1 w2 -> same_outside w2 w3 -> same_outside w1 w3.
Proof.
  intros (Hf1 & Hs1 & He1) (Hf2 & Hs2 & He2). repeat split; congruence.
Qed.

Lemma respects_outside_get_popen (p : nat) : respects same_outside (get_popen p).
Proof.
  intros w. unfold get_popen. destruct (popens w !! p); apply same_outside_refl.
Qed.

Lemma respects_outside_is_closed (id : nat) : respects same_outside (is_closed id).
Proof.
  intros w. unfold is_closed. destruct (objects w !! id); apply same_outside_refl.
Qed.

Lemma respects_outside_new_object (f : FileObj.t) :
  respects same_outside (new_object f).
Proof. intros w. repeat split. Qed.

Lemma respects_outside_read `{OS} (id : nat) : respects same_outside (read id).
Proof.
  intros w. unfold read. destruct (objects w !! id) as [f|];
    [|apply same_outside_refl].
  destruct (FileObj.closed f); [apply same_outside_refl|].
  destruct (FileObj.is_pipe f); [|apply same_outside_refl].
  destruct (os_pipe_read w id); apply same_outside_refl.
Qed.

Lemma respects_outside_sleep (d : Z) : respects same_outside (sleep d).
Proof. intros w. unfold sleep. destruct (d <? 0); repeat split. Qed.

Lemma respects_outside_close_if_some (s : option nat) :
  respects same_outside (close_if_some s).
Proof. destruct s; intros w; repeat split. Qed.

Lemma respects_outside_read_if_some `{OS} (s : option nat) :
  respects same_outside (read_if_some s).
Proof. destruct s; intros w; repeat split. Qed.

(** Leaves of a proof that code leaves files, signals and environment
    alone. *)
Ltac outside_leaf :=
  first
    [ apply respects_outside_get_popen
    | apply respects_outside_is_closed
    | apply respects_outside_new_object
    | apply respects_outside_read
    | apply respects_outside_sleep
    | apply respects_outside_close_if_some
    | apply respects_outside_read_if_some
    | apply respects_modify; intros ?; repeat split ].

Lemma respects_outside_poll `{OS} (p : nat) : respects same_outside (poll p).
Proof.
  unfold poll. effects same_outside_refl same_outside_trans; outside_leaf.
Qed.

Lemma respects_outside_communicate `{OS} (p : nat) :
  respects same_outside (communicate p).
Proof.
  unfold communicate.
  effects same_outside_refl same_outside_trans; outside_leaf.
Qed.

Lemma respects_outside_forget_closed_stdin `{Host} `{OS} (p : nat) :
  respects same_outside (Process.forget_closed_stdin p).
Proof.
  unfold Process.forget_closed_stdin.
  effects same_outside_refl same_outside_trans; outside_leaf.
Qed.

Lemma respects_outside_is_open (s : option nat) :
  respects same_outside (ExecutionResult._is_open s).
Proof.
  unfold ExecutionResult._is_open.
  effects same_outside_refl same_outside_trans; outside_leaf.
Qed.

Lemma respects_outside_read_stream `{Host} `{OS} (encoding : string)
    (path : option string) (s : option nat) :
  respects same_outside (ExecutionResult._read_stream encoding path s).
Proof.
  unfold ExecutionResult._read_stream, ExecutionResult.read_content, open_r.
  effects same_outside_refl same_outside_trans;
    first [ apply respects_outside_is_open | outside_leaf | idtac ].
  all: match goal with
       | H : except_IOError _ ?e = Some _ |- _ =>
           destruct e; try discriminate H; inversion H; subst;
           apply respects_ret, same_outside_refl
       end.
Qed.

Lemma respects_outside_close_open `{OS} (streams : list (option nat)) :
  respects same_outside (ExecutionResult.close_open streams).
Proof.
  induction streams as [|s streams IH]; cbn [ExecutionResult.close_open].
  - apply respects_ret, same_outside_refl.
  - effects same_outside_refl same_outside_trans;
      first [ exact IH | apply respects_outside_is_open | outside_leaf ].
Qed.

Lemma outside_kept_refl (s : ExecutionResult.self_world) : outside_kept s s.
Proof. apply same_outside_refl. Qed.

Lemma outside_kept_trans (s1 s2 s3 : ExecutionResult.self_world) :
  outside_kept s1 s2 -> outside_kept s2 s3 -> outside_kept s1 s3.
Proof. apply same_outside_trans. Qed.

Lemma respects_outside_on_snd {A} (m : M World A) :
  respects same_outside m ->
  respects outside_kept (@on_snd ExecutionResult.t World A m).
Proof.
  intros Hm s. unfold on_snd. specialize (Hm (snd s)).
  destruct (m (snd s)); try exact I; exact Hm.
Qed.

Ltac outside_kept_leaf :=
  first
    [ apply respects_outside_on_snd;
      first [ apply respects_outside_is_open
            | apply respects_outside_get_popen
            | apply respects_outside_read_stream
            | apply respects_outside_close_open ]
    | unfold ExecutionResult.update; apply respects_modify; intros ?;
      apply same_outside_refl ].

Lemma respects_outside_close_streams `{Host} `{OS} :
  respects outside_kept ExecutionResult.close_streams.
Proof.
  unfold ExecutionResult.close_streams.
  effects outside_kept_refl outside_kept_trans; outside_kept_leaf.
Qed.

Lemma respects_outside_store_output `{Host} (outs : option bytes * option bytes) :
  respects outside_kept
    (ExecutionResult.set_stdout (fst outs) ;;;
     ExecutionResult.set_stderr (snd outs)).
Proof.
  effects outside_kept_refl outside_kept_trans; outside_kept_leaf.
Qed.

(** A method call on a result object, as far as the world goes. *)
Lemma on_result_world {A} (R : World -> World -> Prop) (p : nat)
    (m : M ExecutionResult.self_world A) :
  (forall w, R w w) ->
  respects (fun s s' => R (snd s) (snd s')) m ->
  respects (fun st st' => R (Process.world st) (Process.world st'))
           (Process.on_result p m).
Proof.
  intros Hrefl Hm st. unfold Process.on_result.
  destruct (Process._results st !! p) as [r|]; [|apply Hrefl].
  specialize (Hm (r, Process.world st)).
  destruct (m (r, Process.world st)); try exact I; exact Hm.
Qed.

Lemma in_world_world {A} (R : World -> World -> Prop) (m : M World A) :
  respects R m ->
  respects (fun st st' => R (Process.world st) (Process.world st'))
           (Process.in_world m).
Proof.
  intros Hm st. unfold Process.in_world. specialize (Hm (Process.world st)).
  destruct (m (Process.world st)); try exact I; exact Hm.
Qed.

(** When the drain loop returns, it has sent no signal and written no
    file. *)
Lemma wait_loop_returns_quietly `{Host} `{OS} (kfuel : nat) (p : nat)
    (fuel : nat) :
  forall st st',
    Process.wait_loop kfuel fuel p st = Ret tt st' ->
    same_outside (Process.world st) (Process.world st').
Proof.
  induction fuel as [|fuel IH]; intros st st'; [discriminate|].
  rewrite wait_loop_step.
  pose proof (in_world_world same_outside (communicate p)
                (respects_outside_communicate p) st) as Hcomm.
  destruct (Process.in_world (communicate p) st) as [outs st1|e st1|];
    [|destruct e; try discriminate|discriminate].
  - intros Hstore.
    pose proof (on_result_world same_outside p _ same_outside_refl
                  (respects_outside_store_output outs) st1) as Hout.
    rewrite Hstore in Hout.
    exact (same_outside_trans _ _ _ Hcomm Hout).
  - intros Hloop. exact (same_outside_trans _ _ _ Hcomm (IH _ _ Hloop)).
  - destruct (Process.in_world (Process._kill kfuel p) st1); discriminate.
Qed.

(** The whole of [_wait], when it returns. *)
Lemma wait_returns_quietly `{Host} `{OS} (fuel : nat) (p : nat)
    (st st' : Process.t) (r : ExecutionResult.t) :
  Process._wait fuel p st = Ret r st' ->
  same_outside (Process.world st) (Process.world st').
Proof.
  unfold Process._wait. intros Hwait.
  apply bind_inv in Hwait as (r0 & s1 & Hget & Hwait).
  unfold Process.get_result in Hget.
  destruct (Process._results st !! p); [|discriminate].
  inversion Hget. subst s1. clear Hget.
  apply bind_inv in Hwait as ([] & s2 & Hforget & Hwait).
  pose proof (respects_returns _ _ _ _ _
                (in_world_world same_outside _
                   (respects_outside_forget_closed_stdin p)) Hforget) as Hq2.
  apply bind_inv in Hwait as ([] & s3 & Hloop & Hwait).
  pose proof (wait_loop_returns_quietly _ _ _ _ _ Hloop) as Hq3.
  apply bind_inv in Hwait as (po & s4 & Hpopen & Hwait).
  pose proof (respects_returns _ _ _ _ _
                (in_world_world same_outside _
                   (respects_outside_get_popen p)) Hpopen) as Hq4.
  apply bind_inv in Hwait as ([] & s5 & Hset & Hwait).
  apply on_result_returns in Hset as (r4 & rw5 & _ & Hm5 & _ & Hw5).
  unfold ExecutionResult.update, modify in Hm5. inversion Hm5. subst rw5.
  cbn [snd] in Hw5.
  apply bind_inv in Hwait as ([] & s6 & Hclose & Hwait).
  pose proof (respects_returns _ _ _ _ _
                (on_result_world same_outside p _ same_outside_refl
                   respects_outside_close_streams) Hclose) as Hq6.
  unfold Process.get_result in Hwait.
  destruct (Process._results s6 !! p); [|discriminate].
  inversion Hwait. subst s6.
  rewrite Hw5 in Hq6.
  eapply same_outside_trans; [exact Hq2|].
  eapply same_outside_trans; [exact Hq3|].
  eapply same_outside_trans; [exact Hq4|]. exact Hq6.
Qed.

(** The return code of the result that [_wait] returns is that of the
    process. *)
Lemma wait_return_code `{Host} `{OS} (fuel : nat) (p : nat)
    (st st' : Process.t) (r : ExecutionResult.t) :
  results_filed st ->
  Process._wait fuel p st = Ret r st' ->
  exists po code,
    popens (Process.world st') !! p = Some po
    /\ Popen.returncode po = Some code
    /\ ExecutionResult.rc r = Some code.
Proof.
  intros Hfiled. unfold Process._wait. intros Hwait.
  apply bind_inv in Hwait as (r0 & s1 & Hget & Hwait).
  unfold Process.get_result in Hget.
  destruct (Process._results st !! p) as [r0'|] eqn:Hr0; [|discriminate].
  inversion Hget. subst r0' s1. clear Hget.
  apply bind_inv in Hwait as ([] & s2 & Hforget & Hwait).
  pose proof (in_world_outcome (Process.forget_closed_stdin p) st) as Hout.
  rewrite Hforget in Hout. destruct Hout as (_ & _ & Hres2).
  apply bind_inv in Hwait as ([] & s3 & Hloop & Hwait).
  apply wait_loop_returns in Hloop as [(po & code & Hpo & Hcode) Hfiled3];
    [|intros q r'; rewrite Hres2; apply Hfiled].
  apply bind_inv in Hwait as (po' & s4 & Hpopen & Hwait).
  pose proof (in_world_outcome (get_popen p) s3) as Hout.
  rewrite Hpopen in Hout. destruct Hout as (Hpopen' & _ & Hres4).
  pose proof (get_popen_outcome p (Process.world s3)) as Hout.
  rewrite Hpopen' in Hout. destruct Hout as [Hw4 Hpo'].
  assert (po' = po) as -> by congruence.
  apply bind_inv in Hwait as ([] & s5 & Hset & Hwait).
  apply on_result_returns in Hset as (r4 & rw5 & Hr4 & Hm5 & Hres5 & Hw5).
  unfold ExecutionResult.update, modify in Hm5. inversion Hm5. subst rw5.
  clear Hm5. cbn [fst snd] in *.
  apply bind_inv in Hwait as ([] & s6 & Hclose & Hwait).
  apply on_result_returns in Hclose as (r5 & rw6 & Hr5 & Hm6 & Hres6 & Hw6).
  rewrite Hres5, lookup_insert_eq in Hr5. inversion Hr5. subst r5. clear Hr5.
  apply (close_streams_finalizes _ _ _ code) in Hm6
    as (_ & _ & Hrc6 & Hpopens6); [|cbn; exact Hcode].
  unfold Process.get_result in Hwait.
  destruct (Process._results s6 !! p) as [r6|] eqn:Hr6; [|discriminate].
  inversion Hwait. subst r6 s6. clear Hwait.
  rewrite Hres6, lookup_insert_eq in Hr6. inversion Hr6. subst r.
  exists po, code. split; [|split; [exact Hcode|exact Hrc6]].
  rewrite Hw6, Hpopens6, Hw5, Hw4. exact Hpo.
Qed.

(** X5: when [_wait] returns, what it returns is the result object
    filed for the process, with the return code of the process, and every
    stream of the process and of the result is closed.  The registry is
    as it was, no signal has been sent and no file written, and every
    result object is still filed under its process. *)
Theorem wait_returns_finalized (host : Host) (os : OS) (fuel : nat) (p : nat)
    (st st' : Process.t) (r : ExecutionResult.t) :
  results_filed st ->
  Process._wait fuel p st = Ret r st' ->
  Process._results st' !! p = Some r
  /\ finalized r (Process.world st') = true
  /\ (exists po code,
        popens (Process.world st') !! p = Some po
        /\ Popen.returncode po = Some code
        /\ ExecutionResult.rc r = Some code)
  /\ Process._processes st' = Process._processes st
  /\ same_outside (Process.world st) (Process.world st')
  /\ results_filed st'.
Proof.
  intros Hfiled Hwait.
  destruct (wait_finalizes fuel p st st' r Hfiled Hwait)
    as (Hresult & Hfinal & Hfiled').
  split; [exact Hresult|]. split; [exact Hfinal|].
  split; [exact (wait_return_code fuel p st st' r Hfiled Hwait)|].
  split; [exact (proj1 (respects_returns _ _ _ _ _
                          (respects_proceeds_wait fuel p) Hwait))|].
  split; [exact (wait_returns_quietly fuel p st st' r Hwait)|].
  exact Hfiled'.
Qed.

Lemma wait_returns_finalized_witness :
  let st := @started posix_host example_os
              (with_streams (Some "out.txt") (Some "STDOUT") default_kwargs) in
  results_filed st
  /\ exists r st',
       @Process._wait posix_host example_os 10 0%nat st = Ret r st'
       /\ Process._results st' !! 0%nat = Some r
       /\ finalized r (Process.world st') = true
       /\ ExecutionResult.rc r = Some 0
       /\ siglog (Process.world st') = [].
Proof.
  cbn zeta.
  assert (Hfiled : results_filed
                     (@started posix_host example_os
                        (with_streams (Some "out.txt") (Some "STDOUT")
                           default_kwargs))).
  { intros p r. destruct p as [|p].
    - vm_compute. intros Heq. inversion Heq. reflexivity.
    - intros Hr. exfalso. revert Hr.
      assert (Hdom : dom (Process._results
                            (@started posix_host example_os
                               (with_streams (Some "out.txt") (Some "STDOUT")
                                  default_kwargs)))
                     = {[ 0%nat ]}) by (vm_compute; reflexivity).
      intros Hr. apply (elem_of_dom_2 (D := gset nat)) in Hr.
      rewrite Hdom in Hr. apply elem_of_singleton in Hr. discriminate. }
  split; [exact Hfiled|].
  assert (Hrun : exists r st',
             @Process._wait posix_host example_os 10 0%nat
               (@started posix_host example_os
                  (with_streams (Some "out.txt") (Some "STDOUT") default_kwargs))
             = Ret r st'
             /\ ExecutionResult.rc r = Some 0)
    by (eexists _, _; split; vm_compute; reflexivity).
  destruct Hrun as (r & st' & Hrun & Hrc).
  destruct (wait_returns_finalized posix_host example_os 10 0%nat _ st' r
              Hfiled Hrun)
    as (Hresult & Hfinal & _ & _ & (_ & Hsig & _) & _).
  exists r, st'. split; [exact Hrun|]. split; [exact Hresult|].
  split; [exact Hfinal|]. split; [exact Hrc|]. rewrite Hsig.
  vm_compute. reflexivity.
Defined.
(* ================================================================== *)
(** * The results that the waiting keywords return *)
(* ================================================================== *)

Lemma try_except_returns {S A} (m : M S A) (h : exn -> option (M S A))
    (s s' : S) (a : A) :
  try_except m h s = Ret a s' ->
  m s = Ret a s'
  \/ exists e s1 handler,
       m s = Raise e s1 /\ h e = Some handler /\ handler s1 = Ret a s'.
Proof.
  unfold try_except. destruct (m s) as [a1 s1|e s1|]; [auto| |discriminate].
  destruct (h e) as [handler|] eqn:He; [|discriminate].
  intros Heq. right. eauto 6.
Qed.

Lemma results_filed_same (st st' : Process.t) :
  Process._results st' = Process._results st ->
  results_filed st -> results_filed st'.
Proof. intros Hres Hfiled q r. rewrite Hres. apply Hfiled. Qed.

Lemma wait_finished_result `{Host} `{OS} (fuel : nat) (p : nat)
    (st st' : Process.t) (r : ExecutionResult.t) :
  results_filed st ->
  Process._wait fuel p st = Ret r st' ->
  finished_result st' p r
  /\ results_filed st'
  /\ Process._processes st' = Process._processes st.
Proof.
  intros Hfiled Hwait.
  destruct (wait_finalizes fuel p st st' r Hfiled Hwait)
    as (Hresult & Hfinal & Hfiled').
  split; [|split; [exact Hfiled'|]].
  - split; [exact Hresult|]. split; [exact Hfinal|].
    exact (wait_return_code fuel p st st' r Hfiled Hwait).
  - exact (proj1 (respects_returns _ _ _ _ _
                    (respects_proceeds_wait fuel p) Hwait)).
Qed.

(** What [terminate_process] returns. *)
Lemma terminate_process_returns `{Host} `{OS} (fuel : nat) (h : handle)
    (kill : bool) (st st' : Process.t) (p : nat) (r : ExecutionResult.t) :
  results_filed st ->
  Process.get_process h st = Ret p st ->
  Process.terminate_process fuel h kill st = Ret r st' ->
  finished_result st' p r
  /\ results_filed st'
  /\ Process._processes st' = Process._processes st.
Proof.
  intros Hfiled Hget. unfold Process.terminate_process.
  unfold bind at 1. rewrite Hget.
  destruct (negb has_terminate); [discriminate|].
  intros Hrun. apply bind_inv in Hrun as ([] & s1 & Htry & Hwait).
  assert (Hs1 : Process._results s1 = Process._results st
                /\ Process._processes s1 = Process._processes st).
  { apply try_except_returns in Htry
      as [Hterm|(e & s0 & handler & Hterm & He & Hhandler)].
    - pose proof (in_world_outcome
                    ((if kill then Process._kill else Process._terminate) fuel p)
                    st) as Hout.
      rewrite Hterm in Hout. destruct Hout as (_ & Hp & Hr). auto.
    - pose proof (in_world_outcome
                    ((if kill then Process._kill else Process._terminate) fuel p)
                    st) as Hout.
      rewrite Hterm in Hout. destruct Hout as (_ & Hp & Hr).
      destruct e; try discriminate He. inversion He. subst handler.
      apply bind_inv in Hhandler as (s & s2 & Hpoll & Hrest).
      pose proof (in_world_outcome
                    (Process._process_is_stopped fuel p Process.KILL_TIMEOUT)
                    s0) as Hout.
      rewrite Hpoll in Hout. destruct Hout as (_ & Hp2 & Hr2).
      destruct (negb s); [discriminate|]. inversion Hrest. subst s2.
      split; congruence. }
  destruct Hs1 as [Hres1 Hprocs1].
  destruct (wait_finished_result fuel p s1 st' r
              (results_filed_same st s1 Hres1 Hfiled) Hwait)
    as (Hfinished & Hfiled' & Hprocs').
  split; [exact Hfinished|]. split; [exact Hfiled'|]. congruence.
Qed.

Lemma get_process_same_registry (h : handle) (st st1 : Process.t) (p : nat) :
  Process._processes st1 = Process._processes st ->
  Process.get_process h st = Ret p st ->
  Process.get_process h st1 = Ret p st1.
Proof.
  intros Hprocs Hget. apply get_process_inv in Hget as [Hget _].
  apply get_process_intro. now rewrite Hprocs.
Qed.

(** What [wait_for_process] returns. *)
Lemma wait_for_process_returns `{Host} `{OS} (fuel : nat) (h : handle)
    (timeout : timeout_arg) (on_timeout : string) (st st' : Process.t)
    (p : nat) (o : option ExecutionResult.t) :
  results_filed st ->
  Process.get_process h st = Ret p st ->
  Process.wait_for_process fuel h timeout on_timeout st = Ret o st' ->
  match o with
  | Some r => finished_result st' p r
  | None =>
      exists t,
        Process._get_timeout timeout = inr t
        /\ 0 < t
        /\ lower on_timeout <> "terminate"
        /\ lower on_timeout <> "kill"
        /\ os_exit_status (Process.world st') p = None
        /\ siglog (Process.world st') = siglog (Process.world st)
        /\ clock (Process.world st) + t < clock (Process.world st')
        /\ Process._results st' = Process._results st
  end
  /\ results_filed st'
  /\ Process._processes st' = Process._processes st.
Proof.
  intros Hfiled Hget. unfold Process.wait_for_process.
  unfold bind at 1. rewrite Hget.
  destruct (Process._get_timeout timeout) as [e|t] eqn:Ht; [discriminate|].
  unfold bind at 1, lift, ret at 1.
  assert (Hplain : forall st0,
             results_filed st0 ->
             Process._processes st0 = Process._processes st ->
             (r <- Process._wait fuel p ;; ret (Some r)) st0 = Ret o st' ->
             match o with
             | Some r => finished_result st' p r
             | None => False
             end
             /\ results_filed st'
             /\ Process._processes st' = Process._processes st).
  { intros st0 Hfiled0 Hprocs0 Hrun.
    apply bind_inv in Hrun as (r & s1 & Hwait & Hret).
    inversion Hret. subst o s1.
    destruct (wait_finished_result fuel p st0 st' r Hfiled0 Hwait)
      as (Hfinished & Hfiled' & Hprocs').
    split; [exact Hfinished|]. split; [exact Hfiled'|congruence]. }
  assert (Hstop : forall kill st0,
             results_filed st0 ->
             Process._processes st0 = Process._processes st ->
             (r <- Process.terminate_process fuel h kill ;; ret (Some r)) st0
             = Ret o st' ->
             match o with
             | Some r => finished_result st' p r
             | None => False
             end
             /\ results_filed st'
             /\ Process._processes st' = Process._processes st).
  { intros kill st0 Hfiled0 Hprocs0 Hrun.
    apply bind_inv in Hrun as (r & s1 & Hterm & Hret).
    inversion Hret. subst o s1.
    destruct (terminate_process_returns fuel h kill st0 st' p r Hfiled0
                (get_process_same_registry h st st0 p Hprocs0 Hget) Hterm)
      as (Hfinished & Hfiled' & Hprocs').
    split; [exact Hfinished|]. split; [exact Hfiled'|congruence]. }
  destruct (0 <? t) eqn:Hpos.
  - intros Hrun. apply bind_inv in Hrun as (s & st1 & Hpoll & Hrun).
    pose proof (in_world_outcome (Process._process_is_stopped fuel p t) st)
      as Hout.
    rewrite Hpoll in Hout. destruct Hout as (Hpolled & Hprocs1 & Hres1).
    pose proof (results_filed_same st st1 Hres1 Hfiled) as Hfiled1.
    destruct s; cbn [negb] in Hrun.
    + destruct (Hplain st1 Hfiled1 Hprocs1 Hrun) as (Ho & Hrest).
      split; [|exact Hrest]. destruct o; [exact Ho|contradiction].
    + rewrite manage_process_timeout_dispatch in Hrun.
      destruct (String.eqb (lower on_timeout) "terminate") eqn:Hterm.
      { destruct (Hstop false st1 Hfiled1 Hprocs1 Hrun) as (Ho & Hrest).
        split; [|exact Hrest]. destruct o; [exact Ho|contradiction]. }
      destruct (String.eqb (lower on_timeout) "kill") eqn:Hkill.
      { destruct (Hstop true st1 Hfiled1 Hprocs1 Hrun) as (Ho & Hrest).
        split; [|exact Hrest]. destruct o; [exact Ho|contradiction]. }
      inversion Hrun. subst o st'.
      split; [|split; [exact Hfiled1|exact Hprocs1]].
      exists t. split; [reflexivity|]. split; [lia|].
      split; [now apply String.eqb_neq|]. split; [now apply String.eqb_neq|].
      pose proof (process_is_stopped_quiet fuel p t (Process.world st)) as Hq.
      pose proof (process_is_stopped_clock fuel p t (Process.world st)) as Hc.
      rewrite Hpolled in Hq, Hc. destruct Hq as [Hstatus Hsig].
      destruct Hc as (_ & _ & _ & Hlate & _). auto.
  - intros Hrun. destruct (Hplain st Hfiled eq_refl Hrun) as (Ho & Hrest).
    split; [|exact Hrest]. destruct o; [exact Ho|contradiction].
Qed.

(** X6: every result object that [terminate_process] or
    [wait_for_process] returns is the one filed for the process and is
    finalized: it has the return code of the process, and all its streams
    are closed.  [wait_for_process] returns [None] only with a positive
    timeout and a policy other than terminate and kill, after more than
    the timeout, for a process that the operating system still reports as
    running, and then it has sent no signal and touched no result. *)
Theorem returned_results_finished (host : Host) (os : OS) (fuel : nat)
    (h : handle) (st : Process.t) (p : nat) :
  results_filed st ->
  Process.get_process h st = Ret p st ->
  (forall kill r st',
     Process.terminate_process fuel h kill st = Ret r st' ->
     finished_result st' p r /\ results_filed st')
  /\ (forall timeout on_timeout r st',
        Process.wait_for_process fuel h timeout on_timeout st = Ret (Some r) st' ->
        finished_result st' p r /\ results_filed st')
  /\ (forall timeout on_timeout st',
        Process.wait_for_process fuel h timeout on_timeout st = Ret None st' ->
        exists t,
          Process._get_timeout timeout = inr t
          /\ 0 < t
          /\ lower on_timeout <> "terminate"
          /\ lower on_timeout <> "kill"
          /\ os_exit_status (Process.world st') p = None
          /\ siglog (Process.world st') = siglog (Process.world st)
          /\ clock (Process.world st) + t < clock (Process.world st')
          /\ Process._results st' = Process._results st).
Proof.
  intros Hfiled Hget. split; [|split].
  - intros kill r st' Hrun.
    destruct (terminate_process_returns fuel h kill st st' p r Hfiled Hget Hrun)
      as (Hfinished & Hfiled' & _). auto.
  - intros timeout on_timeout r st' Hrun.
    destruct (wait_for_process_returns fuel h timeout on_timeout st st' p
                (Some r) Hfiled Hget Hrun) as (Hfinished & Hfiled' & _). auto.
  - intros timeout on_timeout st' Hrun.
    exact (proj1 (wait_for_process_returns fuel h timeout on_timeout st st' p
                    None Hfiled Hget Hrun)).
Qed.
(* ================================================================== *)
(** * What [start_process] leaves behind *)
(* ================================================================== *)

Lemma new_pipe_returns (s : option stream) (w w' : World) (o : option nat) :
  new_pipe s w = Ret o w' ->
  popens w' = popens w /\ same_outside w w'.
Proof.
  destruct s as [[| |id]|]; cbn; intros Heq; inversion Heq;
    repeat split.
Qed.

(** The process that [Popen] creates is new and is not known to have
    ended. *)
Lemma spawn_returns `{OS} (cmd : command) (stdin stdout stderr : option stream)
    (w w' : World) (p : nat) :
  spawn cmd stdin stdout stderr w = Ret p w' ->
  p = length (popens w)
  /\ same_outside w w'
  /\ exists i o e, popens w' = (popens w ++ [Popen.mk p i o e None])%list.
Proof.
  unfold spawn. unfold bind at 1, get at 1.
  destruct (os_spawn_fails w cmd); [discriminate|].
  intros Hrun.
  apply bind_inv in Hrun as (i & w1 & Hi & Hrun).
  apply bind_inv in Hrun as (o & w2 & Ho & Hrun).
  apply bind_inv in Hrun as (e & w3 & He & Hrun).
  apply new_pipe_returns in Hi as [Hp1 Hs1].
  apply new_pipe_returns in Ho as [Hp2 Hs2].
  apply new_pipe_returns in He as [Hp3 Hs3].
  inversion Hrun. subst p w'. cbn [popens set_popens].
  rewrite Hp3, Hp2, Hp1. split; [reflexivity|]. split; [|eauto].
  pose proof (same_outside_trans _ _ _ Hs1 (same_outside_trans _ _ _ Hs2 Hs3))
    as (Hf & Hs & He).
  repeat split; assumption.
Qed.

(** A new result object belongs to its process and has neither return
    code nor output. *)
Lemma result_init_returns (process : nat) (stdout stderr stdin : option stream)
    (encoding : string) (w w' : World) (r : ExecutionResult.t) :
  ExecutionResult.__init__ process stdout stderr stdin encoding w = Ret r w' ->
  w' = w
  /\ ExecutionResult._process r = process
  /\ ExecutionResult.rc r = None
  /\ ExecutionResult._stdout r = None
  /\ ExecutionResult._stderr r = None
  /\ ExecutionResult._output_encoding r = encoding.
Proof.
  intros Hrun.
  pose proof (result_init_outcome process stdout stderr stdin encoding w) as Hw.
  rewrite Hrun in Hw. split; [exact Hw|].
  unfold ExecutionResult.__init__ in Hrun.
  apply bind_inv in Hrun as (p1 & w1 & _ & Hrun).
  apply bind_inv in Hrun as (p2 & w2 & _ & Hrun).
  inversion Hrun. repeat split.
Qed.

(** [start_process], when it returns, step by step. *)
Lemma start_process_returns `{Host} `{OS} (cmd : string) (arguments : list string)
    (kw : ProcessConfiguration.kwargs) (st st' : Process.t) (p : nat) :
  Process.start_process cmd arguments kw st = Ret p st' ->
  exists conf w1 w2 r cache,
    ProcessConfiguration.__init__ kw (Process.world st) = Ret conf w1
    /\ spawn (ProcessConfiguration.get_command conf cmd arguments)
         (ProcessConfiguration.stdin_stream conf)
         (Some (ProcessConfiguration.stdout_stream conf))
         (Some (ProcessConfiguration.stderr_stream conf)) w1
       = Ret p w2
    /\ ExecutionResult.__init__ p
         (Some (ProcessConfiguration.stdout_stream conf))
         (Some (ProcessConfiguration.stderr_stream conf))
         (ProcessConfiguration.stdin_stream conf)
         (ProcessConfiguration.output_encoding conf) w2
       = Ret r w2
    /\ ConnectionCache.register (Process._processes st) p
         (ProcessConfiguration.kw_alias kw) = inr cache
    /\ st' = Process.mk cache (<[p := r]> (Process._results st)) w2.
Proof.
  unfold Process.start_process. intros Hrun.
  apply bind_inv in Hrun as (conf & s1 & Hconf & Hrun).
  pose proof (in_world_outcome (ProcessConfiguration.__init__ kw) st) as Hout.
  rewrite Hconf in Hout. destruct Hout as (Hconf' & Hp1 & Hr1).
  apply bind_inv in Hrun as (process & s2 & Hspawn & Hrun).
  pose proof (in_world_outcome
                (spawn (ProcessConfiguration.get_command conf cmd arguments)
                   (ProcessConfiguration.stdin_stream conf)
                   (Some (ProcessConfiguration.stdout_stream conf))
                   (Some (ProcessConfiguration.stderr_stream conf))) s1) as Hout.
  rewrite Hspawn in Hout. destruct Hout as (Hspawn' & Hp2 & Hr2).
  apply bind_inv in Hrun as (r & s3 & Hinit & Hrun).
  pose proof (in_world_outcome
                (ExecutionResult.__init__ process
                   (Some (ProcessConfiguration.stdout_stream conf))
                   (Some (ProcessConfiguration.stderr_stream conf))
                   (ProcessConfiguration.stdin_stream conf)
                   (ProcessConfiguration.output_encoding conf)) s2) as Hout.
  rewrite Hinit in Hout. destruct Hout as (Hinit' & Hp3 & Hr3).
  pose proof (result_init_returns _ _ _ _ _ _ _ _ Hinit') as (Hw3 & _).
  apply bind_inv in Hrun as ([] & s4 & Hmod & Hrun).
  unfold modify in Hmod. inversion Hmod. subst s4. clear Hmod.
  apply bind_inv in Hrun as (s5 & s6 & Hget & Hrun).
  unfold get in Hget. inversion Hget. subst s5 s6. clear Hget.
  apply bind_inv in Hrun as (cache & s7 & Hreg & Hrun).
  cbn [Process._processes] in Hreg.
  destruct (ConnectionCache.register (Process._processes s3) process
              (ProcessConfiguration.alias conf)) as [e|cache'] eqn:Hregister;
    [discriminate|].
  inversion Hreg. subst cache' s7. clear Hreg.
  apply bind_inv in Hrun as ([] & s8 & Hmod & Hrun).
  unfold modify in Hmod. inversion Hmod. subst s8. clear Hmod.
  cbn [Process._results Process.world] in Hrun.
  assert (Hcurrent : ConnectionCache.current cache = Some process).
  { revert Hregister. unfold ConnectionCache.register.
    destruct (ProcessConfiguration.alias conf) as [a|].
    - destruct (ConnectionCache.aliases (Process._processes s3) !! a);
        [discriminate|]. intros Heq. inversion Heq. reflexivity.
    - intros Heq. inversion Heq. reflexivity. }
  rewrite Hcurrent in Hrun. inversion Hrun. subst process st'.
  rewrite (config_init_alias kw _ _ _ Hconf') in Hregister.
  exists conf, (Process.world s1), (Process.world s2), r, cache.
  split; [exact Hconf'|]. split; [exact Hspawn'|].
  split; [rewrite Hw3 in Hinit'; exact Hinit'|].
  split; [congruence|]. rewrite Hr3, Hr2, Hr1, Hw3. reflexivity.
Qed.

Lemma results_filed_init (w : World) : results_filed (Process.__init__ w).
Proof. intros p r. cbn. rewrite lookup_empty. discriminate. Qed.

(** A registration makes the connection the active one and findable by
    its index, its alias and itself; what could be looked up before,
    other than the active connection, is found as before. *)
Lemma register_lookups (cache cache' : ConnectionCache.t) (p : nat)
    (alias : option string) :
  ConnectionCache.register cache p alias = inr cache' ->
  ConnectionCache.get_connection cache' HandleNone = inr p
  /\ ConnectionCache.get_connection cache' (HandleObject p) = inr p
  /\ (forall a, alias = Some a ->
                ConnectionCache.get_connection cache' (HandleAlias a) = inr p)
  /\ (forall h q, h <> HandleNone ->
                  ConnectionCache.get_connection cache h = inr q ->
                  ConnectionCache.get_connection cache' h = inr q).
Proof.
  intros Hreg.
  assert (Hshape :
            ConnectionCache.connections cache'
            = (ConnectionCache.connections cache ++ [p])%list
            /\ ConnectionCache.current cache' = Some p
            /\ match alias with
               | Some a =>
                   ConnectionCache.aliases cache !! a = None
                   /\ ConnectionCache.aliases cache'
                      = <[a := S (length (ConnectionCache.connections cache))]>
                          (ConnectionCache.aliases cache)
               | None =>
                   ConnectionCache.aliases cache' = ConnectionCache.aliases cache
               end).
  { revert Hreg. unfold ConnectionCache.register. destruct alias as [a|].
    - destruct (ConnectionCache.aliases cache !! a) eqn:Ha; [discriminate|].
      intros Heq. inversion Heq. cbn. auto.
    - intros Heq. inversion Heq. cbn. auto. }
  destruct Hshape as (Hconns & Hcurrent & Haliases).
  assert (Hindex : forall i q,
             ConnectionCache.by_index cache i = inr q ->
             ConnectionCache.by_index cache' i = inr q).
  { intros [|n] q; cbn; [discriminate|]. rewrite Hconns.
    destruct (ConnectionCache.connections cache !! n) as [c|] eqn:Hc;
      [|discriminate].
    intros Heq. now rewrite (lookup_app_l_Some _ _ _ _ Hc). }
  assert (Hnew : ConnectionCache.by_index cache'
                   (S (length (ConnectionCache.connections cache))) = inr p).
  { cbn. rewrite Hconns, lookup_app_r by lia.
    now rewrite Nat.sub_diag. }
  split; [cbn; now rewrite Hcurrent|].
  split.
  { cbn. rewrite Hconns. rewrite bool_decide_eq_true_2; [reflexivity|].
    apply elem_of_app. right. now apply list_elem_of_singleton. }
  split.
  { intros a ->. destruct Haliases as [_ Ha]. cbn. rewrite Ha.
    rewrite lookup_insert_eq. exact Hnew. }
  intros h q Hh. destruct h as [|i|a'|q']; [contradiction| | |].
  - apply Hindex.
  - cbn. destruct (ConnectionCache.aliases cache !! a') as [i|] eqn:Ha';
      [|discriminate].
    intros Hq. destruct alias as [a|].
    + destruct Haliases as [Hfresh ->].
      rewrite lookup_insert_ne by congruence. rewrite Ha'. now apply Hindex.
    + rewrite Haliases, Ha'. now apply Hindex.
  - cbn. rewrite Hconns.
    destruct (bool_decide (q' ∈ ConnectionCache.connections cache)) eqn:Hin;
      [|discriminate].
    intros Heq. rewrite bool_decide_eq_true_2; [exact Heq|].
    apply bool_decide_eq_true_1 in Hin. apply elem_of_app. now left.
Qed.

(** The process that [start_process] returns is new, is found by itself
    as handle, and is registered last. *)
Lemma start_process_handle `{Host} `{OS} (cmd : string) (arguments : list string)
    (kw : ProcessConfiguration.kwargs) (st st' : Process.t) (p : nat) :
  Process.start_process cmd arguments kw st = Ret p st' ->
  popens (Process.world st) !! p = None
  /\ Process.get_process (HandleObject p) st' = Ret p st'
  /\ ConnectionCache.connections (Process._processes st')
     = (ConnectionCache.connections (Process._processes st) ++ [p])%list
  /\ (results_filed st -> results_filed st').
Proof.
  intros Hrun.
  destruct (start_process_returns cmd arguments kw st st' p Hrun)
    as (conf & w1 & w2 & r & cache & Hconf & Hspawn & Hinit & Hreg & ->).
  pose proof (respects_returns _ _ _ _ _
                (proj1 (config_init_same_popens kw)) Hconf) as Hsame.
  unfold same_popens in Hsame.
  destruct (spawn_returns _ _ _ _ _ _ _ Hspawn) as (Hp & _).
  rewrite Hsame in Hp.
  destruct (result_init_returns _ _ _ _ _ _ _ _ Hinit) as (_ & Hprocess & _).
  destruct (register_lookups _ _ _ _ Hreg) as (_ & Hobject & _).
  split; [apply lookup_ge_None; lia|].
  split; [now apply get_process_intro|].
  split.
  { cbn [Process._processes]. revert Hreg. unfold ConnectionCache.register.
    destruct (ProcessConfiguration.kw_alias kw) as [a|].
    - destruct (ConnectionCache.aliases (Process._processes st) !! a);
        [discriminate|]. intros Heq. now inversion Heq.
    - intros Heq. now inversion Heq. }
  intros Hfiled. eapply (results_filed_insert st); [exact Hfiled| |reflexivity].
  exact Hprocess.
Qed.

(** X7: when [start_process] returns, the process it returns is a new
    one that is not known to have ended, and it is the active process,
    found also by itself and by its alias.  A result object without
    return code is filed for it, so that its results cannot be fetched
    yet.  Handles that named a process before name the same process, and
    the earlier processes and their results are as they were. *)
Theorem start_process_tracks (host : Host) (os : OS) (cmd : string)
    (arguments : list string) (kw : ProcessConfiguration.kwargs)
    (st st' : Process.t) (p : nat) :
  Process.start_process cmd arguments kw st = Ret p st' ->
  popens (Process.world st) !! p = None
  /\ (exists po r,
        popens (Process.world st') !! p = Some po
        /\ Popen.returncode po = None
        /\ Process._results st' !! p = Some r
        /\ ExecutionResult._process r = p
        /\ ExecutionResult.rc r = None)
  /\ Process.get_process HandleNone st' = Ret p st'
  /\ Process.get_process (HandleObject p) st' = Ret p st'
  /\ (forall a, ProcessConfiguration.kw_alias kw = Some a ->
                Process.get_process (HandleAlias a) st' = Ret p st')
  /\ (forall h q, h <> HandleNone ->
                  Process.get_process h st = Ret q st ->
                  Process.get_process h st' = Ret q st')
  /\ (forall rc stdout stderr stdout_path stderr_path,
        Process.get_process_result HandleNone rc stdout stderr stdout_path
          stderr_path st'
        = Raise (RuntimeError
                   "Getting results of unfinished processes is not supported.")
                st')
  /\ processes_unaffected st st'
  /\ (results_filed st -> results_filed st').
Proof.
  intros Hrun.
  destruct (start_process_returns cmd arguments kw st st' p Hrun)
    as (conf & w1 & w2 & r & cache & Hconf & Hspawn & Hinit & Hreg & ->).
  pose proof (respects_returns _ _ _ _ _
                (proj1 (config_init_same_popens kw)) Hconf) as Hsame.
  unfold same_popens in Hsame.
  destruct (spawn_returns _ _ _ _ _ _ _ Hspawn)
    as (Hp & _ & i & o & e & Hpopens).
  rewrite Hsame in Hp, Hpopens.
  destruct (result_init_returns _ _ _ _ _ _ _ _ Hinit)
    as (_ & Hprocess & Hrc & _).
  destruct (register_lookups _ _ _ _ Hreg)
    as (Hnone & Hobject & Halias & Hearlier).
  cbn [Process.world Process._results Process._processes].
  assert (Hactive : Process.get_process HandleNone
                      (Process.mk cache (<[p := r]> (Process._results st)) w2)
                    = Ret p (Process.mk cache (<[p := r]> (Process._results st)) w2))
    by (now apply get_process_intro).
  split; [apply lookup_ge_None; lia|].
  split.
  { exists (Popen.mk p i o e None), r. rewrite Hpopens.
    rewrite lookup_app_r by lia.
    replace (p - length (popens (Process.world st)))%nat with 0%nat by lia.
    split; [reflexivity|]. split; [reflexivity|].
    rewrite lookup_insert_eq. auto. }
  split; [exact Hactive|].
  split; [now apply get_process_intro|].
  split; [intros a Ha; apply get_process_intro; now apply Halias|].
  split.
  { intros h q Hh Hget. apply get_process_inv in Hget as [Hget _].
    apply get_process_intro. now apply Hearlier. }
  split.
  { intros f1 f2 f3 f4 f5. unfold Process.get_process_result.
    unfold bind at 1. rewrite Hactive.
    unfold bind at 1, Process.get_result at 1.
    cbn [Process._results]. rewrite lookup_insert_eq, Hrc. reflexivity. }
  split.
  { eapply unaffected_after_spawn; [exact Hpopens|]. right. now rewrite Hp. }
  intros Hfiled. eapply (results_filed_insert st); [exact Hfiled| |reflexivity].
  exact Hprocess.
Qed.

Lemma started_results_filed `{Host} `{OS} (kw : ProcessConfiguration.kwargs)
    (p : nat) (st' : Process.t) :
  Process.start_process "prog" [] kw (Process.__init__ empty_world) = Ret p st' ->
  started kw = st' /\ results_filed st'.
Proof.
  intros Hrun. unfold started. rewrite Hrun. split; [reflexivity|].
  destruct (start_process_returns _ _ _ _ _ _ Hrun)
    as (conf & w1 & w2 & r & cache & _ & _ & Hinit & _ & ->).
  destruct (result_init_returns _ _ _ _ _ _ _ _ Hinit) as (_ & Hprocess & _).
  eapply (results_filed_insert (Process.__init__ empty_world));
    [apply results_filed_init|exact Hprocess|reflexivity].
Qed.

Lemma start_process_tracks_witness :
  exists st',
    @Process.start_process posix_host example_os "prog" ["arg"]
      (with_alias "first" default_kwargs) (Process.__init__ empty_world)
    = Ret 0%nat st'
    /\ Process.get_process HandleNone st' = Ret 0%nat st'
    /\ Process.get_process (HandleAlias "first") st' = Ret 0%nat st'
    /\ @Process.get_process_result posix_host example_os HandleNone
         true false false false false st'
       = Raise (RuntimeError
                  "Getting results of unfinished processes is not supported.")
               st'
    /\ results_filed st'.
Proof.
  eexists. split; [vm_compute; reflexivity|].
  match goal with
  | |- Process.get_process HandleNone ?st' = _ /\ _ =>
      destruct (start_process_tracks posix_host example_os "prog" ["arg"]
                  (with_alias "first" default_kwargs)
                  (Process.__init__ empty_world) st' 0%nat)
        as (_ & _ & Hactive & _ & Halias & _ & Hresult & _ & Hfiled);
      [vm_compute; reflexivity|]
  end.
  split; [exact Hactive|]. split; [exact (Halias "first" eq_refl)|].
  split; [apply Hresult|]. apply Hfiled, results_filed_init.
Defined.

Lemma returned_results_finished_witness :
  let st := @started posix_host endless_os default_kwargs in
  results_filed st
  /\ Process.get_process HandleNone st = Ret 0%nat st
  /\ exists r st',
       @Process.wait_for_process posix_host endless_os (polling_rounds 1000)
         HandleNone (TStr "1") "kill" st
       = Ret (Some r) st'
       /\ finished_result st' 0%nat r
       /\ ExecutionResult.rc r = Some (-9).
Proof.
  cbn zeta.
  destruct (@started_results_filed posix_host endless_os default_kwargs 0%nat
              (@started posix_host endless_os default_kwargs))
    as [_ Hfiled]; [vm_compute; reflexivity|].
  assert (Hget : Process.get_process HandleNone
                   (@started posix_host endless_os default_kwargs)
                 = Ret 0%nat (@started posix_host endless_os default_kwargs))
    by (vm_compute; reflexivity).
  split; [exact Hfiled|]. split; [exact Hget|].
  assert (Hrun : exists r st',
             @Process.wait_for_process posix_host endless_os
               (polling_rounds 1000) HandleNone (TStr "1") "kill"
               (@started posix_host endless_os default_kwargs)
             = Ret (Some r) st'
             /\ ExecutionResult.rc r = Some (-9))
    by (eexists _, _; split; vm_compute; reflexivity).
  destruct Hrun as (r & st' & Hrun & Hrc).
  destruct (returned_results_finished posix_host endless_os
              (polling_rounds 1000) HandleNone _ 0%nat Hfiled Hget)
    as (_ & Hwait & _).
  destruct (Hwait _ _ _ _ Hrun) as [Hfinished _].
  exists r, st'. auto.
Defined.
(* ================================================================== *)
(** * Whether a process is running *)
(* ================================================================== *)

Lemma poll_known `{OS} (p : nat) (w : World) :
  known_process w p ->
  exists rc w',
    poll p w = Ret rc w'
    /\ same_outside w w' /\ clock w' = clock w /\ objects w' = objects w
    /\ match rc with
       | Some _ => confirmed_stopped w' p
       | None => w' = w /\ os_exit_status w p = None
       end.
Proof.
  intros [po Hpo].
  pose proof (poll_outcome p w) as Hout.
  pose proof (respects_outside_poll p w) as Hsame.
  assert (Hobjects : match poll p w with
                     | Ret _ w' => objects w' = objects w
                     | _ => True
                     end).
  { unfold poll, bind, get_popen. rewrite Hpo.
    destruct (Popen.returncode po); [reflexivity|].
    unfold get. destruct (os_exit_status w p); reflexivity. }
  destruct (poll p w) as [rc w'|e w'|] eqn:Hpoll; [| |contradiction].
  - exists rc, w'. split; [reflexivity|]. split; [exact Hsame|].
    destruct rc as [code|].
    + destruct Hout as (Hconf & _ & Hclock). auto.
    + destruct Hout as [-> Hstatus]. auto.
  - exfalso. revert Hpoll. unfold poll, bind, get_popen. rewrite Hpo.
    destruct (Popen.returncode po); [discriminate|].
    unfold get. destruct (os_exit_status w p); discriminate.
Qed.

Lemma poll_confirmed `{OS} (p : nat) (w : World) :
  confirmed_stopped w p -> exists code, poll p w = Ret (Some code) w.
Proof.
  intros (po & code & Hpo & Hcode). exists code.
  unfold poll, bind, get_popen. now rewrite Hpo, Hcode.
Qed.

(** [is_process_running] on a handle that names a process of the
    world. *)
Lemma is_process_running_known `{Host} `{OS} (h : handle) (st : Process.t)
    (p : nat) :
  Process.get_process h st = Ret p st ->
  known_process (Process.world st) p ->
  exists running w',
    is_process_running h st
    = Ret running (Process.mk (Process._processes st) (Process._results st) w')
    /\ same_outside (Process.world st) w'
    /\ clock w' = clock (Process.world st)
    /\ objects w' = objects (Process.world st)
    /\ advances (Process.world st) w'
    /\ (if running then w' = Process.world st
                        /\ os_exit_status (Process.world st) p = None
        else confirmed_stopped w' p).
Proof.
  intros Hget Hknown.
  destruct (poll_known p (Process.world st) Hknown)
    as (rc & w' & Hpoll & Hsame & Hclock & Hobjects & Hrc).
  exists (match rc with None => true | Some _ => false end), w'.
  split.
  { unfold is_process_running. unfold bind at 1. rewrite Hget.
    unfold bind, Process.in_world. now rewrite Hpoll. }
  split; [exact Hsame|]. split; [exact Hclock|]. split; [exact Hobjects|].
  split; [exact (respects_returns _ _ _ _ _ (respects_advances_poll p) Hpoll)|].
  destruct rc; exact Hrc.
Qed.

(** X8: on a handle that names a process of the world,
    [is_process_running] answers, and of the two verifying keywords
    exactly the one that contradicts the answer fails, with the message it
    was given.  All three leave the same state: registry, results, files,
    signals and clock are as before.  The answer [True] is what the
    operating system reports at that moment; the answer [False] is for
    a process seen to have ended, and it stays [False] however the
    processes advance afterwards. *)
Theorem process_running_checks (host : Host) (os : OS) (h : handle)
    (st : Process.t) (p : nat) (running_message stopped_message : string) :
  Process.get_process h st = Ret p st ->
  known_process (Process.world st) p ->
  exists running w',
    let st' := Process.mk (Process._processes st) (Process._results st) w' in
    is_process_running h st = Ret running st'
    /\ process_should_be_running h running_message st
       = Ret (if running then Passed else AssertionError running_message) st'
    /\ process_should_be_stopped h stopped_message st
       = Ret (if running then AssertionError stopped_message else Passed) st'
    /\ same_outside (Process.world st) w'
    /\ clock w' = clock (Process.world st)
    /\ (if running then w' = Process.world st
                        /\ os_exit_status (Process.world st) p = None
        else confirmed_stopped w' p
             /\ forall st2,
                  proceeds st' st2 ->
                  is_process_running h st2
                  = Ret false st2).
Proof.
  intros Hget Hknown.
  destruct (is_process_running_known h st p Hget Hknown)
    as (running & w' & Hrun & Hsame & Hclock & _ & _ & Hanswer).
  exists running, w'. cbn zeta.
  split; [exact Hrun|].
  split; [unfold process_should_be_running, bind; rewrite Hrun;
          now destruct running|].
  split; [unfold process_should_be_stopped, bind; rewrite Hrun;
          now destruct running|].
  split; [exact Hsame|]. split; [exact Hclock|].
  destruct running; [exact Hanswer|]. split; [exact Hanswer|].
  intros st2 [Hprocs Hadv]. cbn [Process._processes Process.world] in Hprocs, Hadv.
  pose proof (advances_confirmed _ _ p Hadv Hanswer) as Hconf2.
  destruct (poll_confirmed p _ Hconf2) as (code & Hpoll).
  assert (Hget2 : Process.get_process h st2 = Ret p st2).
  { apply get_process_inv in Hget as [Hget _]. apply get_process_intro.
    now rewrite Hprocs. }
  unfold is_process_running. unfold bind at 1. rewrite Hget2.
  unfold bind, Process.in_world. rewrite Hpoll. unfold ret.
  now destruct st2.
Qed.

Lemma process_running_checks_witness :
  let st := @started posix_host endless_os default_kwargs in
  Process.get_process HandleNone st = Ret 0%nat st
  /\ known_process (Process.world st) 0%nat
  /\ @is_process_running endless_os HandleNone st = Ret true st
  /\ @process_should_be_running endless_os HandleNone "Process is not running." st
     = Ret Passed st
  /\ @process_should_be_stopped endless_os HandleNone "Process is running." st
     = Ret (AssertionError "Process is running.") st.
Proof.
  cbn zeta.
  assert (Hget : Process.get_process HandleNone
                   (@started posix_host endless_os default_kwargs)
                 = Ret 0%nat (@started posix_host endless_os default_kwargs))
    by (vm_compute; reflexivity).
  assert (Hknown : known_process
                     (Process.world (@started posix_host endless_os default_kwargs))
                     0%nat) by (vm_compute; eauto).
  split; [exact Hget|]. split; [exact Hknown|].
  destruct (process_running_checks posix_host endless_os HandleNone _ 0%nat
              "Process is not running." "Process is running." Hget Hknown)
    as (running & w' & Hrun & Hshould & Hshouldnt & _).
  cbn zeta in Hrun, Hshould, Hshouldnt.
  assert (Hanswer : @is_process_running endless_os HandleNone
                      (@started posix_host endless_os default_kwargs)
                    = Ret true (@started posix_host endless_os default_kwargs))
    by (vm_compute; reflexivity).
  rewrite Hanswer in Hrun. inversion Hrun as [[Hrunning Hstate]].
  subst running. rewrite <- Hstate in Hshould, Hshouldnt.
  split; [exact Hanswer|]. split; [exact Hshould|exact Hshouldnt].
Defined.
(* ================================================================== *)
(** * [terminate_all_processes] *)
(* ================================================================== *)

Lemma wait_loop_confirms `{Host} `{OS} (kfuel : nat) (p : nat) (fuel : nat) :
  forall st st',
    Process.wait_loop kfuel fuel p st = Ret tt st' ->
    confirmed_stopped (Process.world st') p.
Proof.
  induction fuel as [|fuel IH]; intros st st'; [discriminate|].
  rewrite wait_loop_step.
  pose proof (in_world_outcome (communicate p) st) as Hcomm.
  destruct (Process.in_world (communicate p) st) as [outs st1|e st1|];
    [|destruct e; try discriminate|discriminate].
  - destruct Hcomm as (Hcomm & _). apply communicate_returns in Hcomm.
    intros Hstore.
    pose proof (respects_returns _ _ _ _ _
                  (respects_proceeds_on_result p _
                     (respects_keeps_store_output outs)) Hstore) as [_ Hadv].
    exact (advances_confirmed _ _ p Hadv Hcomm).
  - apply IH.
  - destruct (Process.in_world (Process._kill kfuel p) st1); discriminate.
Qed.

(** [_wait] returns only for a process seen to have ended. *)
Lemma wait_confirms `{Host} `{OS} (fuel : nat) (p : nat) (st st' : Process.t)
    (r : ExecutionResult.t) :
  Process._wait fuel p st = Ret r st' ->
  confirmed_stopped (Process.world st') p.
Proof.
  unfold Process._wait. intros Hwait.
  apply bind_inv in Hwait as (r0 & s1 & _ & Hwait).
  apply bind_inv in Hwait as ([] & s2 & _ & Hwait).
  apply bind_inv in Hwait as ([] & s3 & Hloop & Hwait).
  apply wait_loop_confirms in Hloop.
  assert (Hrest : respects proceeds
                    (po <- Process.in_world (get_popen p) ;;
                     Process.on_result p
                       (ExecutionResult.update
                          (ExecutionResult.set_rc (Popen.returncode po))) ;;;
                     Process.on_result p ExecutionResult.close_streams ;;;
                     Process.get_result p)).
  { repeat first
      [ apply respects_bind; [exact proceeds_trans| |]
      | intro
      | apply respects_proceeds_get_result
      | apply respects_proceeds_update
      | apply respects_proceeds_on_result, respects_keeps_close_streams
      | apply respects_proceeds_in_world, respects_advances_same,
          respects_same_popens_get_popen ]. }
  destruct (respects_returns _ _ _ _ _ Hrest Hwait) as [_ Hadv].
  exact (advances_confirmed _ _ p Hadv Hloop).
Qed.

Lemma terminate_process_confirms `{Host} `{OS} (fuel : nat) (h : handle)
    (kill : bool) (st st' : Process.t) (r : ExecutionResult.t) :
  Process.terminate_process fuel h kill st = Ret r st' ->
  exists p,
    Process.get_process h st = Ret p st
    /\ confirmed_stopped (Process.world st') p.
Proof.
  unfold Process.terminate_process. intros Hrun.
  apply bind_inv in Hrun as (p & s0 & Hget & Hrun).
  pose proof (get_process_inv h st s0 p Hget) as [_ ->].
  exists p. split; [exact Hget|].
  destruct (negb has_terminate); [discriminate|].
  apply bind_inv in Hrun as ([] & s1 & _ & Hwait).
  exact (wait_confirms fuel p s1 st' r Hwait).
Qed.

Lemma is_process_running_returns `{Host} `{OS} (h : handle)
    (st st' : Process.t) (running : bool) :
  is_process_running h st = Ret running st' ->
  exists p,
    Process.get_process h st = Ret p st
    /\ proceeds st st'
    /\ (running = false -> confirmed_stopped (Process.world st') p).
Proof.
  unfold is_process_running. intros Hrun.
  apply bind_inv in Hrun as (p & s0 & Hget & Hrun).
  pose proof (get_process_inv h st s0 p Hget) as [_ ->].
  exists p. split; [exact Hget|].
  apply bind_inv in Hrun as (rc & s1 & Hpoll & Hret).
  inversion Hret. subst running s1.
  split; [exact (respects_returns _ _ _ _ _
                   (respects_proceeds_in_world _ (respects_advances_poll p))
                   Hpoll)|].
  pose proof (in_world_outcome (poll p) st) as Hout. rewrite Hpoll in Hout.
  destruct Hout as (Hpoll' & _).
  pose proof (poll_outcome p (Process.world st)) as Hrc.
  rewrite Hpoll' in Hrc. destruct rc; [intros _; apply Hrc|discriminate].
Qed.

(** The loop over the handles: when it returns, every handle of the list
    named a process, and each of them has been seen to have ended. *)
Lemma terminate_handles_returns `{Host} `{OS} (fuel : nat) (kill : bool)
    (handles : list nat) :
  forall st st',
    terminate_handles fuel kill handles st = Ret tt st' ->
    proceeds st st'
    /\ forall i, i ∈ handles ->
         exists p,
           Process.get_process (HandleIndex i) st = Ret p st
           /\ confirmed_stopped (Process.world st') p.
Proof.
  induction handles as [|handle rest IH]; intros st st'.
  - cbn. intros Heq. inversion Heq. split; [apply proceeds_refl|].
    intros i Hi. now apply elem_of_nil in Hi.
  - cbn [terminate_handles]. intros Hrun.
    apply bind_inv in Hrun as (running & s1 & Hrunning & Hrun).
    apply bind_inv in Hrun as ([] & s2 & Hstop & Hrest).
    destruct (is_process_running_returns _ _ _ _ Hrunning)
      as (p & Hget & Hproc1 & Hended).
    destruct (IH _ _ Hrest) as [Hproc3 Hall].
    assert (Hstep : proceeds s1 s2 /\ confirmed_stopped (Process.world s2) p).
    { destruct running.
      - apply bind_inv in Hstop as (r & s2' & Hterm & Hret).
        inversion Hret. subst s2'.
        split; [exact (respects_returns _ _ _ _ _
                         (respects_proceeds_terminate_process fuel _ kill)
                         Hterm)|].
        destruct (terminate_process_confirms _ _ _ _ _ _ Hterm)
          as (p' & Hget' & Hconf).
        pose proof (get_process_same_registry _ _ _ _ (proj1 Hproc1) Hget)
          as Hget1.
        congruence.
      - inversion Hstop. subst s2. split; [apply proceeds_refl|auto]. }
    destruct Hstep as [Hproc2 Hconf].
    split; [exact (proceeds_trans _ _ _ Hproc1 (proceeds_trans _ _ _ Hproc2 Hproc3))|].
    intros i Hi. apply elem_of_cons in Hi as [->|Hi].
    + exists p. split; [exact Hget|].
      exact (advances_confirmed _ _ p (proj2 Hproc3) Hconf).
    + destruct (Hall i Hi) as (q & Hq & Hconfq). exists q.
      split; [|exact Hconfq].
      apply get_process_inv in Hq as [Hq _]. apply get_process_intro.
      destruct Hproc1 as [Hp1 _]. destruct Hproc2 as [Hp2 _].
      now rewrite <- Hp1, <- Hp2.
Qed.

(** X9: when [terminate_all_processes] returns, the library tracks no
    process and holds no result any more, while every process that was
    registered is still a process of the world and has been seen to have
    ended. *)
Theorem terminate_all_processes_resets (host : Host) (os : OS) (fuel : nat)
    (kill : bool) (st st' : Process.t) :
  terminate_all_processes fuel kill st = Ret tt st' ->
  Process._processes st' = ConnectionCache.empty
  /\ Process._results st' = ∅
  /\ (forall rc stdout stderr stdout_path stderr_path,
        Process.get_process_result HandleNone rc stdout stderr stdout_path
          stderr_path st'
        = Raise (RuntimeError "No active process.") st')
  /\ advances (Process.world st) (Process.world st')
  /\ forall p, p ∈ ConnectionCache.connections (Process._processes st) ->
               confirmed_stopped (Process.world st') p.
Proof.
  unfold terminate_all_processes. intros Hrun.
  apply bind_inv in Hrun as (s0 & s1 & Hget & Hrun).
  unfold get in Hget. inversion Hget. subst s0 s1. clear Hget.
  apply bind_inv in Hrun as ([] & s2 & Hloop & Hreset).
  unfold modify in Hreset. inversion Hreset. subst st'. clear Hreset.
  cbn [Process.__init__ Process._processes Process._results Process.world].
  destruct (terminate_handles_returns _ _ _ _ _ Hloop) as [[_ Hadv] Hall].
  split; [reflexivity|]. split; [reflexivity|].
  split; [reflexivity|]. split; [exact Hadv|].
  intros p Hp. apply list_elem_of_lookup in Hp as [i Hi].
  destruct (Hall (S i)) as (q & Hq & Hconf).
  { apply elem_of_seq. apply lookup_lt_Some in Hi. lia. }
  apply get_process_inv in Hq as [Hq _]. cbn in Hq. rewrite Hi in Hq.
  inversion Hq. now subst q.
Qed.

Lemma terminate_all_processes_resets_witness :
  let st := @started_twice posix_host endless_os default_kwargs
              (with_alias "second" default_kwargs) in
  ConnectionCache.connections (Process._processes st) = [0%nat; 1%nat]
  /\ exists st',
       @terminate_all_processes posix_host endless_os 10 false st = Ret tt st'
       /\ Process._processes st' = ConnectionCache.empty
       /\ confirmed_stopped (Process.world st') 0%nat
       /\ confirmed_stopped (Process.world st') 1%nat
       /\ siglog (Process.world st')
          = [(1%nat, SIGTERM, true); (0%nat, SIGTERM, true)].
Proof.
  cbn zeta. split; [vm_compute; reflexivity|].
  assert (Hrun : exists st',
             @terminate_all_processes posix_host endless_os 10 false
               (@started_twice posix_host endless_os default_kwargs
                  (with_alias "second" default_kwargs))
             = Ret tt st'
             /\ siglog (Process.world st')
                = [(1%nat, SIGTERM, true); (0%nat, SIGTERM, true)])
    by (eexists; split; vm_compute; reflexivity).
  destruct Hrun as (st' & Hrun & Hlog).
  destruct (terminate_all_processes_resets posix_host endless_os 10 false _ st'
              Hrun) as (Hprocs & _ & _ & _ & Hall).
  exists st'. split; [exact Hrun|]. split; [exact Hprocs|].
  split; [apply Hall; vm_compute; apply list_elem_of_here|].
  split; [apply Hall; vm_compute; apply list_elem_of_further, list_elem_of_here|].
  exact Hlog.
Defined.
(* ================================================================== *)
(** * [run_process] *)
(* ================================================================== *)

Lemma register_connections (cache cache' : ConnectionCache.t) (p : nat)
    (alias : option string) :
  ConnectionCache.register cache p alias = inr cache' ->
  ConnectionCache.connections cache'
  = (ConnectionCache.connections cache ++ [p])%list.
Proof.
  unfold ConnectionCache.register. destruct alias as [a|].
  - destruct (ConnectionCache.aliases cache !! a); [discriminate|].
    intros Heq. now inversion Heq.
  - intros Heq. now inversion Heq.
Qed.

Lemma finished_result_same (st st' : Process.t) (p : nat) (r : ExecutionResult.t) :
  Process._results st' = Process._results st ->
  Process.world st' = Process.world st ->
  finished_result st p r -> finished_result st' p r.
Proof. unfold finished_result. now intros -> ->. Qed.

(** X10: [run_process] does not change the active process, whether it
    returns or raises.  When it returns, the process it has started is
    a new one, registered after the earlier ones, and what is returned is
    the finalized result of that process, or [None] for a process that
    the operating system still reports as running. *)
Theorem run_process_keeps_active (host : Host) (os : OS) (fuel : nat)
    (cmd : string) (arguments : list string) (kw : ProcessConfiguration.kwargs)
    (timeout : timeout_arg) (on_timeout : string) (st : Process.t) :
  match run_process fuel cmd arguments kw timeout on_timeout st with
  | Ret o st' =>
      ConnectionCache.current (Process._processes st')
      = ConnectionCache.current (Process._processes st)
      /\ (results_filed st ->
          exists p,
            popens (Process.world st) !! p = None
            /\ ConnectionCache.connections (Process._processes st')
               = (ConnectionCache.connections (Process._processes st) ++ [p])%list
            /\ match o with
               | Some r => finished_result st' p r
               | None => os_exit_status (Process.world st') p = None
               end)
  | Raise _ st' =>
      ConnectionCache.current (Process._processes st')
      = ConnectionCache.current (Process._processes st)
  | Diverge => True
  end.
Proof.
  unfold run_process. unfold bind at 1, get. unfold try_finally.
  destruct ((handle <- Process.start_process cmd arguments kw ;;
             Process.wait_for_process fuel (HandleObject handle) timeout
               on_timeout) st) as [o s1|e s1|] eqn:Hbody;
    [|reflexivity|exact I].
  cbn. split; [reflexivity|]. intros Hfiled.
  apply bind_inv in Hbody as (p & s0 & Hstart & Hwait).
  destruct (start_process_handle cmd arguments kw st s0 p Hstart)
    as (Hnew & Hobject & Hconns & Hfiled0).
  destruct (wait_for_process_returns fuel (HandleObject p) timeout
              on_timeout s0 s1 p o (Hfiled0 Hfiled) Hobject Hwait)
    as (Ho & _ & Hprocs).
  exists p. split; [exact Hnew|]. split; [now rewrite Hprocs|].
  destruct o as [r|].
  - eapply finished_result_same; [| |exact Ho]; reflexivity.
  - destruct Ho as (t & _ & _ & _ & _ & Hstatus & _). exact Hstatus.
Qed.

Lemma run_process_keeps_active_witness :
  let st := @started posix_host example_os (with_alias "first" default_kwargs) in
  results_filed st
  /\ exists r st',
       @run_process posix_host example_os 10 "other" [] default_kwargs TNone
         "terminate" st
       = Ret (Some r) st'
       /\ ConnectionCache.current (Process._processes st') = Some 0%nat
       /\ ConnectionCache.connections (Process._processes st') = [0%nat; 1%nat]
       /\ finished_result st' 1%nat r.
Proof.
  cbn zeta.
  destruct (@started_results_filed posix_host example_os
              (with_alias "first" default_kwargs) 0%nat
              (@started posix_host example_os (with_alias "first" default_kwargs)))
    as [_ Hfiled]; [vm_compute; reflexivity|].
  split; [exact Hfiled|].
  pose proof (run_process_keeps_active posix_host example_os 10 "other" []
                default_kwargs TNone "terminate"
                (@started posix_host example_os
                   (with_alias "first" default_kwargs))) as Hrun.
  assert (Heq : exists r st',
             @run_process posix_host example_os 10 "other" [] default_kwargs
               TNone "terminate"
               (@started posix_host example_os (with_alias "first" default_kwargs))
             = Ret (Some r) st'
             /\ ConnectionCache.connections (Process._processes st')
                = [0%nat; 1%nat])
    by (eexists _, _; split; vm_compute; reflexivity).
  destruct Heq as (r & st' & Heq & Hconns). rewrite Heq in Hrun.
  destruct Hrun as [Hcurrent Hrest].
  destruct (Hrest Hfiled) as (p & _ & Hconns' & Hfinished).
  exists r, st'. split; [exact Heq|]. split; [exact Hcurrent|].
  split; [exact Hconns|].
  assert (p = 1%nat) as ->.
  { rewrite Hconns in Hconns'.
    change [0%nat; 1%nat] with ([0%nat] ++ [1%nat])%list in Hconns'.
    apply app_inj_tail in Hconns' as [_ Hp]. now symmetry. }
  exact Hfinished.
Defined.
(* ================================================================== *)
(** * [get_process_result] reads both outputs *)
(* ================================================================== *)

(** X11: [get_process_result] reads the standard output whichever
    attributes are asked for.  When the output was redirected to a file,
    has not been read yet, and the file is gone, the keyword raises the
    [OSError] of [open], also when only the return code is wanted; the
    world and the registry are as before. *)
Theorem get_process_result_missing_file (host : Host) (os : OS) (h : handle)
    (st : Process.t) (p : nat) (r : ExecutionResult.t) (path : string)
    (rc stdout stderr stdout_path stderr_path : bool) :
  Process.get_process h st = Ret p st ->
  Process._results st !! p = Some r ->
  is_Some (ExecutionResult.rc r) ->
  known_process (Process.world st) (ExecutionResult._process r) ->
  ExecutionResult._stdout r = None ->
  ExecutionResult.stdout_path r = Some path ->
  path <> EmptyString ->
  files (Process.world st) !! path = None ->
  exists st',
    Process.get_process_result h rc stdout stderr stdout_path stderr_path st
    = Raise OSError st'
    /\ Process.world st' = Process.world st
    /\ Process._processes st' = Process._processes st
    /\ Process._results st' !! p = Some r.
Proof.
  intros Hget Hresult [code Hcode] [po Hpo] Hcache Hpath Hnonempty Hfile.
  eexists. split.
  - unfold Process.get_process_result. unfold bind at 1. rewrite Hget.
    unfold bind at 1, Process.get_result at 1. rewrite Hresult, Hcode.
    unfold bind at 1, Process.on_result at 1. rewrite Hresult.
    unfold Process._get_result_attributes.
    unfold bind at 1, ExecutionResult.self at 1, gets at 1. cbn [fst].
    unfold bind at 1, ExecutionResult.stdout at 1.
    unfold bind at 1, ExecutionResult.self at 1, gets at 1. cbn [fst].
    rewrite Hcache.
    unfold bind at 1, ExecutionResult._read_stdout at 1.
    unfold bind at 1, ExecutionResult.self at 1, gets at 1. cbn [fst].
    unfold bind at 1, on_snd at 1, get_popen at 1. cbn [snd fst].
    rewrite Hpo.
    unfold bind at 1, on_snd at 1, ExecutionResult._read_stream at 1.
    cbn [snd fst]. rewrite Hpath.
    destruct path as [|c path]; [contradiction|]. cbn [truthy default].
    unfold bind at 1, open_r at 1. unfold bind at 1, get at 1.
    cbn [snd fst]. unfold id. rewrite Hfile. reflexivity.
  - cbn. split; [reflexivity|]. split; [reflexivity|].
    now rewrite lookup_insert_eq.
Qed.

Lemma get_process_result_missing_file_witness :
  exists r st0,
    example_redirected = Ret (Some r) st0
    /\ let st := without_files st0 in
       Process.get_process HandleNone st = Ret 0%nat st
       /\ Process._results st !! 0%nat = Some r
       /\ is_Some (ExecutionResult.rc r)
       /\ known_process (Process.world st) (ExecutionResult._process r)
       /\ ExecutionResult._stdout r = None
       /\ ExecutionResult.stdout_path r = Some "/work/out.txt"
       /\ "/work/out.txt" <> EmptyString
       /\ files (Process.world st) !! "/work/out.txt" = None
       /\ exists st',
            @Process.get_process_result posix_host example_os HandleNone
              true false false false false st
            = Raise OSError st'.
Proof.
  eexists _, _. split; [vm_compute; reflexivity|]. cbn zeta.
  match goal with
  | |- Process.get_process HandleNone ?st = _ /\ _ =>
      assert (Hget : Process.get_process HandleNone st = Ret 0%nat st)
        by (vm_compute; reflexivity);
      assert (Hknown : known_process (Process.world st) 0%nat)
        by (vm_compute; eauto);
      assert (Hfile : files (Process.world st) !! "/work/out.txt" = None)
        by (vm_compute; reflexivity)
  end.
  split; [exact Hget|]. split; [vm_compute; reflexivity|].
  split; [vm_compute; eauto|]. split; [exact Hknown|].
  split; [reflexivity|]. split; [reflexivity|]. split; [discriminate|].
  split; [exact Hfile|].
  destruct (get_process_result_missing_file posix_host example_os HandleNone
              _ 0%nat _ "/work/out.txt" true false false false false
              Hget ltac:(vm_compute; reflexivity) ltac:(vm_compute; eauto)
              Hknown eq_refl eq_refl ltac:(discriminate) Hfile)
    as (st' & Hrun & _).
  exists st'. exact Hrun.
Defined.
(* ================================================================== *)
(** * Named arguments that are not supported *)
(* ================================================================== *)

Lemma add_to_env_outcome `{Host} (extra : pydict) :
  forall env,
    match first_unsupported extra with
    | Some name =>
        ProcessConfiguration._add_to_env env extra = inl (unsupported_argument name)
    | None => exists env', ProcessConfiguration._add_to_env env extra = inr env'
    end.
Proof.
  induction extra as [|[name value] rest IH]; intros env;
    cbn [first_unsupported ProcessConfiguration._add_to_env].
  - eauto.
  - destruct (startswith "env:" name); cbn [negb]; [apply IH|reflexivity].
Qed.

Lemma first_unsupported_nonempty (extra : pydict) (name : string) :
  first_unsupported extra = Some name -> extra <> [].
Proof. destruct extra; [discriminate|discriminate]. Qed.

(** [_construct_env] raises or returns according to the names of the
    extra arguments alone. *)
Lemma construct_env_outcome `{Host}
    (env : option pydict) (extra : pydict) (w : World) :
  match first_unsupported extra with
  | Some name =>
      ProcessConfiguration._construct_env env extra w
      = Raise (unsupported_argument name) w
  | None =>
      exists m, ProcessConfiguration._construct_env env extra w = Ret m w
  end.
Proof.
  unfold ProcessConfiguration._construct_env.
  assert (Hinitial :
            exists initial,
              ProcessConfiguration._get_initial_env env extra w = Ret initial w
              /\ (extra <> [] -> is_Some initial)).
  { unfold ProcessConfiguration._get_initial_env.
    destruct env as [[|kv e]|].
    - destruct extra; [eexists; split; [reflexivity|congruence]|].
      eexists. split; [reflexivity|eauto].
    - eexists. split; [reflexivity|eauto].
    - destruct extra; [eexists; split; [reflexivity|congruence]|].
      eexists. split; [reflexivity|eauto]. }
  destruct Hinitial as (initial & Hinit & Hsome).
  destruct (first_unsupported extra) as [name|] eqn:Hfirst.
  - destruct (Hsome (first_unsupported_nonempty extra name Hfirst)) as [e ->].
    pose proof (add_to_env_outcome extra
                  (if WINDOWS then NormalizedDict e else e)) as Hadd.
    rewrite Hfirst in Hadd.
    unfold bind at 1. rewrite Hinit. cbv zeta. unfold bind at 1, lift.
    now rewrite Hadd.
  - destruct initial as [e|].
    + pose proof (add_to_env_outcome extra
                    (if WINDOWS then NormalizedDict e else e)) as Hadd.
      rewrite Hfirst in Hadd. destruct Hadd as [env' Hadd].
      eexists. unfold bind at 1. rewrite Hinit. cbv zeta.
      unfold bind at 1, lift. rewrite Hadd. reflexivity.
    + eexists. unfold bind at 1. rewrite Hinit. reflexivity.
Qed.

(** X12: [_construct_env] raises exactly when one of the extra named
    arguments does not start with [env:]; the error names the first such
    argument, as it was given.  This is so with and without an explicit
    environment and on every platform, and the world is left as it
    was. *)
Theorem construct_env_unsupported_argument (host : Host)
    (env : option pydict) (extra : pydict) (w : World) :
  match first_unsupported extra with
  | Some name =>
      ProcessConfiguration._construct_env env extra w
      = Raise (unsupported_argument name) w
  | None =>
      exists m, ProcessConfiguration._construct_env env extra w = Ret m w
  end.
Proof. exact (construct_env_outcome env extra w). Qed.
















(* ================================================================== *)
(** * The text that [join_command_line] writes *)
(* ================================================================== *)

Lemma backslash_before_quote_tail (c : ascii) (rest : string) :
  backslash_before_quote (String c rest) = false ->
  backslash_before_quote rest = false
  /\ (Ascii.eqb c BACKSLASH = true ->
      match rest with
      | String d _ => Ascii.eqb d DQUOTE = false
      | EmptyString => True
      end).
Proof.
  cbn [backslash_before_quote]. destruct rest as [|d rest']; [auto|].
  intros Hno. apply orb_false_iff in Hno as [Hpair Hrest].
  split; [exact Hrest|]. intros Hc. now rewrite Hc in Hpair.
Qed.

(** Where no backslash stands before a double quote, the character loop
    writes the argument with its quotes escaped; backslashes still
    pending at the end belong to that text. *)
Lemma list2cmdline_chars_escape (arg : string) :
  backslash_before_quote arg = false ->
  forall n,
    (n <> O -> match arg with
               | String d _ => Ascii.eqb d DQUOTE = false
               | EmptyString => True
               end) ->
    fst (list2cmdline_chars arg n)
      ++ repeat_char BACKSLASH (snd (list2cmdline_chars arg n))
    = repeat_char BACKSLASH n ++ escape_quotes arg.
Proof.
  induction arg as [|c arg IH]; intros Hno n Hstart.
  - cbn. now rewrite append_nil_r.
  - destruct (backslash_before_quote_tail c arg Hno) as [Hrest Hnext].
    rewrite list2cmdline_chars_cons. cbn [escape_quotes].
    destruct (Ascii.eqb c BACKSLASH) eqn:Hb.
    + apply Ascii.eqb_eq in Hb as ->.
      rewrite (IH Hrest (S n) (fun _ => Hnext eq_refl)).
      change (Ascii.eqb BACKSLASH DQUOTE) with false. cbn [repeat_char].
      now rewrite append_cons, repeat_char_shift.
    + destruct (Ascii.eqb c DQUOTE) eqn:Hq.
      * assert (n = O) as ->.
        { destruct n as [|n]; [reflexivity|].
          specialize (Hstart ltac:(discriminate)). cbn in Hstart. congruence. }
        specialize (IH Hrest O ltac:(congruence)).
        destruct (list2cmdline_chars arg 0) as [out bs].
        cbn [fst snd repeat_char Nat.mul] in *.
        rewrite !append_nil_l in *. rewrite !append_cons. now rewrite IH.
      * specialize (IH Hrest O ltac:(congruence)).
        destruct (list2cmdline_chars arg 0) as [out bs].
        cbn [fst snd repeat_char] in *. rewrite append_nil_l in IH.
        rewrite append_assoc, append_cons, IH. reflexivity.
Qed.

Lemma list2cmdline_chars_none_pending (arg : string) :
  endswith_backslash arg = false ->
  forall n,
    snd (list2cmdline_chars arg n) = match arg with EmptyString => n | _ => O end.
Proof.
  induction arg as [|c arg IH]; intros Hend n; [reflexivity|].
  rewrite list2cmdline_chars_cons.
  destruct arg as [|d arg'].
  - cbn in Hend. rewrite Hend. destruct (Ascii.eqb c DQUOTE); reflexivity.
  - change (endswith_backslash (String d arg') = false) in Hend.
    specialize (IH Hend).
    destruct (Ascii.eqb c BACKSLASH); [apply IH|].
    specialize (IH O).
    destruct (list2cmdline_chars (String d arg') 0) as [out bs].
    destruct (Ascii.eqb c DQUOTE); exact IH.
Qed.

Lemma list2cmdline_arg_item (arg : string) :
  literal_backslashes arg = true ->
  list2cmdline_arg arg = join_item arg.
Proof.
  unfold literal_backslashes. intros Hliteral.
  apply andb_true_iff in Hliteral as [Hno Hend].
  apply negb_true_iff in Hno.
  pose proof (list2cmdline_chars_escape arg Hno O ltac:(congruence)) as Hcopy.
  unfold list2cmdline_arg, join_item, quoted.
  destruct (needquote arg) eqn:Hneed.
  - cbn in Hend. apply negb_true_iff in Hend.
    pose proof (list2cmdline_chars_none_pending arg Hend O) as Hpend.
    destruct (list2cmdline_chars arg 0) as [out bs]. cbn [fst snd] in *.
    assert (bs = O) as -> by (destruct arg; exact Hpend).
    cbn [repeat_char] in *. rewrite append_nil_r in Hcopy.
    rewrite !append_nil_l in *. now subst.
  - destruct (list2cmdline_chars arg 0) as [out bs]. exact Hcopy.
Qed.

Lemma join_item_nonempty (arg : string) : join_item arg <> EmptyString.
Proof.
  unfold join_item, quoted, needquote.
  destruct arg as [|c arg]; [rewrite orb_true_r; discriminate|].
  destruct (contains_char SPACE (String c arg) || contains_char TAB (String c arg)
            || false); [discriminate|].
  cbn [escape_quotes]. destruct (Ascii.eqb c DQUOTE); discriminate.
Qed.

Lemma join_spaced (piece : string) (pieces : list string) :
  join (String SPACE EmptyString) (piece :: pieces) = piece ++ spaced pieces.
Proof.
  revert piece. induction pieces as [|next pieces IH]; intros piece.
  - cbn. now rewrite append_nil_r.
  - change (join (String SPACE EmptyString) (piece :: next :: pieces))
      with (piece ++ String SPACE EmptyString
              ++ join (String SPACE EmptyString) (next :: pieces)).
    rewrite IH. cbn [spaced]. rewrite append_cons, append_nil_l. reflexivity.
Qed.

Lemma list2cmdline_items (args : list string) :
  Forall (fun arg => literal_backslashes arg = true) args ->
  list2cmdline args = join (String SPACE EmptyString) (map join_item args).
Proof.
  intros Hargs. unfold list2cmdline.
  destruct args as [|arg args]; [reflexivity|].
  apply Forall_cons_1 in Hargs as [Harg Hargs].
  cbn [list2cmdline_from map]. rewrite append_nil_l.
  rewrite (list2cmdline_arg_item arg Harg).
  rewrite list2cmdline_from_spaced by apply join_item_nonempty.
  rewrite join_spaced. f_equal. f_equal.
  induction Hargs as [|next args Hnext Hargs IH]; [reflexivity|].
  cbn [map]. now rewrite (list2cmdline_arg_item next Hnext), IH.
Qed.

(** X14: [join_command_line] writes its arguments separated by single
    spaces; an argument that is empty or contains a space or a tab stands
    between double quotes, and every double quote of an argument has a
    backslash before it.  This holds for all arguments in which no
    backslash stands before a double quote or at the end of an argument
    that is quoted; such backslashes are copied as they are. *)
Theorem join_command_line_text (args : list string) :
  Forall (fun arg => literal_backslashes arg = true) args ->
  join_command_line args = join (String SPACE EmptyString) (map join_item args).
Proof. exact (list2cmdline_items args). Qed.

Lemma join_command_line_text_witness :
  let args := ["--option"; "value with spaces"; "C:\dir\";
               String "a" (String DQUOTE "b"); EmptyString] in
  Forall (fun arg => literal_backslashes arg = true) args
  /\ join_command_line args
     = "--option " ++ quoted "value with spaces" ++ " C:\dir\ a"
         ++ String BACKSLASH (String DQUOTE "b ") ++ quoted EmptyString.
Proof.
  cbn zeta.
  assert (Hargs : Forall (fun arg => literal_backslashes arg = true)
                    ["--option"; "value with spaces"; "C:\dir\";
                     String "a" (String DQUOTE "b"); EmptyString])
    by (repeat constructor).
  split; [exact Hargs|].
  rewrite (join_command_line_text _ Hargs). vm_compute. reflexivity.
Defined.

Lemma length_repeat_char (c : ascii) (n : nat) :
  String.length (repeat_char c n) = n.
Proof. induction n as [|n IH]; [reflexivity|]. cbn. now rewrite IH. Qed.

Lemma length_append (s t : string) :
  String.length (s ++ t) = (String.length s + String.length t)%nat.
Proof.
  induction s as [|c s IH]; [now rewrite append_nil_l|].
  rewrite append_cons. cbn. now rewrite IH.
Qed.

(** The character loop loses no character: what it writes and what is
    pending is at least as long as the argument and what was pending. *)
Lemma list2cmdline_chars_length (arg : string) :
  forall n,
    (String.length arg + n
     <= String.length (fst (list2cmdline_chars arg n))
        + snd (list2cmdline_chars arg n))%nat.
Proof.
  induction arg as [|c arg IH]; intros n; [cbn; lia|].
  rewrite list2cmdline_chars_cons.
  destruct (Ascii.eqb c BACKSLASH).
  - specialize (IH (S n)). cbn [String.length]. lia.
  - specialize (IH O). destruct (list2cmdline_chars arg 0) as [out bs].
    cbn [fst snd] in *.
    destruct (Ascii.eqb c DQUOTE); cbn [fst snd];
      rewrite length_append, length_repeat_char; cbn [String.length]; lia.
Qed.

(* ================================================================== *)
(** * The command that is given to [Popen] *)
(* ================================================================== *)

(** X15: what [get_command] gives to [Popen].  Without a shell it is the
    list of the encoded command and arguments, one item each.  With a
    shell and arguments it is one command line, in which the encoded
    items are quoted and escaped as [join_command_line] does.  With a
    shell and no argument it is the encoded command as it stands, so that
    a command with a space is then not quoted. *)
Theorem get_command_shell (host : Host) (conf : ProcessConfiguration.t)
    (cmd : string) (arguments : list string) :
  let items := map system_encode (cmd :: arguments) in
  (ProcessConfiguration.shell conf = false ->
   ProcessConfiguration.get_command conf cmd arguments = CommandList items
   /\ length items = S (length arguments))
  /\ (ProcessConfiguration.shell conf = true ->
      arguments <> [] ->
      Forall (fun item => literal_backslashes item = true) items ->
      ProcessConfiguration.get_command conf cmd arguments
      = CommandLine (join (String SPACE EmptyString) (map join_item items)))
  /\ (ProcessConfiguration.shell conf = true ->
      arguments = [] ->
      ProcessConfiguration.get_command conf cmd arguments
      = CommandLine (system_encode cmd)
      /\ (needquote (system_encode cmd) = true ->
          ProcessConfiguration.get_command conf cmd arguments
          <> CommandLine (join_command_line items))).
Proof.
  cbn zeta. unfold ProcessConfiguration.get_command. split; [|split].
  - intros ->. cbn [negb]. split; [reflexivity|].
    cbn [map length]. now rewrite length_map.
  - intros -> Hargs Hitems. cbn [negb].
    destruct arguments as [|argument arguments]; [contradiction|].
    now rewrite (list2cmdline_items _ Hitems).
  - intros -> ->. cbn [negb]. split; [reflexivity|].
    intros Hneed Heq. inversion Heq as [Hline].
    revert Hline. cbn [map]. unfold join_command_line, list2cmdline.
    cbn [list2cmdline_from]. rewrite append_nil_l.
    unfold list2cmdline_arg. rewrite Hneed.
    pose proof (list2cmdline_chars_length (system_encode cmd) O) as Hlen.
    destruct (list2cmdline_chars (system_encode cmd) 0) as [out bs].
    cbn [fst snd] in Hlen. intros Hline.
    apply (f_equal String.length) in Hline. revert Hline.
    cbn [String.length].
    rewrite !length_append, !length_repeat_char. cbn [String.length]. lia.
Qed.

Lemma get_command_shell_witness :
  let conf := ProcessConfiguration.mk "/work" true None "CONSOLE" PIPE PIPE
                None None in
  ProcessConfiguration.shell conf = true
  /\ ["two words"] <> []
  /\ Forall (fun item => literal_backslashes item = true)
       (map (@system_encode posix_host) ["echo"; "two words"])
  /\ @ProcessConfiguration.get_command posix_host conf "echo" ["two words"]
     = CommandLine ("echo " ++ quoted "two words")
  /\ @ProcessConfiguration.get_command posix_host conf "echo two words" []
     = CommandLine "echo two words".
Proof.
  cbn zeta.
  assert (Hitems : Forall (fun item => literal_backslashes item = true)
                     (map (@system_encode posix_host) ["echo"; "two words"]))
    by (repeat constructor).
  split; [reflexivity|]. split; [discriminate|]. split; [exact Hitems|].
  destruct (get_command_shell posix_host
              (ProcessConfiguration.mk "/work" true None "CONSOLE" PIPE PIPE
                 None None) "echo" ["two words"]) as (_ & Hline & _).
  destruct (get_command_shell posix_host
              (ProcessConfiguration.mk "/work" true None "CONSOLE" PIPE PIPE
                 None None) "echo two words" []) as (_ & _ & Hbare).
  split.
  - rewrite (Hline eq_refl ltac:(discriminate) Hitems). vm_compute. reflexivity.
  - exact (proj1 (Hbare eq_refl eq_refl)).
Defined.
(* ================================================================== *)
(** * The standard input of a new process *)
(* ================================================================== *)



(* ================================================================== *)
(** * Reading the output of a process *)
(* ================================================================== *)

Lemma read_content_cases `{OS} (id : nat) (w : World) (f : FileObj.t) :
  objects w !! id = Some f ->
  FileObj.closed f = false ->
  ExecutionResult.read_content id w
  = Ret (if FileObj.is_pipe f
         then default EmptyString (os_pipe_read w id)
         else default EmptyString (files w !! FileObj.name f)) w.
Proof.
  intros Hf Hclosed. unfold ExecutionResult.read_content, try_except, read.
  rewrite Hf, Hclosed. destruct (FileObj.is_pipe f); [|reflexivity].
  destruct (os_pipe_read w id); reflexivity.
Qed.

(** X17: how [_read_stream] reads.  With a path it reads the file of
    that path, whatever the stream is: the file object it opens is closed
    again, nothing else changes, and a missing file gives the [OSError]
    of [open].  Without a path it changes nothing: a stream that is
    absent or closed gives the empty text, an open stream is read, and a
    read that the operating system refuses counts as empty output. *)
Theorem read_stream_sources (host : Host) (os : OS) (encoding : string)
    (path : option string) (s : option nat) (w : World) :
  (forall name,
     path = Some name ->
     name <> EmptyString ->
     match files w !! name with
     | Some raw =>
         ExecutionResult._read_stream encoding path s w
         = Ret (_format_output encoding (Some raw))
               (set_objects (objects w ++ [FileObj.mk name true false]) w)
     | None => ExecutionResult._read_stream encoding path s w = Raise OSError w
     end)
  /\ (truthy path = false ->
      (object_closed w s = true ->
       ExecutionResult._read_stream encoding path s w = Ret (Some EmptyString) w)
      /\ (forall id f,
            s = Some id ->
            objects w !! id = Some f ->
            FileObj.closed f = false ->
            ExecutionResult._read_stream encoding path s w
            = Ret (_format_output encoding
                     (Some (if FileObj.is_pipe f
                            then default EmptyString (os_pipe_read w id)
                            else default EmptyString (files w !! FileObj.name f))))
                  w)).
Proof.
  split.
  - intros name -> Hname.
    destruct (files w !! name) as [raw|] eqn:Hfile.
    + exact (read_stream_file encoding name raw s w Hname Hfile).
    + destruct name as [|c name]; [contradiction|].
      unfold ExecutionResult._read_stream. cbn [truthy default]. unfold id.
      unfold bind at 1, open_r at 1. unfold bind at 1, get at 1.
      now rewrite Hfile.
  - intros Hpath. unfold ExecutionResult._read_stream. rewrite Hpath. split.
    + intros Hclosed. unfold bind. rewrite (is_open_closed w s Hclosed).
      destruct s; reflexivity.
    + intros id f -> Hf Hclosed. unfold bind at 1.
      cbn [ExecutionResult._is_open]. unfold bind at 1, is_closed at 1.
      rewrite Hf. unfold ret at 1. unfold bind at 1. rewrite Hclosed.
      cbn [negb]. unfold bind.
      now rewrite (read_content_cases id w f Hf Hclosed).
Qed.

Lemma read_stream_sources_witness :
  exists r st,
    example_redirected = Ret (Some r) st
    /\ ExecutionResult.stdout_path r = Some "/work/out.txt"
    /\ "/work/out.txt" <> EmptyString
    /\ exists w',
         @ExecutionResult._read_stream posix_host example_os "CONSOLE"
           (Some "/work/out.txt") None (Process.world st)
         = Ret (Some EmptyString) w'
         /\ objects w'
            = (objects (Process.world st)
                 ++ [FileObj.mk "/work/out.txt" true false])%list.
Proof.
  eexists _, _. split; [vm_compute; reflexivity|].
  split; [reflexivity|]. split; [discriminate|].
  match goal with
  | |- exists w', ExecutionResult._read_stream _ _ _ (Process.world ?st) = _ /\ _ =>
      destruct (read_stream_sources posix_host example_os "CONSOLE"
                  (Some "/work/out.txt") None (Process.world st))
        as [Hfile _];
      specialize (Hfile "/work/out.txt" eq_refl ltac:(discriminate));
      assert (Hraw : files (Process.world st) !! "/work/out.txt"
                     = Some EmptyString) by (vm_compute; reflexivity);
      rewrite Hraw in Hfile
  end.
  eexists. split; [exact Hfile|]. reflexivity.
Defined.
(* ================================================================== *)
(** * The path of a redirected output *)
(* ================================================================== *)





(* ================================================================== *)
(** * Signal names *)
(* ================================================================== *)

Lemma startswith_append (prefix rest : string) :
  startswith prefix (prefix ++ rest) = true.
Proof.
  induction prefix as [|c prefix IH]; [reflexivity|].
  rewrite append_cons. cbn [startswith]. now rewrite Ascii.eqb_refl, IH.
Qed.

(** X19: a signal name means the same with and without the prefix SIG:
    both forms give the same number, or both are refused, each with the
    name as it was given.  A number, and a string that [int] reads, is
    taken as it is and never looked up among the signal names. *)
Theorem signal_name_prefix (signals : PythonSignals) (name : string) :
  (startswith "SIG" name = false ->
   python_int name = None ->
   python_int ("SIG" ++ name) = None ->
   match signal_module ("SIG" ++ name) with
   | Some number =>
       _get_signal_number (SignalText name) = inr number
       /\ _get_signal_number (SignalText ("SIG" ++ name)) = inr number
   | None =>
       _get_signal_number (SignalText name)
       = inl (RuntimeError ("Unsupported signal '" ++ name ++ "'."))
       /\ _get_signal_number (SignalText ("SIG" ++ name))
          = inl (RuntimeError ("Unsupported signal 'SIG" ++ name ++ "'."))
   end)
  /\ (forall number,
        python_int name = Some number ->
        _get_signal_number (SignalText name) = inr number)
  /\ (forall number, _get_signal_number (SignalNumber number) = inr number).
Proof.
  split; [|split].
  - intros Hprefix Hint Hint'.
    unfold _get_signal_number, _convert_signal_name_to_number.
    rewrite Hint, Hint', Hprefix.
    rewrite (startswith_append "SIG" name).
    destruct (signal_module ("SIG" ++ name)); split; reflexivity.
  - intros number Hint. unfold _get_signal_number. now rewrite Hint.
  - reflexivity.
Qed.

Lemma signal_name_prefix_witness :
  startswith "SIG" "INT" = false
  /\ @python_int posix_signals "INT" = None
  /\ @python_int posix_signals "SIGINT" = None
  /\ @_get_signal_number posix_signals (SignalText "INT") = inr 2
  /\ @_get_signal_number posix_signals (SignalText "SIGINT") = inr 2
  /\ @_get_signal_number posix_signals (SignalText "2") = inr 2.
Proof.
  split; [reflexivity|]. split; [reflexivity|]. split; [reflexivity|].
  destruct (signal_name_prefix posix_signals "INT") as (Hname & _ & _).
  specialize (Hname eq_refl eq_refl eq_refl).
  change (@signal_module posix_signals ("SIG" ++ "INT")) with (Some 2) in Hname.
  destruct Hname as [Hshort Hlong].
  split; [exact Hshort|]. split; [exact Hlong|].
  destruct (signal_name_prefix posix_signals "2") as (_ & Hnumber & _).
  exact (Hnumber 2 eq_refl).
Defined.
